(** * o1js-gcd: the limb arithmetic of [bigint.ts] and the Euclidean
      step relation of [gcd.ts], as executable Rocq definitions.

    The provable code of the repository runs on o1js [Field] elements.  A
    [Field] is modelled by its canonical representative, an integer in
    [0, Field.ORDER), every arithmetic operation reducing modulo
    [Field.ORDER]; a [Bool] is a [bool]; [Provable.if] is selection (both
    arguments are evaluated first, so every assertion made while computing
    either of them is made whatever the condition); a failed assertion or a
    thrown [Error] is an [Err] of the [result] monad.  [Provable.witness]
    runs its callback and then the [check] of the witnessed type. *)

From Stdlib Require Import ZArith Zcong Znumtheory List Bool Lia.
From Stdlib Require String DecimalString DecimalZ DecimalPos.
Import ListNotations.
Local Open Scope Z_scope.

(** ** Errors and the error monad *)

Inductive error : Type :=
| Leftover (x : Z)   (* [throw new Error('leftover: ' + x)] of [Bigint2048.from] *)
| AssertionFailed    (* an [assertTrue], [assertFalse] or [assertEquals] that does not hold *)
| RangeCheckFailed   (* a value outside the range of [Gadgets.rangeCheck64] *)
| DivisionByZero     (* the RangeError of a native BigInt division by [0n] *)
| SwitchMask         (* [Provable.switch] given a mask with several true entries *)
| OutOfFuel.         (* the driver loop of [run.ts] cut off by the model *)

Inductive result (A : Type) : Type :=
| Ok (a : A)
| Err (e : error).
Arguments Ok {A} a.
Arguments Err {A} e.

Definition bind {A B : Type} (m : result A) (k : A -> result B) : result B :=
  match m with
  | Ok a => k a
  | Err e => Err e
  end.

Notation "x <- m ;; k" := (bind m (fun x => k))
  (at level 61, m at next level, right associativity).
Notation "' pat <- m ;; k" := (bind m (fun x => match x with pat => k end))
  (at level 61, pat pattern, m at next level, right associativity).

Definition assertTrue (b : bool) : result unit :=
  if b then Ok tt else Err AssertionFailed.

Definition assertFalse (b : bool) : result unit :=
  if b then Err AssertionFailed else Ok tt.

(** [for (let i = 0; i < n; i++) s = body(i, s)] *)
Definition for_loop {S : Type} (n : nat) (body : nat -> S -> S) (s : S) : S :=
  fold_left (fun s i => body i s) (seq 0 n) s.

(** The same loop when the body can fail. *)
Definition for_loopM {S : Type} (n : nat) (body : nat -> S -> result S)
    (s : S) : result S :=
  fold_left (fun m i => s <- m;; body i s) (seq 0 n) (Ok s).

(** [a[k] = f(a[k])] on an array; the code only writes inside the array. *)
Fixpoint update (k : nat) (f : Z -> Z) (a : list Z) : list Z :=
  match a, k with
  | [], _ => []
  | x :: a', O => f x :: a'
  | x :: a', S k' => x :: update k' f a'
  end.

(** ** The native field of o1js *)

Module Field.

(** The order of the Pallas base field, the native field of o1js. *)
Definition ORDER : Z :=
  28948022309329048855892746252171976963363056481941560715954676764349967630337.

(** [Field(x)] for a native bigint [x]. *)
Definition of_Z (x : Z) : Z := x mod ORDER.

Definition add (a b : Z) : Z := (a + b) mod ORDER.
Definition sub (a b : Z) : Z := (a - b) mod ORDER.
Definition mul (a b : Z) : Z := (a * b) mod ORDER.
(** The code only divides by [2^LIMB_BITS], which has an inverse. *)
Definition inv (a : Z) : Z := Z.invmod a ORDER.
Definition div (a b : Z) : Z := mul a (inv b).

(** Comparisons are those of the canonical representatives. *)
Definition equals (a b : Z) : bool := a =? b.
Definition lessThan (a b : Z) : bool := a <? b.
Definition greaterThan (a b : Z) : bool := b <? a.

Definition assertEquals (a b : Z) : result unit := assertTrue (equals a b).

(** [Bool.toField()] *)
Definition of_bool (b : bool) : Z := if b then 1 else 0.

(** A value is a field element when it is its own canonical representative. *)
Definition is_elt (a : Z) : Prop := 0 <= a < ORDER.

Definition assertNotEquals (a b : Z) : result unit := assertFalse (equals a b).

(** [x.toBits(length)]: the [length] low bits of [x], least significant
    first; the assertion that they make up [x] fails when [x] does not fit. *)
Definition toBits (length : nat) (x : Z) : result (list bool) :=
  if x <? 2 ^ Z.of_nat length
  then Ok (map (fun i => Z.testbit x (Z.of_nat i)) (seq 0 length))
  else Err AssertionFailed.

(** The number that a list of bits, least significant first, stands for. *)
Fixpoint of_bits (bits : list bool) : Z :=
  match bits with
  | [] => 0
  | b :: bits' => of_bool b + 2 * of_bits bits'
  end.

End Field.

(** A field element stands for the integers it is congruent to. *)
Definition stands_for (f z : Z) : Prop := f = z mod Field.ORDER.

(** [Provable.switch(mask, Field, values)]: throws on a mask with more than
    one true entry, and otherwise sums the values weighted by the mask. *)
Definition Provable_switch (mask : list bool) (values : list Z) : result Z :=
  if (1 <? Z.of_nat (count_occ bool_dec mask true)) then Err SwitchMask
  else Ok (fold_left
             (fun acc mv => Field.add acc (Field.mul (snd mv) (Field.of_bool (fst mv))))
             (combine mask values) 0).

(** [Gadgets.rangeCheck64(x)] of o1js: asserts [x < 2^64] and returns the
    12-bit limbs of [x] at bit offsets 52, 40, 28 and 16; the callers here
    only look at the first of them, [x52]. *)
Definition rangeCheck64 (x : Z) : result Z :=
  if x <? 2 ^ 64 then Ok (Z.land (Z.shiftr x 52) (2 ^ 12 - 1))
  else Err RangeCheckFailed.

(** ** Constants of [bigint.ts] *)

Definition Less : Z := 0.
Definition Equal : Z := 1.
Definition Greater : Z := 2.

(** The member of [Ordering] for the sign of a difference. *)
Definition Ordering_of_sign (d : Z) : Z :=
  match d with
  | Zneg _ => Less
  | Z0 => Equal
  | Zpos _ => Greater
  end.

Definition LIMB_NUM : nat := 18.
Definition LIMB_BITS : Z := 116.
Definition MODULUS : Z := Z.shiftl 1 LIMB_BITS.
Definition MASK : Z := MODULUS - 1.

(** ** Range checks *)

(** The constraints of [rangeCheck116] on [x], for witnesses [x0] and [x1]. *)
Definition rangeCheck116_constraints (x x0 x1 : Z) : result unit :=
  _ <- rangeCheck64 x0;;
  x52 <- rangeCheck64 x1;;
  _ <- Field.assertEquals x52 0;;
  Field.assertEquals (Field.add x0 (Field.mul x1 (Z.shiftl 1 64))) x.

Definition rangeCheck116 (x : Z) : result unit :=
  let x0 := Field.of_Z (Z.land x (Z.shiftl 1 64 - 1)) in
  let x1 := Field.of_Z (Z.shiftr x 64) in
  rangeCheck116_constraints x x0 x1.

Definition rangeCheck128Signed (xSigned : Z) : result unit :=
  let x := Field.add xSigned (Z.shiftl 1 127) in
  let x0 := Field.of_Z (Z.land x (Z.shiftl 1 64 - 1)) in
  let x1 := Field.of_Z (Z.shiftr x 64) in
  _ <- rangeCheck64 x0;;
  _ <- rangeCheck64 x1;;
  Field.assertEquals (Field.add x0 (Field.mul x1 (Z.shiftl 1 64))) x.

(** ** The limb polynomial of [multiply], over any ring operations

    The loops that fill [delta] are written once over the operations they
    use, so that the same loops can be run on field elements (the code) and
    on integers (its meaning). *)

Section Delta.
Variables (fadd fsub fmul : Z -> Z -> Z).

(** [for (j = 0; j < n; j++) delta[i + j] = op(delta[i + j], c * B[j])] *)
Definition delta_row (op : Z -> Z -> Z) (n : nat) (c : Z) (B : list Z)
    (i : nat) (delta : list Z) : list Z :=
  for_loop n
    (fun j d => update (i + j) (fun v => op v (fmul c (nth j B 0))) d) delta.

(** One turn of the outer loop of [multiply]. *)
Definition delta_step (isSquare : bool) (X Y Q R P : list Z)
    (i : nat) (delta : list Z) : list Z :=
  let delta :=
    if isSquare then
      let delta :=
        for_loop i
          (fun j d =>
             update (i + j)
               (fun v => fadd v (fmul (fmul (nth i X 0) (nth j X 0)) 2)) d)
          delta in
      update (2 * i) (fun v => fadd v (fmul (nth i X 0) (nth i X 0))) delta
    else delta_row fadd LIMB_NUM (nth i X 0) Y i delta in
  let delta := delta_row fsub LIMB_NUM (nth i Q 0) P i delta in
  update i (fun v => fsub v (nth i R 0)) delta.

Definition compute_delta (isSquare : bool) (X Y Q R P : list Z) : list Z :=
  for_loop LIMB_NUM (delta_step isSquare X Y Q R P)
    (repeat 0 (2 * LIMB_NUM - 1)).
End Delta.

(** The entries of [delta] stay below this bound in absolute value. *)
Definition delta_bound : Z := 2 ^ 242.

(** ** Bigint2048 *)

Module Bigint2048.

Record t : Type := mk { negative : bool; fields : list Z }.

(** The loop of [from]: [n] limbs of [x], and what is left of [x]. *)
Fixpoint from_limbs (n : nat) (x : Z) : list Z * Z :=
  match n with
  | O => ([], x)
  | S n' =>
      let limb := Field.of_Z (Z.land x MASK) in
      let (rest, left) := from_limbs n' (Z.shiftr x LIMB_BITS) in
      (limb :: rest, left)
  end.

Definition from (x : Z) : result t :=
  let negative := x <? 0 in
  let x := if negative then - x else x in
  let (fields, x) := from_limbs LIMB_NUM x in
  if negb (x =? 0) then Err (Leftover x)
  else Ok (mk negative fields).

Definition MAX_value : Z := Z.shiftl 1 (LIMB_BITS * Z.of_nat LIMB_NUM) - 1.

(** [from] does not throw on the three constants, so they are values. *)
Definition const (x : Z) : t :=
  match from x with
  | Ok v => v
  | Err _ => mk false []
  end.

Definition MAX : t := const MAX_value.
Definition ZERO : t := const 0.
Definition ONE : t := const 1.

(** [check]: one [rangeCheck116] per limb. *)
Fixpoint check_limbs (l : list Z) : result unit :=
  match l with
  | [] => Ok tt
  | x :: l' => _ <- rangeCheck116 x;; check_limbs l'
  end.

Definition check (x : t) : result unit := check_limbs (fields x).

(** The loop of [toBigInt], which runs from the last limb down to the first. *)
Definition magnitude (limbs : list Z) : Z :=
  fold_right (fun limb value => Z.shiftl value LIMB_BITS + limb) 0 limbs.

Definition toBigInt (x : t) : Z :=
  let value := magnitude (fields x) in
  if negative x then - value else value.

(** The invariant of the struct: [LIMB_NUM] limbs, each of [LIMB_BITS] bits. *)
Definition in_range (limbs : list Z) : Prop :=
  Forall (fun limb => 0 <= limb < MODULUS) limbs.

Definition wf (x : t) : Prop :=
  length (fields x) = LIMB_NUM /\ in_range (fields x).

(** The invariant as a test. *)
Definition wfb (x : t) : bool :=
  Nat.eqb (length (fields x)) LIMB_NUM
  && forallb (fun limb => (0 <=? limb) && (limb <? MODULUS)) (fields x).

Definition abs (x : t) : t := mk false (fields x).
Definition neg (x : t) : t := mk (negb (negative x)) (fields x).

(** [Provable.if(c, Bigint2048, a, b)] and its variants on arrays. *)
Definition select {A : Type} (c : bool) (a b : A) : A := if c then a else b.

(** *** Comparisons *)

Definition isZero (x : t) : bool :=
  fold_left (fun state limb => state && Field.equals limb 0) (fields x) true.

(** One turn of the loop of [cmp], on limb [i] of both operands. *)
Definition cmp_limb (this_i other_i state : Z) : result Z :=
  inner <- Provable_switch
             [Field.greaterThan other_i this_i;
              Field.equals other_i this_i;
              Field.lessThan other_i this_i]
             [Less; Equal; Greater];;
  Provable_switch
    [Field.equals state Less; Field.equals state Equal; Field.equals state Greater]
    [Less; inner; Greater].

(** The loop runs from the last limb down to the first. *)
Definition cmp_abs (this other : t) : result Z :=
  fold_right (fun limbs state => s <- state;; cmp_limb (fst limbs) (snd limbs) s)
    (Ok Equal) (combine (fields this) (fields other)).

Definition cmp (this other : t) : result Z :=
  state <- cmp_abs this other;;
  let thisNegative := negative this && negb (isZero this) in
  let otherNegative := negative other && negb (isZero other) in
  flipped <- Provable_switch
               [Field.equals state Less; Field.equals state Equal;
                Field.equals state Greater]
               [Greater; Equal; Less];;
  Provable_switch
    [thisNegative && negb otherNegative;
     negb thisNegative && otherNegative;
     negb thisNegative && negb otherNegative;
     thisNegative && otherNegative]
    [Less; Greater; state; flipped].

Definition equals (this other : t) : bool :=
  let '(bothAreZero, allEqual) :=
    fold_left
      (fun st limbs =>
         let '(bothAreZero, allEqual) := st in
         let allEqual := allEqual && Field.equals (fst limbs) (snd limbs) in
         let bothAreZero := bothAreZero && Field.equals (fst limbs) 0 in
         let bothAreZero := bothAreZero && Field.equals (snd limbs) 0 in
         (bothAreZero, allEqual))
      (combine (fields this) (fields other))
      (true, Bool.eqb (negative this) (negative other)) in
  bothAreZero || allEqual.

Definition lessThan (this other : t) : result bool :=
  c <- cmp this other;; Ok (Field.equals c Less).

Definition assertEquals (this other : t) : result unit :=
  assertTrue (equals this other).

Definition assertNotEquals (this other : t) : result unit :=
  assertFalse (equals this other).

Definition assertLessThan (this other : t) : result unit :=
  c <- cmp this other;; Field.assertEquals c Less.

(** *** Addition *)

(** The magnitude-sum loop of [add]: the limbs and the last carry. *)
Fixpoint add_chain (a b : list Z) (carry : bool) : list Z * bool :=
  match a, b with
  | x :: a', y :: b' =>
      let s := Field.add (Field.add x y) (Field.of_bool carry) in
      let carry := Field.greaterThan s MASK in
      let s := select carry (Field.sub s MODULUS) s in
      let (rest, last) := add_chain a' b' carry in
      (s :: rest, last)
  | _, _ => ([], carry)
  end.

(** The magnitude-difference loop of [add]. *)
Fixpoint sub_chain (a b : list Z) (carry : bool) : list Z * bool :=
  match a, b with
  | x :: a', y :: b' =>
      let s := Field.sub (Field.sub x y) (Field.of_bool carry) in
      let carry := Field.greaterThan s MASK in
      let s := select carry (Field.add s MODULUS) s in
      let (rest, last) := sub_chain a' b' carry in
      (s :: rest, last)
  | _, _ => ([], carry)
  end.

Definition add (this rhs : t) : result t :=
  let isSub := negb (Bool.eqb (negative this) (negative rhs)) in
  thisSmall <- lessThan (abs this) (abs rhs);;
  let resultNegative :=
    select isSub (Bool.eqb (negative rhs) thisSmall) (negative this) in
  let (addFields, carry) := add_chain (fields this) (fields rhs) false in
  _ <- assertFalse carry;;
  let (bigger, smaller) := select thisSmall (rhs, this) (this, rhs) in
  let (subFields, carry) := sub_chain (fields bigger) (fields smaller) false in
  _ <- assertFalse carry;;
  let fields := select isSub subFields addFields in
  Ok (mk resultNegative fields).

Definition sub (this y : t) : result t := add this (neg y).

(** *** Multiplication *)

(** The carry loop of [multiply]: one turn on limb [d] of [delta]. *)
Definition carry_step (d carry : Z) : result Z :=
  let deltaPlusCarry := Field.add d carry in
  let carry := Field.div deltaPlusCarry (Field.of_Z (Z.shiftl 1 LIMB_BITS)) in
  _ <- rangeCheck128Signed carry;;
  _ <- Field.assertEquals deltaPlusCarry
         (Field.mul carry (Field.of_Z (Z.shiftl 1 LIMB_BITS)));;
  Ok carry.

(** The constraints of [multiply] on the operands and the witnesses. *)
Definition multiply_constraints (isSquare : bool) (x y p q r : t)
    : result unit :=
  let delta :=
    compute_delta Field.add Field.sub Field.mul isSquare
      (fields x) (fields y) (fields q) (fields r) (fields p) in
  carry <- for_loopM (2 * LIMB_NUM - 2)
             (fun i carry => carry_step (nth i delta 0) carry) 0;;
  Field.assertEquals (Field.add (nth (2 * LIMB_NUM - 2) delta 0) carry) 0.

(** The witness callback of [multiply]. *)
Definition multiply_witness (x y p : t) : result (t * t) :=
  let xy := toBigInt x * toBigInt y in
  let p0 := toBigInt p in
  if p0 =? 0 then Err DivisionByZero
  else
    let q := Z.quot xy p0 in
    let r := xy - q * p0 in
    q <- from q;;
    r <- from r;;
    Ok (q, r).

Definition multiply (x y p : t) (isSquare : bool) : result t :=
  let y := if isSquare then x else y in
  '(q, r) <- multiply_witness x y p;;
  _ <- check q;;
  _ <- check r;;
  _ <- multiply_constraints isSquare x y p q r;;
  Ok r.

Definition modMul (this x y : t) : result t := multiply x y this false.

Definition mul (this y : t) : result t :=
  r <- modMul MAX (abs this) (abs y);;
  Ok (mk (negb (Bool.eqb (negative this) (negative y))) (fields r)).

(** *** Division *)

(** The witness callback of [floorDiv]; [/] and [%] of BigInt truncate. *)
Definition floorDiv_witness (this y : t) : result (t * t) :=
  let lhs := toBigInt this in
  let rhs := toBigInt y in
  if rhs =? 0 then Err DivisionByZero
  else
    let q := Z.quot lhs rhs in
    let r := Z.rem lhs rhs in
    let adjust := negb (r =? 0) && negb (Bool.eqb (r <? 0) (rhs <? 0)) in
    let q := if adjust then q - 1 else q in
    let r := if adjust then r + rhs else r in
    q <- from q;;
    r <- from r;;
    Ok (q, r).

Definition floorDiv (this y : t) : result (t * t) :=
  _ <- assertNotEquals y ZERO;;
  '(q, r) <- floorDiv_witness this y;;
  _ <- check q;;
  _ <- check r;;
  yq <- mul y q;;
  yqr <- add yq r;;
  _ <- assertEquals yqr this;;
  _ <- assertLessThan (abs r) (abs y);;
  _ <- assertTrue (equals r ZERO || Bool.eqb (negative r) (negative y));;
  Ok (q, r).

(** The witness callback of [truncDiv]. *)
Definition truncDiv_witness (this y : t) : result (t * t) :=
  let lhs := toBigInt this in
  let rhs := toBigInt y in
  if rhs =? 0 then Err DivisionByZero
  else
    let q := Z.quot lhs rhs in
    let r := Z.rem lhs rhs in
    q <- from q;;
    r <- from r;;
    Ok (q, r).

Definition truncDiv (this y : t) : result (t * t) :=
  _ <- assertNotEquals y ZERO;;
  '(q, r) <- truncDiv_witness this y;;
  _ <- check q;;
  _ <- check r;;
  yq <- mul y q;;
  yqr <- add yq r;;
  _ <- assertEquals yqr this;;
  _ <- assertTrue (equals r ZERO || Bool.eqb (negative r) (negative this));;
  _ <- assertLessThan (abs r) (abs y);;
  Ok (q, r).

(** The witness callback of [divExact]. *)
Definition divExact_witness (this y : t) : result t :=
  if toBigInt y =? 0 then Err DivisionByZero
  else from (Z.quot (toBigInt this) (toBigInt y)).

Definition divExact (this y : t) : result t :=
  q <- divExact_witness this y;;
  _ <- check q;;
  yq <- mul y q;;
  _ <- assertEquals yq this;;
  Ok q.

(** *** Squares and powers *)

Definition modSquare (this x : t) : result t := multiply x x this true.

Definition square (this : t) : result t := modSquare MAX (abs this).

(** One turn of the loop of [powField]: both products are computed
    whatever the bit. *)
Definition powField_turn (bit : bool) (st : t * t) : result (t * t) :=
  let (result, squares) := st in
  product <- mul result squares;;
  let result := select bit product result in
  squares <- mul squares squares;;
  Ok (result, squares).

Fixpoint powField_loop (bits : list bool) (st : t * t) : result (t * t) :=
  match bits with
  | [] => Ok st
  | bit :: bits' => st' <- powField_turn bit st;; powField_loop bits' st'
  end.

(** [powField]; [bitLength] is the number of bits that [Field.toBits()]
    of o1js returns when it is given no length. *)
Definition powField (bitLength : nat) (this : t) (exponent : Z) : result t :=
  bits <- Field.toBits bitLength exponent;;
  one <- from 1;;
  st <- powField_loop bits (one, this);;
  Ok (fst st).

(** *** Bits *)

Fixpoint toBits_limbs (limbs : list Z) : result (list bool) :=
  match limbs with
  | [] => Ok []
  | limb :: limbs' =>
      bits <- Field.toBits (Z.to_nat LIMB_BITS) limb;;
      rest <- toBits_limbs limbs';;
      Ok (bits ++ rest)
  end.

Definition toBits (x : t) : result (list bool) := toBits_limbs (fields x).

(** *** The other comparisons *)

Definition lessThanOrEqual (this other : t) : result bool :=
  c <- cmp this other;; Ok (negb (Field.equals c Greater)).

Definition greaterThan (this other : t) : result bool :=
  c <- cmp this other;; Ok (Field.equals c Greater).

Definition greaterThanOrEqual (this other : t) : result bool :=
  c <- cmp this other;; Ok (negb (Field.equals c Less)).

Definition assertLessThanOrEqual (this other : t) : result unit :=
  c <- cmp this other;; Field.assertNotEquals c Greater.

Definition assertGreaterThan (this other : t) : result unit :=
  c <- cmp this other;; Field.assertEquals c Greater.

Definition assertGreaterThanOrEqual (this other : t) : result unit :=
  c <- cmp this other;; Field.assertNotEquals c Less.

(** *** Text *)

(** [toString], which [toJSON] returns too: the decimal digits of
    [toBigInt], after a ['-'] (character 45) of its own when the value is
    zero and the sign bit is set. *)
Definition toString (x : t) : String.string :=
  String.append
    (if (toBigInt x =? 0) && negative x
     then String.String (Ascii.ascii_of_nat 45) String.EmptyString
     else String.EmptyString)
    (DecimalString.NilZero.string_of_int (Z.to_int (toBigInt x))).

Definition toJSON (x : t) : String.string := toString x.

End Bigint2048.

(** ** [gcd.ts] *)

Definition GCD_ITERATIONS_PER_PROOF : nat := 9.

(** One reduction of Euclid's algorithm on integers. *)
Definition gcd_step (p : Z * Z) : Z * Z :=
  if snd p =? 0 then p else (snd p, fst p mod snd p).

Module GcdPair.

Record t : Type := mk { g_0 : Bigint2048.t; g_1 : Bigint2048.t }.

Definition wf (p : t) : Prop := Bigint2048.wf (g_0 p) /\ Bigint2048.wf (g_1 p).

(** The integers of a pair. *)
Definition values (p : t) : Z * Z :=
  (Bigint2048.toBigInt (g_0 p), Bigint2048.toBigInt (g_1 p)).

Definition isSolved (this : t) : bool :=
  let subGcd := Bigint2048.equals (g_0 this) (g_1 this) in
  let divGcd := Bigint2048.equals (g_1 this) Bigint2048.ZERO in
  subGcd || divGcd.

Definition assertSolved (this : t) : result Bigint2048.t :=
  _ <- assertTrue (isSolved this);;
  Ok (g_0 this).

(** The divisor handed to [floorDiv] by one turn of the loop. *)
Definition divisor (curr : t) : Bigint2048.t :=
  Bigint2048.select (Bigint2048.equals (g_1 curr) Bigint2048.ZERO)
    Bigint2048.ONE (g_1 curr).

(** One turn of the loop of [euclidGcd]. *)
Definition euclidStep (curr : t) : result t :=
  let isZero := Bigint2048.equals (g_1 curr) Bigint2048.ZERO in
  let new_g_0 := Bigint2048.select isZero (g_0 curr) (g_1 curr) in
  '(_, rem) <- Bigint2048.floorDiv (g_0 curr) (divisor curr);;
  let new_g_1 := Bigint2048.select isZero (g_1 curr) rem in
  Ok (mk new_g_0 new_g_1).

Definition euclidGcd (this : t) : result t :=
  for_loopM GCD_ITERATIONS_PER_PROOF (fun _ curr => euclidStep curr) this.

End GcdPair.

(** ** [GcdProgram] and the driver of [run.ts]

    A proof of the program is modelled by the public input and output it
    attests; only proofs made by the two methods exist, so [verify] holds. *)

Module GcdProgram.

Record proof : Type :=
  mkProof { publicInput : GcdPair.t; publicOutput : GcdPair.t }.

Definition baseCase (publicInput : GcdPair.t) : result proof :=
  out <- GcdPair.euclidGcd publicInput;;
  Ok (mkProof publicInput out).

Definition step (input : GcdPair.t) (earlierProof : proof) : result proof :=
  _ <- Bigint2048.assertEquals (GcdPair.g_0 input)
         (GcdPair.g_0 (publicInput earlierProof));;
  _ <- Bigint2048.assertEquals (GcdPair.g_1 input)
         (GcdPair.g_1 (publicInput earlierProof));;
  out <- GcdPair.euclidGcd (publicOutput earlierProof);;
  Ok (mkProof input out).

(** [while (!proof.publicOutput.isSolved()) proof = step(pair, proof)],
    cut off after [fuel] turns. *)
Fixpoint drive (fuel : nat) (pair : GcdPair.t) (p : proof) : result proof :=
  if GcdPair.isSolved (publicOutput p) then Ok p
  else
    match fuel with
    | O => Err OutOfFuel
    | S fuel' => p' <- step pair p;; drive fuel' pair p'
    end.

(** The run of [run.ts] on the numbers [a] and [b]: the solution printed. *)
Definition run (fuel : nat) (a b : Z) : result Z :=
  g0 <- Bigint2048.from a;;
  g1 <- Bigint2048.from b;;
  let pair := GcdPair.mk g0 g1 in
  p <- baseCase pair;;
  p <- drive fuel pair p;;
  g <- GcdPair.assertSolved (publicOutput p);;
  Ok (Bigint2048.toBigInt g).

End GcdProgram.


(** * Properties *)

(** ** The error monad *)

Lemma bind_Ok_inv {A B : Type} (m : result A) (k : A -> result B) (b : B) :
  bind m k = Ok b -> exists a, m = Ok a /\ k a = Ok b.
Proof. destruct m as [a|e]; simpl; intros H; [eauto | discriminate]. Qed.

Lemma assertTrue_Ok (b : bool) : assertTrue b = Ok tt <-> b = true.
Proof. destruct b; simpl; split; congruence. Qed.

Lemma assertFalse_Ok (b : bool) : assertFalse b = Ok tt <-> b = false.
Proof. destruct b; simpl; split; congruence. Qed.

(** ** Loops *)

Lemma for_loop_S {S : Type} (n : nat) (body : nat -> S -> S) (s : S) :
  for_loop (Datatypes.S n) body s = body n (for_loop n body s).
Proof. unfold for_loop. rewrite seq_S, fold_left_app. reflexivity. Qed.

Lemma for_loopM_S {S : Type} (n : nat) (body : nat -> S -> result S) (s : S) :
  for_loopM (Datatypes.S n) body s = (s' <- for_loopM n body s;; body n s').
Proof. unfold for_loopM. rewrite seq_S, fold_left_app. reflexivity. Qed.

(** The invariant rule of the [for] loop. *)
Lemma for_loop_inv {S : Type} (I : nat -> S -> Prop) (n : nat)
    (body : nat -> S -> S) (s : S) :
  I 0%nat s ->
  (forall i s, (i < n)%nat -> I i s -> I (Datatypes.S i) (body i s)) ->
  I n (for_loop n body s).
Proof.
  intros H0 Hstep.
  assert (forall m, (m <= n)%nat -> I m (for_loop m body s)) as H.
  { induction m as [|m IH]; intros Hm; [exact H0|].
    rewrite for_loop_S. apply Hstep; [lia | apply IH; lia]. }
  apply H. lia.
Qed.

(** ** Field elements and limbs *)

Lemma ORDER_pos : 2 ^ 254 < Field.ORDER.
Proof. reflexivity. Qed.

Lemma MODULUS_eq : MODULUS = 2 ^ 116.
Proof. reflexivity. Qed.

Lemma MODULUS_lt_ORDER : MODULUS < Field.ORDER.
Proof. reflexivity. Qed.

Lemma MODULUS_pos : 0 < MODULUS.
Proof. reflexivity. Qed.

Lemma of_Z_small (x : Z) : 0 <= x < Field.ORDER -> Field.of_Z x = x.
Proof. intros H. unfold Field.of_Z. apply Z.mod_small. exact H. Qed.

Lemma land_MASK (x : Z) : Z.land x MASK = x mod MODULUS.
Proof.
  change MASK with (Z.ones 116). rewrite Z.land_ones by lia.
  rewrite MODULUS_eq. reflexivity.
Qed.

Lemma shiftr_LIMB_BITS (x : Z) : Z.shiftr x LIMB_BITS = x / MODULUS.
Proof. unfold LIMB_BITS. rewrite Z.shiftr_div_pow2 by lia. rewrite MODULUS_eq. reflexivity. Qed.

Lemma shiftl_LIMB_BITS (x : Z) : Z.shiftl x LIMB_BITS = x * MODULUS.
Proof. unfold LIMB_BITS. rewrite Z.shiftl_mul_pow2 by lia. rewrite MODULUS_eq. reflexivity. Qed.

Module Limbs.
Import Bigint2048.

Lemma magnitude_nil : magnitude [] = 0.
Proof. reflexivity. Qed.

Lemma magnitude_cons (x : Z) (l : list Z) :
  magnitude (x :: l) = x + MODULUS * magnitude l.
Proof.
  unfold magnitude. cbn [fold_right]. rewrite shiftl_LIMB_BITS. lia.
Qed.

Lemma in_range_cons (x : Z) (l : list Z) :
  in_range (x :: l) <-> 0 <= x < MODULUS /\ in_range l.
Proof. unfold in_range. apply Forall_cons_iff. Qed.

Lemma magnitude_bound (l : list Z) :
  in_range l -> 0 <= magnitude l < MODULUS ^ Z.of_nat (length l).
Proof.
  pose proof MODULUS_pos as HB.
  induction l as [|x l IH]; intros H.
  - rewrite magnitude_nil. simpl. lia.
  - apply in_range_cons in H. destruct H as [Hx Hl].
    specialize (IH Hl). rewrite magnitude_cons.
    cbn [length]. rewrite Nat2Z.inj_succ, Z.pow_succ_r by lia. nia.
Qed.

Lemma magnitude_inj (l1 l2 : list Z) :
  in_range l1 -> in_range l2 -> length l1 = length l2 ->
  magnitude l1 = magnitude l2 -> l1 = l2.
Proof.
  pose proof MODULUS_pos as HB.
  revert l2. induction l1 as [|x l1 IH]; intros [|y l2] H1 H2 Hlen Heq;
    try discriminate; [reflexivity|].
  apply in_range_cons in H1. apply in_range_cons in H2.
  destruct H1 as [Hx H1], H2 as [Hy H2].
  rewrite !magnitude_cons in Heq.
  assert (x = y) as ->.
  { assert ((x + MODULUS * magnitude l1) mod MODULUS
            = (y + MODULUS * magnitude l2) mod MODULUS) as E by congruence.
    rewrite !(Z.mul_comm MODULUS), !Z.mod_add, !Z.mod_small in E by lia.
    exact E. }
  f_equal. apply IH; auto. nia.
Qed.

Lemma magnitude_zero (l : list Z) :
  in_range l -> (magnitude l = 0 <-> Forall (fun limb => limb = 0) l).
Proof.
  pose proof MODULUS_pos as HB.
  induction l as [|x l IH]; intros H.
  - rewrite magnitude_nil. split; auto.
  - apply in_range_cons in H. destruct H as [Hx Hl].
    pose proof (magnitude_bound l Hl) as Hb.
    rewrite magnitude_cons, Forall_cons_iff, <- (IH Hl). nia.
Qed.

(** *** [from] *)

Lemma from_limbs_spec (n : nat) (x : Z) :
  0 <= x ->
  let (l, left) := from_limbs n x in
  length l = n /\ in_range l /\
  magnitude l = x mod MODULUS ^ Z.of_nat n /\
  left = x / MODULUS ^ Z.of_nat n.
Proof.
  pose proof MODULUS_pos as HB. pose proof MODULUS_lt_ORDER as HO.
  revert x. induction n as [|n IH]; intros x Hx.
  - simpl. rewrite Z.mod_1_r, Z.div_1_r. repeat split. constructor.
  - cbn [from_limbs]. rewrite shiftr_LIMB_BITS, land_MASK.
    assert (0 <= x / MODULUS) as Hq by (apply Z.div_pos; lia).
    specialize (IH (x / MODULUS) Hq).
    destruct (from_limbs n (x / MODULUS)) as [rest left].
    destruct IH as (Hlen & Hr & Hm & Hl).
    pose proof (Z.mod_pos_bound x MODULUS HB) as Hmod.
    rewrite of_Z_small by lia.
    assert (0 < MODULUS ^ Z.of_nat n) as Hp by (apply Z.pow_pos_nonneg; lia).
    rewrite Nat2Z.inj_succ, Z.pow_succ_r by lia.
    repeat split.
    + simpl. congruence.
    + apply in_range_cons. split; [lia | exact Hr].
    + rewrite magnitude_cons, Hm. rewrite Z.rem_mul_r by lia. reflexivity.
    + rewrite Hl. rewrite Z.div_div by lia. reflexivity.
Qed.

Lemma MAX_value_eq : MAX_value = MODULUS ^ Z.of_nat LIMB_NUM - 1.
Proof. reflexivity. Qed.

Lemma from_Ok (x : Z) :
  Z.abs x <= MAX_value ->
  exists v, from x = Ok v /\ wf v /\ toBigInt v = x /\ negative v = (x <? 0)
            /\ magnitude (fields v) = Z.abs x.
Proof.
  intros Hx. rewrite MAX_value_eq in Hx. unfold from.
  assert ((if x <? 0 then - x else x) = Z.abs x) as ->
    by (destruct (Z.ltb_spec x 0); lia).
  pose proof (from_limbs_spec LIMB_NUM (Z.abs x) (Z.abs_nonneg x)) as H.
  destruct (from_limbs LIMB_NUM (Z.abs x)) as [l left].
  destruct H as (Hlen & Hr & Hm & Hl).
  rewrite Z.mod_small in Hm by lia.
  rewrite Z.div_small in Hl by lia. subst left. simpl.
  eexists. split; [reflexivity|]. unfold wf, toBigInt. simpl.
  repeat split; auto. rewrite Hm. destruct (Z.ltb_spec x 0); lia.
Qed.

Lemma from_Err (x : Z) :
  MAX_value < Z.abs x ->
  from x = Err (Leftover (Z.abs x / MODULUS ^ Z.of_nat LIMB_NUM)).
Proof.
  intros Hx. rewrite MAX_value_eq in Hx. unfold from.
  assert ((if x <? 0 then - x else x) = Z.abs x) as ->
    by (destruct (Z.ltb_spec x 0); lia).
  pose proof (from_limbs_spec LIMB_NUM (Z.abs x) (Z.abs_nonneg x)) as H.
  destruct (from_limbs LIMB_NUM (Z.abs x)) as [l left].
  destruct H as (Hlen & Hr & Hm & Hl). subst left.
  assert (0 < MODULUS ^ Z.of_nat LIMB_NUM) as Hp by reflexivity.
  assert (1 <= Z.abs x / MODULUS ^ Z.of_nat LIMB_NUM) as Hq.
  { apply Z.div_le_lower_bound; lia. }
  destruct (Z.eqb_spec (Z.abs x / MODULUS ^ Z.of_nat LIMB_NUM) 0); [lia|].
  reflexivity.
Qed.

Lemma wfb_wf (x : t) : wfb x = true -> wf x.
Proof.
  unfold wfb, wf, in_range. rewrite andb_true_iff, Nat.eqb_eq, forallb_forall, Forall_forall.
  intros [Hl H]. split; [exact Hl|]. intros limb Hin. specialize (H limb Hin).
  apply andb_true_iff in H. destruct H as [H1 H2].
  apply Z.leb_le in H1. apply Z.ltb_lt in H2. lia.
Qed.

Lemma toBigInt_bound (v : t) : wf v -> Z.abs (toBigInt v) <= MAX_value.
Proof.
  intros [Hlen Hr]. pose proof (magnitude_bound _ Hr) as Hb.
  rewrite Hlen in Hb. rewrite MAX_value_eq. unfold toBigInt.
  destruct (negative v); lia.
Qed.

End Limbs.

(** C8 (round trip): a native integer of magnitude below [2^2088] is read
    back unchanged by [toBigInt] after [from]; on a native integer of
    magnitude [2^2088] or more, [from] throws its ['leftover'] error and
    returns no value. *)
Theorem from_toBigInt_roundtrip (x : Z) :
  (Z.abs x < 2 ^ 2088 ->
   exists v, Bigint2048.from x = Ok v /\ Bigint2048.toBigInt v = x) /\
  (2 ^ 2088 <= Z.abs x ->
   Bigint2048.from x = Err (Leftover (Z.abs x / 2 ^ 2088))).
Proof.
  assert (Bigint2048.MAX_value = 2 ^ 2088 - 1) as E by reflexivity.
  split; intros H.
  - destruct (Limbs.from_Ok x) as (v & Hv & _ & Hb & _); [lia|]. eauto.
  - rewrite Limbs.from_Err by lia. reflexivity.
Qed.

Lemma from_toBigInt_roundtrip_witness :
  (exists v, Bigint2048.from (-5) = Ok v /\ Bigint2048.toBigInt v = -5) /\
  Bigint2048.from (2 ^ 2088) = Err (Leftover (Z.abs (2 ^ 2088) / 2 ^ 2088)).
Proof.
  split.
  - apply (proj1 (from_toBigInt_roundtrip (-5))). reflexivity.
  - apply (proj2 (from_toBigInt_roundtrip (2 ^ 2088))). discriminate.
Defined.

(** ** The range check of a limb *)

Module RangeCheck.

Lemma rangeCheck64_Ok (x v : Z) :
  0 <= x -> rangeCheck64 x = Ok v -> x < 2 ^ 64 /\ v = x / 2 ^ 52.
Proof.
  unfold rangeCheck64. intros Hx H.
  destruct (Z.ltb_spec x (2 ^ 64)) as [Hlt|]; [|discriminate].
  assert (v = Z.land (Z.shiftr x 52) (2 ^ 12 - 1)) as -> by congruence.
  split; [exact Hlt|].
  change (2 ^ 12 - 1) with (Z.ones 12).
  rewrite Z.land_ones, Z.shiftr_div_pow2 by lia.
  apply Z.mod_small. split; [apply Z.div_pos; lia|].
  apply Z.div_lt_upper_bound; lia.
Qed.

Lemma rangeCheck64_small (x : Z) :
  0 <= x < 2 ^ 64 -> rangeCheck64 x = Ok (x / 2 ^ 52).
Proof.
  intros Hx. unfold rangeCheck64.
  destruct (Z.ltb_spec x (2 ^ 64)); [|lia].
  change (2 ^ 12 - 1) with (Z.ones 12).
  rewrite Z.land_ones, Z.shiftr_div_pow2 by lia.
  f_equal. apply Z.mod_small. split; [apply Z.div_pos; lia|].
  apply Z.div_lt_upper_bound; lia.
Qed.

Lemma field_assertEquals_Ok (a b : Z) : Field.assertEquals a b = Ok tt <-> a = b.
Proof.
  unfold Field.assertEquals, Field.equals. rewrite assertTrue_Ok. apply Z.eqb_eq.
Qed.

Lemma constraints_sound (x x0 x1 : Z) :
  Field.is_elt x -> Field.is_elt x0 -> Field.is_elt x1 ->
  rangeCheck116_constraints x x0 x1 = Ok tt -> 0 <= x < 2 ^ 116.
Proof.
  unfold Field.is_elt, rangeCheck116_constraints. intros Hx H0 H1 H.
  apply bind_Ok_inv in H. destruct H as (v0 & E0 & H).
  apply bind_Ok_inv in H. destruct H as (x52 & E1 & H).
  apply bind_Ok_inv in H. destruct H as ([] & E2 & H).
  apply rangeCheck64_Ok in E0; [|lia]. apply rangeCheck64_Ok in E1; [|lia].
  apply field_assertEquals_Ok in E2. apply field_assertEquals_Ok in H.
  destruct E0 as [L0 _], E1 as [L1 ->].
  assert (x1 < 2 ^ 52) as L52.
  { destruct (Z.lt_ge_cases x1 (2 ^ 52)) as [|Hge]; [assumption|].
    assert (1 <= x1 / 2 ^ 52) by (apply Z.div_le_lower_bound; lia). lia. }
  pose proof ORDER_pos as HO.
  unfold Field.add, Field.mul in H. change (Z.shiftl 1 64) with (2 ^ 64) in H.
  rewrite (Z.mod_small (x1 * 2 ^ 64)) in H by lia.
  rewrite Z.mod_small in H by lia. lia.
Qed.

Lemma rangeCheck116_Ok (x : Z) : 0 <= x < 2 ^ 116 -> rangeCheck116 x = Ok tt.
Proof.
  intros Hx. pose proof ORDER_pos as HO.
  unfold rangeCheck116, rangeCheck116_constraints.
  change (Z.shiftl 1 64 - 1) with (Z.ones 64). change (Z.shiftl 1 64) with (2 ^ 64).
  rewrite Z.land_ones, Z.shiftr_div_pow2 by lia.
  pose proof (Z.mod_pos_bound x (2 ^ 64) eq_refl) as Hm.
  assert (0 <= x / 2 ^ 64 < 2 ^ 52) as Hq.
  { split; [apply Z.div_pos; lia | apply Z.div_lt_upper_bound; lia]. }
  rewrite !of_Z_small by lia.
  rewrite !rangeCheck64_small by lia. cbn [bind].
  rewrite (Z.div_small (x / 2 ^ 64)) by lia.
  change (Field.assertEquals 0 0) with (Ok tt). cbn [bind].
  apply field_assertEquals_Ok. unfold Field.add, Field.mul.
  rewrite (Z.mod_small (x / 2 ^ 64 * 2 ^ 64)) by lia.
  rewrite Z.mod_small by lia.
  pose proof (Z.div_mod x (2 ^ 64)). lia.
Qed.

Lemma check_limbs_Ok (l : list Z) :
  Bigint2048.in_range l -> Bigint2048.check_limbs l = Ok tt.
Proof.
  induction 1 as [|x l Hx _ IH]; [reflexivity|].
  cbn [Bigint2048.check_limbs]. rewrite MODULUS_eq in Hx.
  rewrite rangeCheck116_Ok by exact Hx. exact IH.
Qed.

Lemma check_Ok (x : Bigint2048.t) : Bigint2048.wf x -> Bigint2048.check x = Ok tt.
Proof. intros [_ H]. apply check_limbs_Ok. exact H. Qed.

End RangeCheck.

(** C9 (range check): for a field element [x], the constraints of
    [rangeCheck116] can be satisfied by some witnesses [x0] and [x1] exactly
    when [0 <= x < 2^116]; no witnesses satisfy them for [x = 2^116]; and the
    witnesses the code computes satisfy them for every [x] in the range. *)
Theorem rangeCheck116_satisfiable (x : Z) :
  Field.is_elt x ->
  ((exists x0 x1, Field.is_elt x0 /\ Field.is_elt x1 /\
                  rangeCheck116_constraints x x0 x1 = Ok tt)
   <-> 0 <= x < 2 ^ 116)
  /\ (0 <= x < 2 ^ 116 -> rangeCheck116 x = Ok tt)
  /\ (forall x0 x1, Field.is_elt x0 -> Field.is_elt x1 ->
        rangeCheck116_constraints (2 ^ 116) x0 x1 <> Ok tt).
Proof.
  intros Hx. split; [split|split].
  - intros (x0 & x1 & H0 & H1 & H).
    exact (RangeCheck.constraints_sound x x0 x1 Hx H0 H1 H).
  - intros Hr. pose proof (RangeCheck.rangeCheck116_Ok x Hr) as H.
    unfold rangeCheck116 in H. eexists _, _. split; [|split; [|exact H]].
    + apply Z.mod_pos_bound. reflexivity.
    + apply Z.mod_pos_bound. reflexivity.
  - apply RangeCheck.rangeCheck116_Ok.
  - intros x0 x1 H0 H1 H.
    assert (Field.is_elt (2 ^ 116)) as He by (unfold Field.is_elt, Field.ORDER; lia).
    pose proof (RangeCheck.constraints_sound _ x0 x1 He H0 H1 H). lia.
Qed.

Lemma rangeCheck116_satisfiable_witness :
  ((exists x0 x1, Field.is_elt x0 /\ Field.is_elt x1 /\
                  rangeCheck116_constraints (2 ^ 116 - 1) x0 x1 = Ok tt)
   <-> 0 <= 2 ^ 116 - 1 < 2 ^ 116)
  /\ (0 <= 2 ^ 116 - 1 < 2 ^ 116 -> rangeCheck116 (2 ^ 116 - 1) = Ok tt)
  /\ (forall x0 x1, Field.is_elt x0 -> Field.is_elt x1 ->
        rangeCheck116_constraints (2 ^ 116) x0 x1 <> Ok tt).
Proof.
  apply (rangeCheck116_satisfiable (2 ^ 116 - 1)).
  unfold Field.is_elt, Field.ORDER. lia.
Defined.

(** ** Comparisons *)

Module Compare.
Import Bigint2048.

Lemma Ordering_of_sign_lt (d : Z) : d < 0 -> Ordering_of_sign d = Less.
Proof. destruct d; simpl; intros; try lia; reflexivity. Qed.

Lemma Ordering_of_sign_gt (d : Z) : 0 < d -> Ordering_of_sign d = Greater.
Proof. destruct d; simpl; intros; try lia; reflexivity. Qed.

Lemma Ordering_of_sign_cases (d : Z) :
  (d < 0 /\ Ordering_of_sign d = Less) \/ (d = 0 /\ Ordering_of_sign d = Equal)
  \/ (0 < d /\ Ordering_of_sign d = Greater).
Proof. destruct d; simpl; [right; left | right; right | left]; split; auto; lia. Qed.

(** One turn of the loop keeps a decided state and decides an undecided one
    by the limbs. *)
Lemma cmp_limb_spec (x y d : Z) :
  cmp_limb x y (Ordering_of_sign d) =
  Ok (if d =? 0 then Ordering_of_sign (x - y) else Ordering_of_sign d).
Proof.
  unfold cmp_limb, Field.greaterThan, Field.lessThan, Field.equals.
  destruct (Ordering_of_sign_cases (x - y)) as [[H ->]|[[H ->]|[H ->]]];
    destruct (Z.ltb_spec x y); try lia;
    destruct (Z.ltb_spec y x); try lia;
    destruct (Z.eqb_spec y x); try lia;
    destruct d; reflexivity.
Qed.

Lemma cmp_abs_spec (l1 l2 : list Z) (s1 s2 : bool) :
  in_range l1 -> in_range l2 -> length l1 = length l2 ->
  cmp_abs (mk s1 l1) (mk s2 l2) = Ok (Ordering_of_sign (magnitude l1 - magnitude l2)).
Proof.
  pose proof MODULUS_pos as HB. unfold cmp_abs. cbn [fields].
  revert l2. induction l1 as [|x l1 IH]; intros [|y l2] H1 H2 Hlen;
    try discriminate; [reflexivity|].
  apply Limbs.in_range_cons in H1. apply Limbs.in_range_cons in H2.
  destruct H1 as [Hx H1], H2 as [Hy H2].
  cbn [combine fold_right fst snd]. rewrite IH by (auto; simpl in Hlen; lia).
  cbn [bind]. rewrite cmp_limb_spec. rewrite !Limbs.magnitude_cons. f_equal.
  destruct (Z.eqb_spec (magnitude l1 - magnitude l2) 0) as [E|E].
  - f_equal. lia.
  - destruct (Ordering_of_sign_cases (magnitude l1 - magnitude l2))
      as [[H ->]|[[H _]|[H ->]]]; [|lia|].
    + symmetry. apply Ordering_of_sign_lt. nia.
    + symmetry. apply Ordering_of_sign_gt. nia.
Qed.

Lemma isZero_fold (l : list Z) (b : bool) :
  fold_left (fun state limb => state && Field.equals limb 0) l b =
  b && forallb (fun limb => limb =? 0) l.
Proof.
  revert b. induction l as [|x l IH]; intros b; cbn [fold_left forallb].
  - rewrite andb_true_r. reflexivity.
  - rewrite IH. unfold Field.equals. rewrite andb_assoc. reflexivity.
Qed.

Lemma forallb_zero (l : list Z) :
  in_range l -> forallb (fun limb => limb =? 0) l = (magnitude l =? 0).
Proof.
  intros H. apply eq_true_iff_eq. rewrite forallb_forall, Z.eqb_eq.
  rewrite (Limbs.magnitude_zero l H), Forall_forall.
  split; intros HH x Hx; specialize (HH x Hx); lia.
Qed.

Lemma isZero_spec (x : t) : wf x -> isZero x = (toBigInt x =? 0).
Proof.
  intros [_ H]. unfold isZero. rewrite isZero_fold. cbn [andb].
  rewrite (forallb_zero _ H). unfold toBigInt.
  destruct (negative x); [|reflexivity].
  destruct (Z.eqb_spec (magnitude (fields x)) 0), (Z.eqb_spec (- magnitude (fields x)) 0);
    auto; lia.
Qed.

Lemma cmp_spec (a b : t) :
  wf a -> wf b -> cmp a b = Ok (Ordering_of_sign (toBigInt a - toBigInt b)).
Proof.
  intros Ha Hb. unfold cmp.
  rewrite (isZero_spec a Ha), (isZero_spec b Hb).
  destruct Ha as [La Ra], Hb as [Lb Rb].
  pose proof (Limbs.magnitude_bound _ Ra) as Ba.
  pose proof (Limbs.magnitude_bound _ Rb) as Bb.
  unfold toBigInt. destruct a as [sa la], b as [sb lb]. cbn [negative fields] in *.
  rewrite cmp_abs_spec by (auto; congruence). cbn [bind].
  unfold Field.equals.
  destruct (Ordering_of_sign_cases (magnitude la - magnitude lb))
    as [[H ->]|[[H ->]|[H ->]]];
    destruct sa, sb; cbn [andb negb];
    try (destruct (Z.eqb_spec (- magnitude la) 0));
    try (destruct (Z.eqb_spec (magnitude la) 0));
    try (destruct (Z.eqb_spec (- magnitude lb) 0));
    try (destruct (Z.eqb_spec (magnitude lb) 0));
    try lia;
    match goal with
    | |- _ = Ok (Ordering_of_sign ?d) =>
        first [ rewrite (Ordering_of_sign_lt d) by lia
              | rewrite (Ordering_of_sign_gt d) by lia
              | replace d with 0 by lia ]
    end; reflexivity.
Qed.

Lemma equals_fold (l : list (Z * Z)) (z e : bool) :
  fold_left
    (fun st limbs =>
       let '(bothAreZero, allEqual) := st in
       let allEqual := allEqual && Field.equals (fst limbs) (snd limbs) in
       let bothAreZero := bothAreZero && Field.equals (fst limbs) 0 in
       let bothAreZero := bothAreZero && Field.equals (snd limbs) 0 in
       (bothAreZero, allEqual)) l (z, e) =
  (z && forallb (fun p => (fst p =? 0) && (snd p =? 0)) l,
   e && forallb (fun p => fst p =? snd p) l).
Proof.
  revert z e. induction l as [|[x y] l IH]; intros z e; cbn [fold_left forallb fst snd].
  - rewrite !andb_true_r. reflexivity.
  - rewrite IH. unfold Field.equals. rewrite !andb_assoc. reflexivity.
Qed.

Lemma forallb_both_zero (l1 l2 : list Z) :
  in_range l1 -> in_range l2 -> length l1 = length l2 ->
  forallb (fun p => (fst p =? 0) && (snd p =? 0)) (combine l1 l2) =
  (magnitude l1 =? 0) && (magnitude l2 =? 0).
Proof.
  pose proof MODULUS_pos as HB.
  revert l2. induction l1 as [|x l1 IH]; intros [|y l2] H1 H2 Hlen;
    try discriminate; [reflexivity|].
  apply Limbs.in_range_cons in H1. apply Limbs.in_range_cons in H2.
  destruct H1 as [Hx H1], H2 as [Hy H2].
  pose proof (Limbs.magnitude_bound _ H1). pose proof (Limbs.magnitude_bound _ H2).
  cbn [combine forallb fst snd]. rewrite IH by (auto; simpl in Hlen; lia).
  rewrite !Limbs.magnitude_cons.
  destruct (Z.eqb_spec x 0), (Z.eqb_spec y 0), (Z.eqb_spec (magnitude l1) 0),
    (Z.eqb_spec (magnitude l2) 0), (Z.eqb_spec (x + MODULUS * magnitude l1) 0),
    (Z.eqb_spec (y + MODULUS * magnitude l2) 0); cbn [andb]; try reflexivity; nia.
Qed.

Lemma forallb_all_equal (l1 l2 : list Z) :
  in_range l1 -> in_range l2 -> length l1 = length l2 ->
  forallb (fun p => fst p =? snd p) (combine l1 l2) = (magnitude l1 =? magnitude l2).
Proof.
  pose proof MODULUS_pos as HB.
  revert l2. induction l1 as [|x l1 IH]; intros [|y l2] H1 H2 Hlen;
    try discriminate; [reflexivity|].
  apply Limbs.in_range_cons in H1. apply Limbs.in_range_cons in H2.
  destruct H1 as [Hx H1], H2 as [Hy H2].
  cbn [combine forallb fst snd]. rewrite IH by (auto; simpl in Hlen; lia).
  rewrite !Limbs.magnitude_cons.
  destruct (Z.eqb_spec x y), (Z.eqb_spec (magnitude l1) (magnitude l2)),
    (Z.eqb_spec (x + MODULUS * magnitude l1) (y + MODULUS * magnitude l2));
    cbn [andb]; try reflexivity; nia.
Qed.

Lemma equals_spec (a b : t) :
  wf a -> wf b -> equals a b = (toBigInt a =? toBigInt b).
Proof.
  intros [La Ra] [Lb Rb].
  pose proof (Limbs.magnitude_bound _ Ra) as Ba.
  pose proof (Limbs.magnitude_bound _ Rb) as Bb.
  unfold equals. rewrite equals_fold. cbn [andb].
  rewrite forallb_both_zero, forallb_all_equal by (auto; congruence).
  unfold toBigInt.
  destruct (negative a), (negative b); cbn [Bool.eqb andb];
    rewrite ?orb_false_r;
    repeat match goal with
           | |- context [?x =? ?y] => destruct (Z.eqb_spec x y)
           end; cbn [andb orb]; try reflexivity; lia.
Qed.

End Compare.

(** C6 (ordering): on values that satisfy the struct invariant, [cmp]
    returns the member of [Ordering] for the sign of the difference of the
    two integer values, and [equals] is true exactly when the two integer
    values are equal; the integer value of all-zero limbs is [0] whatever
    the sign bit, so the two zeros compare equal. *)
Theorem cmp_equals_by_value (a b : Bigint2048.t) :
  Bigint2048.wf a -> Bigint2048.wf b ->
  Bigint2048.cmp a b
  = Ok (Ordering_of_sign (Bigint2048.toBigInt a - Bigint2048.toBigInt b))
  /\ (Bigint2048.equals a b = true <-> Bigint2048.toBigInt a = Bigint2048.toBigInt b)
  /\ (Bigint2048.isZero a = true <-> Bigint2048.toBigInt a = 0).
Proof.
  intros Ha Hb. split; [|split].
  - apply Compare.cmp_spec; assumption.
  - rewrite Compare.equals_spec by assumption. apply Z.eqb_eq.
  - rewrite Compare.isZero_spec by assumption. apply Z.eqb_eq.
Qed.

Lemma cmp_equals_by_value_witness :
  Bigint2048.cmp (Bigint2048.mk true (repeat 0 18)) (Bigint2048.const (-3))
  = Ok (Ordering_of_sign
          (Bigint2048.toBigInt (Bigint2048.mk true (repeat 0 18))
           - Bigint2048.toBigInt (Bigint2048.const (-3))))
  /\ (Bigint2048.equals (Bigint2048.mk true (repeat 0 18)) (Bigint2048.const (-3)) = true
      <-> Bigint2048.toBigInt (Bigint2048.mk true (repeat 0 18))
          = Bigint2048.toBigInt (Bigint2048.const (-3)))
  /\ (Bigint2048.isZero (Bigint2048.mk true (repeat 0 18)) = true
      <-> Bigint2048.toBigInt (Bigint2048.mk true (repeat 0 18)) = 0).
Proof.
  apply (cmp_equals_by_value (Bigint2048.mk true (repeat 0 18)) (Bigint2048.const (-3)));
    apply Limbs.wfb_wf; vm_compute; reflexivity.
Defined.

(** ** Addition *)

Module Add.
Import Bigint2048.

Lemma of_bool_range (c : bool) : 0 <= Field.of_bool c <= 1.
Proof. destruct c; simpl; lia. Qed.

Lemma add_chain_spec (a b : list Z) (cin : bool) :
  in_range a -> in_range b -> length a = length b ->
  forall l c, add_chain a b cin = (l, c) ->
  in_range l /\ length l = length a /\
  magnitude l + Field.of_bool c * MODULUS ^ Z.of_nat (length a)
  = magnitude a + magnitude b + Field.of_bool cin.
Proof.
  pose proof MODULUS_pos as HB. pose proof MODULUS_eq as EB. pose proof ORDER_pos as HO.
  revert b cin. induction a as [|x a IH]; intros [|y b] cin Ha Hb Hlen l c H;
    try discriminate.
  - simpl in H. injection H as <- <-. split; [constructor|]. split; [reflexivity|].
    rewrite !Limbs.magnitude_nil. change (Z.of_nat (length (@nil Z))) with 0.
    rewrite Z.pow_0_r. destruct cin; simpl; lia.
  - apply Limbs.in_range_cons in Ha. apply Limbs.in_range_cons in Hb.
    destruct Ha as [Hx Ha], Hb as [Hy Hb].
    cbn [add_chain] in H.
    pose proof (of_bool_range cin) as Hc.
    assert (Field.add (Field.add x y) (Field.of_bool cin) = x + y + Field.of_bool cin) as Es.
    { unfold Field.add. rewrite (Z.mod_small (x + y)) by lia. apply Z.mod_small. lia. }
    rewrite Es in H. unfold Field.greaterThan, select in H.
    destruct (add_chain a b (MASK <? x + y + Field.of_bool cin)) as [rest last] eqn:E.
    injection H as <- <-.
    specialize (IH b _ Ha Hb ltac:(simpl in Hlen; lia) _ _ E).
    destruct IH as (Hr & Hl & Hm).
    cbn [length]. rewrite Nat2Z.inj_succ, Z.pow_succ_r by lia.
    rewrite !Limbs.magnitude_cons. unfold MASK in *.
    destruct (Z.ltb_spec (MODULUS - 1) (x + y + Field.of_bool cin)) as [Hgt|Hle].
    + assert (Field.sub (x + y + Field.of_bool cin) MODULUS
              = x + y + Field.of_bool cin - MODULUS) as ->.
      { unfold Field.sub. apply Z.mod_small. lia. }
      cbn [Field.of_bool] in Hm.
      split; [apply Limbs.in_range_cons; split; [lia | exact Hr]|].
      split; [lia|]. nia.
    + cbn [Field.of_bool] in Hm.
      split; [apply Limbs.in_range_cons; split; [lia | exact Hr]|].
      split; [lia|]. nia.
Qed.

Lemma sub_chain_spec (a b : list Z) (cin : bool) :
  in_range a -> in_range b -> length a = length b ->
  forall l c, sub_chain a b cin = (l, c) ->
  in_range l /\ length l = length a /\
  magnitude l - Field.of_bool c * MODULUS ^ Z.of_nat (length a)
  = magnitude a - magnitude b - Field.of_bool cin.
Proof.
  pose proof MODULUS_pos as HB. pose proof MODULUS_eq as EB. pose proof ORDER_pos as HO.
  revert b cin. induction a as [|x a IH]; intros [|y b] cin Ha Hb Hlen l c H;
    try discriminate.
  - simpl in H. injection H as <- <-. split; [constructor|]. split; [reflexivity|].
    rewrite !Limbs.magnitude_nil. change (Z.of_nat (length (@nil Z))) with 0.
    rewrite Z.pow_0_r. destruct cin; simpl; lia.
  - apply Limbs.in_range_cons in Ha. apply Limbs.in_range_cons in Hb.
    destruct Ha as [Hx Ha], Hb as [Hy Hb].
    cbn [sub_chain] in H.
    pose proof (of_bool_range cin) as Hc.
    assert (Field.sub (Field.sub x y) (Field.of_bool cin)
            = (x - y - Field.of_bool cin) mod Field.ORDER) as Es.
    { unfold Field.sub. rewrite Zminus_mod_idemp_l. reflexivity. }
    rewrite Es in H. unfold Field.greaterThan, select in H.
    destruct (sub_chain a b (MASK <? (x - y - Field.of_bool cin) mod Field.ORDER))
      as [rest last] eqn:E.
    injection H as <- <-.
    specialize (IH b _ Ha Hb ltac:(simpl in Hlen; lia) _ _ E).
    destruct IH as (Hr & Hl & Hm).
    cbn [length]. rewrite Nat2Z.inj_succ, Z.pow_succ_r by lia.
    rewrite !Limbs.magnitude_cons. unfold MASK in *.
    destruct (Z.lt_ge_cases (x - y - Field.of_bool cin) 0) as [Hneg|Hpos].
    + assert ((x - y - Field.of_bool cin) mod Field.ORDER
              = x - y - Field.of_bool cin + Field.ORDER) as Em.
      { symmetry. apply Z.mod_unique with (q := -1); lia. }
      rewrite Em in *.
      destruct (Z.ltb_spec (MODULUS - 1) (x - y - Field.of_bool cin + Field.ORDER));
        [|lia].
      assert (Field.add (x - y - Field.of_bool cin + Field.ORDER) MODULUS
              = x - y - Field.of_bool cin + MODULUS) as ->.
      { unfold Field.add. symmetry. apply Z.mod_unique with (q := 1); lia. }
      cbn [Field.of_bool] in Hm.
      split; [apply Limbs.in_range_cons; split; [lia | exact Hr]|].
      split; [lia|]. nia.
    + rewrite (Z.mod_small (x - y - Field.of_bool cin)) in * by lia.
      destruct (Z.ltb_spec (MODULUS - 1) (x - y - Field.of_bool cin)); [lia|].
      cbn [Field.of_bool] in Hm.
      split; [apply Limbs.in_range_cons; split; [lia | exact Hr]|].
      split; [lia|]. nia.
Qed.

(** The last carry of the magnitude-sum loop tells whether the sum of the
    magnitudes fits [LIMB_NUM] limbs. *)
Lemma add_chain_carry (a b : t) :
  wf a -> wf b ->
  snd (add_chain (fields a) (fields b) false)
  = (MAX_value <? magnitude (fields a) + magnitude (fields b)).
Proof.
  intros [La Ra] [Lb Rb].
  destruct (add_chain (fields a) (fields b) false) as [l c] eqn:E.
  destruct (add_chain_spec _ _ _ Ra Rb ltac:(congruence) _ _ E) as (Hr & Hl & Hm).
  pose proof (Limbs.magnitude_bound _ Hr) as Bl. rewrite Hl, La in Bl.
  rewrite La in Hm. rewrite Limbs.MAX_value_eq. cbn [snd].
  destruct c; cbn [Field.of_bool] in Hm;
    destruct (Z.ltb_spec (MODULUS ^ Z.of_nat LIMB_NUM - 1)
                (magnitude (fields a) + magnitude (fields b))); auto; lia.
Qed.

(** The last borrow of the magnitude-difference loop is never set, since
    the loop subtracts the smaller magnitude from the bigger one. *)
Lemma sub_chain_carry (big small : t) :
  wf big -> wf small -> magnitude (fields small) <= magnitude (fields big) ->
  forall l c, sub_chain (fields big) (fields small) false = (l, c) ->
  c = false /\ in_range l /\ length l = LIMB_NUM /\
  magnitude l = magnitude (fields big) - magnitude (fields small).
Proof.
  intros [La Ra] [Lb Rb] Hle l c E.
  destruct (sub_chain_spec _ _ _ Ra Rb ltac:(congruence) _ _ E) as (Hr & Hl & Hm).
  pose proof (Limbs.magnitude_bound _ Hr) as Bl. rewrite Hl, La in Bl.
  pose proof (Limbs.magnitude_bound _ Rb) as Bb.
  rewrite La in Hm, Hl.
  destruct c; cbn [Field.of_bool] in Hm; [lia|].
  repeat split; auto. lia.
Qed.

Lemma wf_abs (a : t) : wf a -> wf (abs a).
Proof. intros H. exact H. Qed.

Lemma wf_neg (a : t) : wf a -> wf (neg a).
Proof. intros H. exact H. Qed.

Lemma toBigInt_abs (a : t) : wf a -> toBigInt (abs a) = Z.abs (toBigInt a).
Proof.
  intros [_ R]. pose proof (Limbs.magnitude_bound _ R).
  unfold toBigInt, abs. cbn [negative fields]. destruct (negative a); lia.
Qed.

Lemma toBigInt_neg (a : t) : toBigInt (neg a) = - toBigInt a.
Proof. unfold toBigInt, neg. cbn [negative fields]. destruct (negative a); simpl; lia. Qed.

Lemma magnitude_abs (a : t) : wf a -> magnitude (fields a) = Z.abs (toBigInt a).
Proof.
  intros [_ R]. pose proof (Limbs.magnitude_bound _ R).
  unfold toBigInt. destruct (negative a); lia.
Qed.

Lemma lessThan_spec (a b : t) :
  wf a -> wf b -> lessThan a b = Ok (toBigInt a <? toBigInt b).
Proof.
  intros Ha Hb. unfold lessThan. rewrite Compare.cmp_spec by assumption.
  cbn [bind]. f_equal. unfold Field.equals.
  destruct (Compare.Ordering_of_sign_cases (toBigInt a - toBigInt b))
    as [[H ->]|[[H ->]|[H ->]]];
    destruct (Z.ltb_spec (toBigInt a) (toBigInt b)); try lia; reflexivity.
Qed.

(** [add] returns the sum when the sum of the magnitudes fits [LIMB_NUM]
    limbs ... *)
Lemma add_Ok (a b : t) :
  wf a -> wf b ->
  Z.abs (toBigInt a) + Z.abs (toBigInt b) <= MAX_value ->
  exists s, add a b = Ok s /\ wf s /\ toBigInt s = toBigInt a + toBigInt b.
Proof.
  intros Ha Hb Hsum. unfold add.
  rewrite lessThan_spec by (apply wf_abs; assumption). cbn [bind].
  rewrite !toBigInt_abs by assumption.
  pose proof (add_chain_carry a b Ha Hb) as Hc.
  pose proof (magnitude_abs a Ha) as Ma. pose proof (magnitude_abs b Hb) as Mb.
  destruct (add_chain (fields a) (fields b) false) as [addFields c1] eqn:E1.
  cbn [snd] in Hc. rewrite Ma, Mb in Hc.
  destruct (Z.ltb_spec MAX_value (Z.abs (toBigInt a) + Z.abs (toBigInt b))) as [|_];
    [lia|]. subst c1. cbn [assertFalse bind].
  destruct Ha as [La Ra], Hb as [Lb Rb].
  destruct (add_chain_spec _ _ _ Ra Rb ltac:(congruence) _ _ E1) as (Hr1 & Hl1 & Hm1).
  cbn [Field.of_bool] in Hm1.
  set (thisSmall := Z.abs (toBigInt a) <? Z.abs (toBigInt b)).
  assert (exists big small,
             select thisSmall (b, a) (a, b) = (big, small) /\ wf big /\ wf small /\
             magnitude (fields small) <= magnitude (fields big) /\
             magnitude (fields big) - magnitude (fields small)
             = Z.abs (Z.abs (toBigInt a) - Z.abs (toBigInt b))) as (big & small & Es & Wb & Ws & Hle & Hd).
  { unfold thisSmall, select.
    destruct (Z.ltb_spec (Z.abs (toBigInt a)) (Z.abs (toBigInt b)));
      eexists _, _; (split; [reflexivity|]); repeat split; auto; lia. }
  rewrite Es.
  destruct (sub_chain (fields big) (fields small) false) as [subFields c2] eqn:E2.
  destruct (sub_chain_carry big small Wb Ws Hle _ _ E2) as (-> & Hr2 & Hl2 & Hm2).
  cbn [assertFalse bind]. eexists. split; [reflexivity|].
  unfold wf, toBigInt, select. cbn [negative fields].
  unfold toBigInt in *. rewrite La in Hl1.
  unfold thisSmall in *. clear thisSmall Es E1 E2.
  destruct (negative a), (negative b); cbn [Bool.eqb negb];
    (split; [split; assumption|]);
    try (destruct (Z.ltb_spec (Z.abs (- magnitude (fields a)))
                     (Z.abs (magnitude (fields b)))); cbn [Bool.eqb]);
    try (destruct (Z.ltb_spec (Z.abs (magnitude (fields a)))
                     (Z.abs (- magnitude (fields b)))); cbn [Bool.eqb]);
    lia.
Qed.

(** ... and fails its magnitude-sum assertion otherwise, whatever the signs. *)
Lemma add_Err (a b : t) :
  wf a -> wf b ->
  MAX_value < Z.abs (toBigInt a) + Z.abs (toBigInt b) ->
  add a b = Err AssertionFailed.
Proof.
  intros Ha Hb Hsum. unfold add.
  rewrite lessThan_spec by (apply wf_abs; assumption). cbn [bind].
  pose proof (add_chain_carry a b Ha Hb) as Hc.
  rewrite (magnitude_abs a Ha), (magnitude_abs b Hb) in Hc.
  destruct (add_chain (fields a) (fields b) false) as [addFields c1].
  cbn [snd] in Hc.
  destruct (Z.ltb_spec MAX_value (Z.abs (toBigInt a) + Z.abs (toBigInt b))); [|lia].
  subst c1. reflexivity.
Qed.

End Add.

(** ** Multiplication *)

Module Multiply.
Import Bigint2048.

(** *** Arrays updated in place *)

Lemma length_update (k : nat) (f : Z -> Z) (a : list Z) :
  length (update k f a) = length a.
Proof.
  revert k. induction a as [|x a IH]; intros [|k]; cbn [update length]; auto.
Qed.

Lemma magnitude_update (k : nat) (f : Z -> Z) (a : list Z) :
  (k < length a)%nat ->
  magnitude (update k f a)
  = magnitude a + (f (nth k a 0) - nth k a 0) * MODULUS ^ Z.of_nat k.
Proof.
  revert k. induction a as [|x a IH]; intros [|k] Hk; cbn [length] in Hk; try lia.
  - cbn [update nth]. rewrite !Limbs.magnitude_cons. simpl. lia.
  - cbn [update nth]. rewrite !Limbs.magnitude_cons, IH by lia.
    rewrite Nat2Z.inj_succ, Z.pow_succ_r by lia. lia.
Qed.

Lemma Forall_update (P Q : Z -> Prop) (k : nat) (f : Z -> Z) (a : list Z) :
  (forall v, P v -> Q v) -> (forall v, P v -> Q (f v)) ->
  Forall P a -> Forall Q (update k f a).
Proof.
  intros HPQ Hf H. revert k.
  induction H as [|x a Hx Ha IH]; intros [|k]; cbn [update]; constructor; auto.
  eapply Forall_impl; eauto.
Qed.

Lemma Forall2_update (R : Z -> Z -> Prop) (k : nat) (f g : Z -> Z) (a b : list Z) :
  (forall v w, R v w -> R (f v) (g w)) ->
  Forall2 R a b -> Forall2 R (update k f a) (update k g b).
Proof.
  intros Hf H. revert k.
  induction H as [|x y a b Hxy Hab IH]; intros [|k]; cbn [update]; constructor; auto.
Qed.

Lemma magnitude_firstn_S (j : nat) (l : list Z) :
  magnitude (firstn (S j) l)
  = magnitude (firstn j l) + nth j l 0 * MODULUS ^ Z.of_nat j.
Proof.
  revert j. induction l as [|x l IH]; intros j.
  - destruct j; simpl; rewrite ?Limbs.magnitude_nil; lia.
  - destruct j as [|j].
    + cbn [firstn nth]. rewrite Limbs.magnitude_cons, !Limbs.magnitude_nil. simpl. lia.
    + change (firstn (S (S j)) (x :: l)) with (x :: firstn (S j) l).
      change (firstn (S j) (x :: l)) with (x :: firstn j l).
      cbn [nth]. rewrite !Limbs.magnitude_cons, IH.
      rewrite Nat2Z.inj_succ, Z.pow_succ_r by lia. lia.
Qed.

Lemma nth_in_range (j : nat) (l : list Z) :
  in_range l -> 0 <= nth j l 0 < MODULUS.
Proof.
  pose proof MODULUS_pos as HB. intros H. revert j.
  induction H as [|x l Hx _ IH]; intros [|j]; cbn [nth]; auto; lia.
Qed.

(** *** The loops of [delta] on integers *)

(** An inner loop adds [s * c * B] at limb [i], for the sign [s] of its
    operation, and moves no entry by more than [MODULUS^2] a turn. *)
Lemma delta_row_Z (op : Z -> Z -> Z) (s : Z) (n : nat) (c : Z) (B : list Z)
    (i : nat) (delta : list Z) (K : Z) :
  (forall v w, op v w = v + s * w) -> Z.abs s = 1 ->
  (i + n <= length delta)%nat ->
  0 <= c < MODULUS -> in_range B ->
  Forall (fun v => Z.abs v <= K) delta ->
  let d := delta_row Z.mul op n c B i delta in
  length d = length delta /\
  magnitude d = magnitude delta
                + s * (c * magnitude (firstn n B)) * MODULUS ^ Z.of_nat i /\
  Forall (fun v => Z.abs v <= K + Z.of_nat n * (MODULUS * MODULUS)) d.
Proof.
  pose proof MODULUS_pos as HB.
  intros Hop Hs Hlen Hc HB' HK. unfold delta_row.
  apply (for_loop_inv
           (fun j d =>
              (j <= n)%nat ->
              length d = length delta /\
              magnitude d = magnitude delta
                            + s * (c * magnitude (firstn j B)) * MODULUS ^ Z.of_nat i /\
              Forall (fun v => Z.abs v <= K + Z.of_nat j * (MODULUS * MODULUS)) d));
    [| |lia].
  - intros _. cbn [firstn]. rewrite Limbs.magnitude_nil.
    repeat split; [lia|]. eapply Forall_impl; [|exact HK]. simpl. intros; lia.
  - intros j d Hj IH _. destruct (IH ltac:(lia)) as (Hl & Hm & Hb).
    pose proof (nth_in_range j B HB') as Hn.
    split; [rewrite length_update; exact Hl|]. split.
    + rewrite magnitude_update by lia. rewrite Hop, Hm, magnitude_firstn_S.
      rewrite Nat2Z.inj_add, Z.pow_add_r by lia. ring.
    + eapply Forall_update; [| |exact Hb]; cbv beta; intros v Hv.
      * rewrite Nat2Z.inj_succ. nia.
      * rewrite Hop, Nat2Z.inj_succ.
        assert (0 <= c * nth j B 0 <= MODULUS * MODULUS) by nia. nia.
Qed.

Lemma compute_delta_Z (X Y Q R P : list Z) :
  length X = LIMB_NUM -> length Y = LIMB_NUM -> length Q = LIMB_NUM ->
  length R = LIMB_NUM -> length P = LIMB_NUM ->
  in_range X -> in_range Y -> in_range Q -> in_range R -> in_range P ->
  let d := compute_delta Z.add Z.sub Z.mul false X Y Q R P in
  length d = (2 * LIMB_NUM - 1)%nat /\
  magnitude d = magnitude X * magnitude Y - magnitude Q * magnitude P - magnitude R /\
  Forall (fun v => Z.abs v <= delta_bound) d.
Proof.
  pose proof MODULUS_pos as HB.
  intros LX LY LQ LR LP RX RY RQ RR RP d.
  set (step := 37 * (MODULUS * MODULUS)).
  assert (length d = (2 * LIMB_NUM - 1)%nat /\
          magnitude d = magnitude (firstn LIMB_NUM X) * magnitude Y
                        - magnitude (firstn LIMB_NUM Q) * magnitude P
                        - magnitude (firstn LIMB_NUM R) /\
          Forall (fun v => Z.abs v <= Z.of_nat LIMB_NUM * step) d) as (Hl & Hm & Hb).
  { subst d. unfold compute_delta.
    apply (for_loop_inv
             (fun i d =>
                (i <= LIMB_NUM)%nat ->
                length d = (2 * LIMB_NUM - 1)%nat /\
                magnitude d = magnitude (firstn i X) * magnitude Y
                              - magnitude (firstn i Q) * magnitude P
                              - magnitude (firstn i R) /\
                Forall (fun v => Z.abs v <= Z.of_nat i * step) d)); [| |lia].
    - intros _. split; [apply repeat_length|]. split.
      + cbn [firstn]. rewrite Limbs.magnitude_nil.
        assert (forall n, magnitude (repeat 0 n) = 0) as E.
        { induction n as [|n IHn]; cbn [repeat];
            rewrite ?Limbs.magnitude_cons, ?IHn; [reflexivity | lia]. }
        rewrite E. lia.
      + apply Forall_forall. intros v Hv. apply repeat_spec in Hv. subst v. simpl. lia.
    - intros i d0 Hi IH _. destruct (IH ltac:(lia)) as (Hl & Hm & Hb).
      unfold delta_step.
      pose proof (nth_in_range i X RX) as HXi.
      pose proof (nth_in_range i Q RQ) as HQi.
      pose proof (nth_in_range i R RR) as HRi.
      pose proof (delta_row_Z Z.add 1 LIMB_NUM (nth i X 0) Y i d0 (Z.of_nat i * step)
                    ltac:(intros; lia) eq_refl
                    ltac:(rewrite Hl; unfold LIMB_NUM in *; lia) HXi RY Hb) as H1.
      cbv zeta in H1. destruct H1 as (Hl1 & Hm1 & Hb1).
      set (d1 := delta_row Z.mul Z.add LIMB_NUM (nth i X 0) Y i d0) in *.
      pose proof (delta_row_Z Z.sub (-1) LIMB_NUM (nth i Q 0) P i d1
                    (Z.of_nat i * step + Z.of_nat LIMB_NUM * (MODULUS * MODULUS))
                    ltac:(intros; lia) eq_refl
                    ltac:(rewrite Hl1, Hl; unfold LIMB_NUM in *; lia) HQi RP Hb1) as H2.
      cbv zeta in H2. destruct H2 as (Hl2 & Hm2 & Hb2).
      set (d2 := delta_row Z.mul Z.sub LIMB_NUM (nth i Q 0) P i d1) in *.
      split; [rewrite length_update; congruence|]. split.
      + rewrite magnitude_update by (rewrite Hl2, Hl1, Hl; unfold LIMB_NUM in *; lia).
        rewrite Hm2, Hm1, Hm, !magnitude_firstn_S.
        rewrite <- LY at 1. rewrite <- LP at 1. rewrite !firstn_all. ring.
      + eapply Forall_update; [| |exact Hb2]; cbv beta; intros v Hv;
          rewrite Nat2Z.inj_succ; unfold step, LIMB_NUM in *; nia. }
  rewrite <- LX in Hm at 1. rewrite <- LQ in Hm at 1. rewrite <- LR in Hm at 1.
  rewrite !firstn_all in Hm.
  split; [exact Hl|]. split; [exact Hm|].
  eapply Forall_impl; [|exact Hb]. cbv beta. intros v Hv.
  unfold delta_bound, step in *. rewrite MODULUS_eq in Hv. unfold LIMB_NUM in Hv. lia.
Qed.

(** *** The loops of [delta] on field elements *)

Lemma for_loop_rel {S T : Type} (R : S -> T -> Prop) (n : nat)
    (body : nat -> S -> S) (body' : nat -> T -> T) (s : S) (s' : T) :
  R s s' -> (forall i a b, R a b -> R (body i a) (body' i b)) ->
  R (for_loop n body s) (for_loop n body' s').
Proof.
  intros H0 Hstep. induction n as [|n IH]; [exact H0|].
  rewrite !for_loop_S. apply Hstep. exact IH.
Qed.

Lemma compute_delta_rel (isSquare : bool) (X Y Q R P : list Z) :
  Forall2 stands_for
    (compute_delta Field.add Field.sub Field.mul isSquare X Y Q R P)
    (compute_delta Z.add Z.sub Z.mul isSquare X Y Q R P).
Proof.
  assert (forall v w a b, stands_for v w ->
            stands_for (Field.add v (Field.mul a b)) (w + a * b)) as Hadd.
  { unfold stands_for, Field.add, Field.mul. intros v w a b ->.
    rewrite <- Zplus_mod. reflexivity. }
  assert (forall v w a b, stands_for v w ->
            stands_for (Field.sub v (Field.mul a b)) (w - a * b)) as Hsub.
  { unfold stands_for, Field.sub, Field.mul. intros v w a b ->.
    rewrite <- Zminus_mod. reflexivity. }
  assert (forall op op' n c B i d d',
             (forall v w a b, stands_for v w ->
                stands_for (op v (Field.mul a b)) (op' w (a * b))) ->
             Forall2 stands_for d d' ->
             Forall2 stands_for (delta_row Field.mul op n c B i d)
               (delta_row Z.mul op' n c B i d')) as Hrow.
  { intros op op' n c B i d d' Hop Hd. unfold delta_row.
    apply for_loop_rel; [exact Hd|]. intros j a b Hab.
    apply Forall2_update; [|exact Hab]. intros v w Hvw. apply Hop. exact Hvw. }
  unfold compute_delta. apply for_loop_rel.
  - generalize (2 * LIMB_NUM - 1)%nat. induction n as [|n IH]; cbn [repeat];
      constructor; auto. reflexivity.
  - intros i a b Hab. unfold delta_step.
    apply Forall2_update.
    { intros v w Hvw. unfold stands_for, Field.sub in *. subst v.
      rewrite Zminus_mod_idemp_l. reflexivity. }
    apply Hrow; [exact Hsub|].
    destruct isSquare.
    + apply Forall2_update.
      { intros v w Hvw. apply Hadd. exact Hvw. }
      apply for_loop_rel; [exact Hab|]. intros j a' b' Hab'.
      apply Forall2_update; [|exact Hab']. intros v w Hvw.
      unfold stands_for, Field.add, Field.mul in *. subst v.
      rewrite Zmult_mod_idemp_l, <- Zplus_mod. reflexivity.
    + apply Hrow; [exact Hadd | exact Hab].
Qed.

Lemma stands_for_nth (i : nat) (d d' : list Z) :
  Forall2 stands_for d d' -> stands_for (nth i d 0) (nth i d' 0).
Proof.
  intros H. revert i. induction H as [|x y d d' Hxy _ IH]; intros [|i]; cbn [nth];
    auto; reflexivity.
Qed.

(** *** The carry loop *)

Lemma of_Z_MODULUS : Field.of_Z (Z.shiftl 1 LIMB_BITS) = MODULUS.
Proof. reflexivity. Qed.

Lemma inv_MODULUS : (MODULUS * Field.inv MODULUS) mod Field.ORDER = 1.
Proof. vm_compute. reflexivity. Qed.

Lemma rangeCheck128Signed_Ok (c : Z) :
  - 2 ^ 127 <= c < 2 ^ 127 -> rangeCheck128Signed (c mod Field.ORDER) = Ok tt.
Proof.
  intros Hc. pose proof ORDER_pos as HO. unfold rangeCheck128Signed.
  assert (Field.add (c mod Field.ORDER) (Z.shiftl 1 127) = c + 2 ^ 127) as ->.
  { unfold Field.add. rewrite Zplus_mod_idemp_l. change (Z.shiftl 1 127) with (2 ^ 127).
    apply Z.mod_small. lia. }
  set (x := c + 2 ^ 127). assert (0 <= x < 2 ^ 128) as Hx by (unfold x; lia).
  clearbody x. clear c Hc.
  change (Z.shiftl 1 64 - 1) with (Z.ones 64). change (Z.shiftl 1 64) with (2 ^ 64).
  rewrite Z.land_ones, Z.shiftr_div_pow2 by lia.
  pose proof (Z.mod_pos_bound x (2 ^ 64) eq_refl) as Hm.
  assert (0 <= x / 2 ^ 64 < 2 ^ 64) as Hq.
  { split; [apply Z.div_pos; lia | apply Z.div_lt_upper_bound; lia]. }
  rewrite !of_Z_small by lia.
  rewrite !RangeCheck.rangeCheck64_small by lia. cbn [bind].
  apply RangeCheck.field_assertEquals_Ok. unfold Field.add, Field.mul.
  rewrite (Z.mod_small (x / 2 ^ 64 * 2 ^ 64)) by lia.
  rewrite Z.mod_small by lia.
  pose proof (Z.div_mod x (2 ^ 64)). lia.
Qed.

(** A turn of the carry loop succeeds when the limb plus the carry is a
    multiple of [MODULUS] over the integers, and yields the quotient. *)
Lemma carry_step_spec (d c c' : Z) :
  d + c = MODULUS * c' -> - 2 ^ 127 <= c' < 2 ^ 127 ->
  carry_step (d mod Field.ORDER) (c mod Field.ORDER) = Ok (c' mod Field.ORDER).
Proof.
  intros Hd Hc. unfold carry_step. rewrite of_Z_MODULUS.
  assert (Field.add (d mod Field.ORDER) (c mod Field.ORDER)
          = (MODULUS * c') mod Field.ORDER) as ->.
  { unfold Field.add. rewrite <- Zplus_mod, Hd. reflexivity. }
  assert (Field.div ((MODULUS * c') mod Field.ORDER) MODULUS = c' mod Field.ORDER) as ->.
  { unfold Field.div, Field.mul. rewrite Zmult_mod_idemp_l.
    replace (MODULUS * c' * Field.inv MODULUS) with (c' * (MODULUS * Field.inv MODULUS))
      by ring.
    rewrite <- Zmult_mod_idemp_r, inv_MODULUS, Z.mul_1_r. reflexivity. }
  rewrite rangeCheck128Signed_Ok by exact Hc. cbn [bind].
  assert (Field.assertEquals ((MODULUS * c') mod Field.ORDER)
            (Field.mul (c' mod Field.ORDER) MODULUS) = Ok tt) as ->.
  { apply RangeCheck.field_assertEquals_Ok. unfold Field.mul.
    rewrite Zmult_mod_idemp_l. f_equal. ring. }
  reflexivity.
Qed.

Lemma skipn_nth_cons (i : nat) (l : list Z) :
  (i < length l)%nat -> skipn i l = nth i l 0 :: skipn (S i) l.
Proof.
  revert i. induction l as [|x l IH]; intros [|i] Hi; cbn [length] in Hi; try lia.
  - reflexivity.
  - cbn [nth]. change (skipn (S i) (x :: l)) with (skipn i l).
    rewrite IH by lia. reflexivity.
Qed.

Lemma Forall_nth_default (P : Z -> Prop) (i : nat) (l : list Z) :
  P 0 -> Forall P l -> P (nth i l 0).
Proof.
  intros H0 H. revert i. induction H as [|x l Hx _ IH]; intros [|i]; cbn [nth]; auto.
Qed.

(** The carry loop succeeds on a [delta] that stands for an integer limb
    polynomial of value zero. *)
Lemma carry_loop_Ok (deltaF deltaZ : list Z) (n : nat) :
  Forall2 stands_for deltaF deltaZ ->
  magnitude deltaZ = 0 ->
  Forall (fun v => Z.abs v <= delta_bound) deltaZ ->
  (n <= length deltaZ)%nat ->
  exists c,
    for_loopM n (fun i carry => carry_step (nth i deltaF 0) carry) 0
    = Ok (c mod Field.ORDER)
    /\ - 2 ^ 127 <= c < 2 ^ 127
    /\ c + magnitude (skipn n deltaZ) = 0.
Proof.
  intros Hrel Hzero Hb. induction n as [|n IH]; intros Hn.
  - exists 0. split; [reflexivity|]. cbn [skipn]. lia.
  - destruct (IH ltac:(lia)) as (c & E & Hc & Hm).
    rewrite for_loopM_S, E. cbn [bind].
    rewrite (skipn_nth_cons n deltaZ) in Hm by lia.
    rewrite Limbs.magnitude_cons in Hm.
    pose proof (stands_for_nth n _ _ Hrel) as Hnth. unfold stands_for in Hnth.
    assert (Z.abs (nth n deltaZ 0) <= delta_bound) as Hd.
    { apply (Forall_nth_default (fun v => Z.abs v <= delta_bound)); [|exact Hb].
      unfold delta_bound. simpl. lia. }
    exists (- magnitude (skipn (S n) deltaZ)).
    assert (- 2 ^ 127 <= - magnitude (skipn (S n) deltaZ) < 2 ^ 127) as Hc'.
    { unfold delta_bound in Hd. rewrite MODULUS_eq in Hm. lia. }
    split; [|split; [exact Hc' | lia]].
    rewrite Hnth. apply carry_step_spec; [lia | exact Hc'].
Qed.

(** The constraints of [multiply] accept every quotient and remainder that
    satisfy the identity on the magnitudes. *)
Lemma multiply_constraints_Ok (x y p q r : t) :
  wf x -> wf y -> wf p -> wf q -> wf r ->
  magnitude (fields x) * magnitude (fields y)
  = magnitude (fields q) * magnitude (fields p) + magnitude (fields r) ->
  multiply_constraints false x y p q r = Ok tt.
Proof.
  intros [Lx Rx] [Ly Ry] [Lp Rp] [Lq Rq] [Lr Rr] Hid.
  unfold multiply_constraints.
  pose proof (compute_delta_rel false (fields x) (fields y) (fields q) (fields r)
                (fields p)) as Hrel.
  pose proof (compute_delta_Z (fields x) (fields y) (fields q) (fields r) (fields p)
                Lx Ly Lq Lr Lp Rx Ry Rq Rr Rp) as HZ.
  cbv zeta in HZ. destruct HZ as (Hl & Hm & Hb).
  set (deltaF := compute_delta Field.add Field.sub Field.mul false _ _ _ _ _) in *.
  set (deltaZ := compute_delta Z.add Z.sub Z.mul false _ _ _ _ _) in *.
  assert (magnitude deltaZ = 0) as Hzero by lia.
  destruct (carry_loop_Ok deltaF deltaZ (2 * LIMB_NUM - 2) Hrel Hzero Hb
              ltac:(rewrite Hl; unfold LIMB_NUM; lia)) as (c & E & Hc & Hs).
  rewrite E. cbn [bind].
  rewrite (skipn_nth_cons (2 * LIMB_NUM - 2) deltaZ) in Hs
    by (rewrite Hl; unfold LIMB_NUM; lia).
  rewrite Limbs.magnitude_cons in Hs.
  assert (skipn (S (2 * LIMB_NUM - 2)) deltaZ = []) as Enil.
  { apply skipn_all2. rewrite Hl. unfold LIMB_NUM. lia. }
  rewrite Enil, Limbs.magnitude_nil in Hs.
  apply RangeCheck.field_assertEquals_Ok.
  pose proof (stands_for_nth (2 * LIMB_NUM - 2) _ _ Hrel) as Hnth.
  unfold stands_for in Hnth. rewrite Hnth. unfold Field.add.
  rewrite <- Zplus_mod.
  replace (nth (2 * LIMB_NUM - 2) deltaZ 0 + c) with 0 by lia. reflexivity.
Qed.

(** *** What the carry loop proves *)

Lemma mod_eq_small (x y : Z) :
  x mod Field.ORDER = y mod Field.ORDER -> Z.abs (x - y) < Field.ORDER -> x = y.
Proof.
  intros E Hb. pose proof ORDER_pos as HO.
  assert ((x - y) mod Field.ORDER = 0) as Hz.
  { rewrite Zminus_mod, E, Z.sub_diag. apply Z.mod_0_l. lia. }
  apply Z.mod_divide in Hz; [|lia]. destruct Hz as [k Hk].
  assert (k = 0) by nia. lia.
Qed.

Lemma rangeCheck128Signed_inv (c : Z) :
  0 <= c < Field.ORDER -> rangeCheck128Signed c = Ok tt ->
  exists s, - 2 ^ 127 <= s < 2 ^ 127 /\ c = s mod Field.ORDER.
Proof.
  intros Hc H. pose proof ORDER_pos as HO. unfold rangeCheck128Signed in H.
  set (x := Field.add c (Z.shiftl 1 127)) in *.
  assert (0 <= x < Field.ORDER) as Hx by (apply Z.mod_pos_bound; lia).
  apply bind_Ok_inv in H. destruct H as (v0 & _ & H).
  apply bind_Ok_inv in H. destruct H as (v1 & E1 & _).
  rewrite Z.shiftr_div_pow2 in E1 by lia.
  assert (0 <= x / 2 ^ 64 < Field.ORDER) as Hq.
  { split; [apply Z.div_pos; lia|]. apply Z.div_lt_upper_bound; lia. }
  rewrite of_Z_small in E1 by exact Hq.
  apply RangeCheck.rangeCheck64_Ok in E1; [|lia]. destruct E1 as [E1 _].
  pose proof (Z.div_mod x (2 ^ 64) ltac:(lia)) as Hdm.
  pose proof (Z.mod_pos_bound x (2 ^ 64) eq_refl) as Hm.
  exists (x - 2 ^ 127). split; [lia|].
  unfold x, Field.add. change (Z.shiftl 1 127) with (2 ^ 127).
  rewrite Zminus_mod_idemp_l.
  replace (c + 2 ^ 127 - 2 ^ 127) with c by ring.
  symmetry. apply Z.mod_small. exact Hc.
Qed.

(** A turn of the carry loop that succeeds has divided the limb plus the
    carry by [MODULUS] exactly, over the integers. *)
Lemma carry_step_inv (d s c' : Z) :
  Z.abs d <= delta_bound -> - 2 ^ 127 <= s < 2 ^ 127 ->
  carry_step (d mod Field.ORDER) (s mod Field.ORDER) = Ok c' ->
  exists s', - 2 ^ 127 <= s' < 2 ^ 127 /\ c' = s' mod Field.ORDER /\
             d + s = MODULUS * s'.
Proof.
  intros Hd Hs H. pose proof ORDER_pos as HO. unfold carry_step in H.
  rewrite of_Z_MODULUS in H.
  set (carry := Field.div _ MODULUS) in *.
  assert (0 <= carry < Field.ORDER) as Hc by (apply Z.mod_pos_bound; lia).
  apply bind_Ok_inv in H. destruct H as ([] & Hr & H).
  apply bind_Ok_inv in H. destruct H as ([] & Ha & H).
  assert (c' = carry) as -> by congruence.
  destruct (rangeCheck128Signed_inv carry Hc Hr) as (s' & Hs' & Es').
  exists s'. split; [exact Hs'|]. split; [exact Es'|].
  apply RangeCheck.field_assertEquals_Ok in Ha.
  unfold Field.add, Field.mul in Ha. rewrite <- Zplus_mod in Ha.
  rewrite Es', Zmult_mod_idemp_l in Ha.
  rewrite (Z.mul_comm MODULUS). apply mod_eq_small; [exact Ha|].
  unfold delta_bound in Hd. rewrite MODULUS_eq. lia.
Qed.

Lemma carry_loop_inv (deltaF deltaZ : list Z) (n : nat) (cF : Z) :
  Forall2 stands_for deltaF deltaZ ->
  Forall (fun v => Z.abs v <= delta_bound) deltaZ ->
  for_loopM n (fun i carry => carry_step (nth i deltaF 0) carry) 0 = Ok cF ->
  exists s, - 2 ^ 127 <= s < 2 ^ 127 /\ cF = s mod Field.ORDER /\
            magnitude (firstn n deltaZ) = s * MODULUS ^ Z.of_nat n.
Proof.
  intros Hrel Hb. revert cF. induction n as [|n IH]; intros cF H.
  - exists 0. injection H as <-. split; [lia|]. split; reflexivity.
  - rewrite for_loopM_S in H. apply bind_Ok_inv in H. destruct H as (c & Hc & H).
    destruct (IH c Hc) as (s & Hs & Es & Hm).
    pose proof (stands_for_nth n _ _ Hrel) as Hnth. unfold stands_for in Hnth.
    rewrite Hnth, Es in H.
    assert (Z.abs (nth n deltaZ 0) <= delta_bound) as Hd.
    { apply (Forall_nth_default (fun v => Z.abs v <= delta_bound)); [|exact Hb].
      unfold delta_bound. simpl. lia. }
    destruct (carry_step_inv _ _ _ Hd Hs H) as (s' & Hs' & Es' & Hds).
    exists s'. split; [exact Hs'|]. split; [exact Es'|].
    rewrite magnitude_firstn_S, Hm, Nat2Z.inj_succ, Z.pow_succ_r by lia.
    replace (s * MODULUS ^ Z.of_nat n + nth n deltaZ 0 * MODULUS ^ Z.of_nat n)
      with ((nth n deltaZ 0 + s) * MODULUS ^ Z.of_nat n) by ring.
    rewrite Hds. ring.
Qed.

(** The carry loop and the last assertion succeed only on a [delta] that
    stands for an integer limb polynomial of value zero. *)
Lemma carry_chain_inv (deltaF deltaZ : list Z) (n : nat) :
  Forall2 stands_for deltaF deltaZ ->
  Forall (fun v => Z.abs v <= delta_bound) deltaZ ->
  length deltaZ = S n ->
  (carry <- for_loopM n (fun i carry => carry_step (nth i deltaF 0) carry) 0;;
   Field.assertEquals (Field.add (nth n deltaF 0) carry) 0) = Ok tt ->
  magnitude deltaZ = 0.
Proof.
  intros Hrel Hb Hl H. pose proof ORDER_pos as HO.
  apply bind_Ok_inv in H. destruct H as (cF & Hloop & Hlast).
  destruct (carry_loop_inv deltaF deltaZ _ cF Hrel Hb Hloop) as (s & Hs & Es & Hsum).
  apply RangeCheck.field_assertEquals_Ok in Hlast.
  pose proof (stands_for_nth n _ _ Hrel) as Hnth.
  unfold stands_for in Hnth. rewrite Hnth, Es in Hlast.
  unfold Field.add in Hlast. rewrite <- Zplus_mod in Hlast.
  assert (Z.abs (nth n deltaZ 0) <= delta_bound) as Hd.
  { apply (Forall_nth_default (fun v => Z.abs v <= delta_bound)); [|exact Hb].
    unfold delta_bound. simpl. lia. }
  assert (nth n deltaZ 0 + s = 0) as Hzero.
  { apply mod_eq_small; [rewrite Hlast; symmetry; apply Z.mod_0_l; lia|].
    unfold delta_bound in Hd. lia. }
  rewrite <- (firstn_all deltaZ), Hl, magnitude_firstn_S, Hsum.
  replace (s * MODULUS ^ Z.of_nat n + nth n deltaZ 0 * MODULUS ^ Z.of_nat n)
    with ((nth n deltaZ 0 + s) * MODULUS ^ Z.of_nat n) by ring.
  rewrite Hzero. apply Z.mul_0_l.
Qed.

(** The constraints of [multiply] hold only for a quotient and a remainder
    that satisfy the identity on the magnitudes. *)
Lemma multiply_constraints_inv (x y p q r : t) :
  wf x -> wf y -> wf p -> wf q -> wf r ->
  multiply_constraints false x y p q r = Ok tt ->
  magnitude (fields x) * magnitude (fields y)
  = magnitude (fields q) * magnitude (fields p) + magnitude (fields r).
Proof.
  intros [Lx Rx] [Ly Ry] [Lp Rp] [Lq Rq] [Lr Rr].
  unfold multiply_constraints. cbv zeta. intros H.
  pose proof (compute_delta_rel false (fields x) (fields y) (fields q) (fields r)
                (fields p)) as Hrel.
  pose proof (compute_delta_Z (fields x) (fields y) (fields q) (fields r) (fields p)
                Lx Ly Lq Lr Lp Rx Ry Rq Rr Rp) as HZ.
  cbv zeta in HZ. destruct HZ as (Hl & Hm & Hb).
  pose proof (carry_chain_inv _ _ (2 * LIMB_NUM - 2) Hrel Hb Hl H) as Hz.
  rewrite Hz in Hm. lia.
Qed.

(** *** [multiply], [modMul] and [mul] *)

Lemma quot_rem_abs (a b : Z) :
  b <> 0 ->
  Z.abs a = Z.abs (Z.quot a b) * Z.abs b + Z.abs (a - Z.quot a b * b)
  /\ Z.abs (Z.quot a b) = Z.abs a / Z.abs b
  /\ Z.abs (a - Z.quot a b * b) = Z.abs a mod Z.abs b.
Proof.
  intros Hb.
  assert (a - Z.quot a b * b = Z.rem a b) as -> by (pose proof (Z.quot_rem' a b); lia).
  rewrite <- Z.quot_abs, <- Z.rem_abs by exact Hb.
  rewrite Z.quot_div_nonneg, Z.rem_mod_nonneg by lia.
  pose proof (Z.div_mod (Z.abs a) (Z.abs b) ltac:(lia)). repeat split; lia.
Qed.

Lemma multiply_Ok (x y p : t) :
  wf x -> wf y -> wf p -> toBigInt p <> 0 ->
  Z.abs (toBigInt x) * Z.abs (toBigInt y) / Z.abs (toBigInt p) <= MAX_value ->
  exists r, multiply x y p false = Ok r /\ wf r /\
            negative r = (toBigInt x * toBigInt y
                          - Z.quot (toBigInt x * toBigInt y) (toBigInt p) * toBigInt p <? 0) /\
            magnitude (fields r)
            = (Z.abs (toBigInt x) * Z.abs (toBigInt y)) mod Z.abs (toBigInt p).
Proof.
  intros Hx Hy Hp Hp0 Hq. unfold multiply, multiply_witness.
  destruct (Z.eqb_spec (toBigInt p) 0) as [|_]; [contradiction|].
  destruct (quot_rem_abs (toBigInt x * toBigInt y) (toBigInt p) Hp0) as (Hid & Eq & Er).
  rewrite Z.abs_mul in Hid, Eq, Er.
  set (q := Z.quot (toBigInt x * toBigInt y) (toBigInt p)) in *.
  set (r := toBigInt x * toBigInt y - q * toBigInt p) in *.
  pose proof (Limbs.toBigInt_bound p Hp) as Bp.
  pose proof (Z.mod_pos_bound (Z.abs (toBigInt x) * Z.abs (toBigInt y))
                (Z.abs (toBigInt p)) ltac:(lia)) as Bm.
  destruct (Limbs.from_Ok q ltac:(lia)) as (vq & Eq' & Wq & _ & _ & Mq).
  destruct (Limbs.from_Ok r ltac:(lia)) as (vr & Er' & Wr & _ & Nr & Mr).
  rewrite Eq', Er'. cbn [bind].
  rewrite (RangeCheck.check_Ok vq Wq), (RangeCheck.check_Ok vr Wr). cbn [bind].
  rewrite multiply_constraints_Ok; auto.
  - cbn [bind]. exists vr. repeat split; auto; try apply Wr. congruence.
  - rewrite (Add.magnitude_abs x Hx), (Add.magnitude_abs y Hy), (Add.magnitude_abs p Hp).
    rewrite Mq, Mr. exact Hid.
Qed.

Lemma multiply_Err (x y p : t) :
  wf x -> wf y -> wf p -> toBigInt p <> 0 ->
  MAX_value < Z.abs (toBigInt x) * Z.abs (toBigInt y) / Z.abs (toBigInt p) ->
  exists left, multiply x y p false = Err (Leftover left).
Proof.
  intros Hx Hy Hp Hp0 Hq. unfold multiply, multiply_witness.
  destruct (Z.eqb_spec (toBigInt p) 0) as [|_]; [contradiction|].
  destruct (quot_rem_abs (toBigInt x * toBigInt y) (toBigInt p) Hp0) as (_ & Eq & _).
  rewrite Z.abs_mul in Eq.
  rewrite Limbs.from_Err by lia. cbn [bind]. eauto.
Qed.

Lemma wf_MAX : wf MAX.
Proof. apply Limbs.wfb_wf. vm_compute. reflexivity. Qed.

Lemma wf_ZERO : wf ZERO.
Proof. apply Limbs.wfb_wf. vm_compute. reflexivity. Qed.

Lemma wf_ONE : wf ONE.
Proof. apply Limbs.wfb_wf. vm_compute. reflexivity. Qed.

Lemma toBigInt_MAX : toBigInt MAX = MAX_value.
Proof. vm_compute. reflexivity. Qed.

Lemma toBigInt_ZERO : toBigInt ZERO = 0.
Proof. reflexivity. Qed.

Lemma toBigInt_ONE : toBigInt ONE = 1.
Proof. vm_compute. reflexivity. Qed.

Lemma MAX_value_pos : 0 < MAX_value.
Proof. reflexivity. Qed.

(** The sign and the limbs of a value give its integer value. *)
Lemma toBigInt_sign (v : t) :
  toBigInt v = (if negative v then -1 else 1) * magnitude (fields v).
Proof. unfold toBigInt. destruct (negative v); lia. Qed.

Lemma mul_spec (a b : t) :
  wf a -> wf b ->
  exists r, mul a b = Ok r /\ wf r /\
            negative r = xorb (negative a) (negative b) /\
            magnitude (fields r)
            = (Z.abs (toBigInt a) * Z.abs (toBigInt b)) mod MAX_value.
Proof.
  intros Ha Hb. unfold mul, modMul.
  pose proof MAX_value_pos as HM.
  pose proof (Limbs.toBigInt_bound a Ha) as Ba.
  pose proof (Limbs.toBigInt_bound b Hb) as Bb.
  destruct (multiply_Ok (abs a) (abs b) MAX (Add.wf_abs a Ha) (Add.wf_abs b Hb) wf_MAX)
    as (r & E & Wr & _ & Mr).
  - rewrite toBigInt_MAX. lia.
  - rewrite !Add.toBigInt_abs, toBigInt_MAX, !Z.abs_idemp by assumption.
    rewrite (Z.abs_eq MAX_value) by lia.
    apply Z.div_le_upper_bound; [lia|].
    apply Z.mul_le_mono_nonneg; lia.
  - rewrite E. cbn [bind]. eexists. split; [reflexivity|].
    split; [exact Wr|]. cbn [negative fields]. split.
    + destruct (negative a), (negative b); reflexivity.
    + rewrite Mr. rewrite !Add.toBigInt_abs, toBigInt_MAX, !Z.abs_idemp by assumption.
      rewrite (Z.abs_eq MAX_value) by lia. reflexivity.
Qed.

(** [mul] is the product as long as the product of the magnitudes stays
    below [MAX]. *)
Lemma mul_exact (a b : t) :
  wf a -> wf b -> Z.abs (toBigInt a * toBigInt b) < MAX_value ->
  exists r, mul a b = Ok r /\ wf r /\ toBigInt r = toBigInt a * toBigInt b.
Proof.
  intros Ha Hb Hlt. destruct (mul_spec a b Ha Hb) as (r & E & Wr & Nr & Mr).
  exists r. split; [exact E|]. split; [exact Wr|].
  rewrite Z.abs_mul in Hlt. rewrite Z.mod_small in Mr by lia.
  rewrite (toBigInt_sign r), Nr, Mr.
  rewrite <- (Add.magnitude_abs a Ha), <- (Add.magnitude_abs b Hb).
  rewrite (toBigInt_sign a), (toBigInt_sign b).
  destruct (negative a), (negative b); cbn [xorb]; ring.
Qed.

End Multiply.

(** C10 (the product of the division family): on values that satisfy the
    struct invariant, [mul] returns a value whose sign bit is the exclusive
    or of the sign bits of the operands and whose magnitude is the product
    of the magnitudes modulo [2^2088 - 1]; so its integer value is the
    product of the integer values exactly when the product of the magnitudes
    is below [2^2088 - 1]. *)
Theorem mul_wraps_at_MAX (a b : Bigint2048.t) :
  Bigint2048.wf a -> Bigint2048.wf b ->
  exists r,
    Bigint2048.mul a b = Ok r /\ Bigint2048.wf r /\
    Bigint2048.negative r = xorb (Bigint2048.negative a) (Bigint2048.negative b) /\
    Bigint2048.magnitude (Bigint2048.fields r)
    = (Z.abs (Bigint2048.toBigInt a) * Z.abs (Bigint2048.toBigInt b))
        mod (2 ^ 2088 - 1) /\
    (Bigint2048.toBigInt r = Bigint2048.toBigInt a * Bigint2048.toBigInt b
     <-> Z.abs (Bigint2048.toBigInt a) * Z.abs (Bigint2048.toBigInt b) < 2 ^ 2088 - 1).
Proof.
  intros Ha Hb.
  destruct (Multiply.mul_spec a b Ha Hb) as (r & E & Wr & Nr & Mr).
  exists r. change (2 ^ 2088 - 1) with Bigint2048.MAX_value.
  repeat (split; [assumption|]).
  pose proof Multiply.MAX_value_pos as HM.
  pose proof (Z.mod_pos_bound
                (Z.abs (Bigint2048.toBigInt a) * Z.abs (Bigint2048.toBigInt b))
                Bigint2048.MAX_value HM) as Bm.
  rewrite (Multiply.toBigInt_sign r), Nr, Mr.
  rewrite <- (Add.magnitude_abs a Ha), <- (Add.magnitude_abs b Hb) in *.
  rewrite (Multiply.toBigInt_sign a), (Multiply.toBigInt_sign b).
  destruct Ha as [_ Ra], Hb as [_ Rb].
  pose proof (Limbs.magnitude_bound _ Ra) as Ba.
  pose proof (Limbs.magnitude_bound _ Rb) as Bb.
  set (ma := Bigint2048.magnitude (Bigint2048.fields a)) in *.
  set (mb := Bigint2048.magnitude (Bigint2048.fields b)) in *.
  assert (0 <= ma * mb) as Hp by nia.
  split.
  - intros H.
    assert ((ma * mb) mod Bigint2048.MAX_value = ma * mb) as Hs
        by (destruct (Bigint2048.negative a), (Bigint2048.negative b);
            cbn [xorb] in H; lia).
    lia.
  - intros H. rewrite Z.mod_small by lia.
    destruct (Bigint2048.negative a), (Bigint2048.negative b); cbn [xorb]; ring.
Qed.

Lemma mul_wraps_at_MAX_witness :
  exists r,
    Bigint2048.mul Bigint2048.MAX (Bigint2048.const (-2)) = Ok r /\ Bigint2048.wf r /\
    Bigint2048.negative r
    = xorb (Bigint2048.negative Bigint2048.MAX) (Bigint2048.negative (Bigint2048.const (-2))) /\
    Bigint2048.magnitude (Bigint2048.fields r)
    = (Z.abs (Bigint2048.toBigInt Bigint2048.MAX)
       * Z.abs (Bigint2048.toBigInt (Bigint2048.const (-2)))) mod (2 ^ 2088 - 1) /\
    (Bigint2048.toBigInt r
     = Bigint2048.toBigInt Bigint2048.MAX * Bigint2048.toBigInt (Bigint2048.const (-2))
     <-> Z.abs (Bigint2048.toBigInt Bigint2048.MAX)
         * Z.abs (Bigint2048.toBigInt (Bigint2048.const (-2))) < 2 ^ 2088 - 1).
Proof.
  apply (mul_wraps_at_MAX Bigint2048.MAX (Bigint2048.const (-2)));
    apply Limbs.wfb_wf; vm_compute; reflexivity.
Defined.

(** C3, as stated, fails: the quotient of [2^1044 * 2^1044] by the modulus
    [1] does not fit [LIMB_NUM] limbs, and [modMul] throws the error of
    [from] instead of returning a remainder. *)
Lemma modMul_quotient_overflow :
  Bigint2048.wf (Bigint2048.const (2 ^ 1044)) /\
  Bigint2048.wf Bigint2048.ONE /\
  Bigint2048.toBigInt Bigint2048.ONE <> 0 /\
  Bigint2048.modMul Bigint2048.ONE
    (Bigint2048.const (2 ^ 1044)) (Bigint2048.const (2 ^ 1044))
  = Err (Leftover 1).
Proof.
  split; [apply Limbs.wfb_wf; vm_compute; reflexivity|].
  split; [exact Multiply.wf_ONE|].
  split; [rewrite Multiply.toBigInt_ONE; discriminate|].
  vm_compute. reflexivity.
Qed.

(** C3 (amended): for operands and a nonzero modulus that satisfy the
    struct invariant, when the quotient of the product of the magnitudes by
    the magnitude of the modulus is below [2^2088], [modMul] returns a value
    [r] with limbs in range whose magnitude is the remainder of that
    division, so that [|x| * |y| = q * |p| + |r|] for the quotient [q]; when
    the quotient is [2^2088] or more, [modMul] throws the ['leftover'] error
    of [from].  The constraints accept a quotient and a remainder with limbs
    in range exactly when they satisfy that identity, and so do not bound
    the remainder by the modulus: for [x = y = p = 1] they accept the
    quotient [0] and the remainder [1]. *)
Theorem modMul_identity (x y p : Bigint2048.t) :
  Bigint2048.wf x -> Bigint2048.wf y -> Bigint2048.wf p ->
  Bigint2048.toBigInt p <> 0 ->
  (Z.abs (Bigint2048.toBigInt x) * Z.abs (Bigint2048.toBigInt y)
     / Z.abs (Bigint2048.toBigInt p) < 2 ^ 2088 ->
   exists r,
     Bigint2048.modMul p x y = Ok r /\ Bigint2048.wf r /\
     Bigint2048.magnitude (Bigint2048.fields r)
     = (Z.abs (Bigint2048.toBigInt x) * Z.abs (Bigint2048.toBigInt y))
         mod Z.abs (Bigint2048.toBigInt p) /\
     exists q, 0 <= q /\
       Z.abs (Bigint2048.toBigInt x) * Z.abs (Bigint2048.toBigInt y)
       = q * Z.abs (Bigint2048.toBigInt p)
         + Bigint2048.magnitude (Bigint2048.fields r))
  /\ (2 ^ 2088 <= Z.abs (Bigint2048.toBigInt x) * Z.abs (Bigint2048.toBigInt y)
                   / Z.abs (Bigint2048.toBigInt p) ->
      exists left, Bigint2048.modMul p x y = Err (Leftover left))
  /\ (forall q r, Bigint2048.wf q -> Bigint2048.wf r ->
        (Bigint2048.multiply_constraints false x y p q r = Ok tt
         <-> Bigint2048.magnitude (Bigint2048.fields x)
             * Bigint2048.magnitude (Bigint2048.fields y)
             = Bigint2048.magnitude (Bigint2048.fields q)
               * Bigint2048.magnitude (Bigint2048.fields p)
               + Bigint2048.magnitude (Bigint2048.fields r)))
  /\ Bigint2048.multiply_constraints false Bigint2048.ONE Bigint2048.ONE
       Bigint2048.ONE Bigint2048.ZERO Bigint2048.ONE = Ok tt.
Proof.
  intros Hx Hy Hp Hp0.
  assert (Bigint2048.MAX_value = 2 ^ 2088 - 1) as EM by reflexivity.
  split; [|split; [|split]]; [| |intros q r Wq Wr; split;
    [apply Multiply.multiply_constraints_inv | apply Multiply.multiply_constraints_Ok];
    assumption|].
  - intros Hq.
    destruct (Multiply.multiply_Ok x y p Hx Hy Hp Hp0 ltac:(lia)) as (r & E & Wr & _ & Mr).
    exists r. split; [exact E|]. split; [exact Wr|]. split; [exact Mr|].
    exists (Z.abs (Bigint2048.toBigInt x) * Z.abs (Bigint2048.toBigInt y)
            / Z.abs (Bigint2048.toBigInt p)).
    split; [apply Z.div_pos; lia|]. rewrite Mr.
    pose proof (Z.div_mod (Z.abs (Bigint2048.toBigInt x) * Z.abs (Bigint2048.toBigInt y))
                  (Z.abs (Bigint2048.toBigInt p)) ltac:(lia)). lia.
  - intros Hq. apply Multiply.multiply_Err; auto. lia.
  - apply Multiply.multiply_constraints_Ok;
      try exact Multiply.wf_ONE; try exact Multiply.wf_ZERO.
    vm_compute. reflexivity.
Qed.

Lemma modMul_identity_witness :
  (Z.abs (Bigint2048.toBigInt (Bigint2048.const 7)) * Z.abs (Bigint2048.toBigInt (Bigint2048.const (-5)))
     / Z.abs (Bigint2048.toBigInt (Bigint2048.const 3)) < 2 ^ 2088 ->
   exists r,
     Bigint2048.modMul (Bigint2048.const 3) (Bigint2048.const 7) (Bigint2048.const (-5)) = Ok r
     /\ Bigint2048.wf r /\
     Bigint2048.magnitude (Bigint2048.fields r)
     = (Z.abs (Bigint2048.toBigInt (Bigint2048.const 7))
        * Z.abs (Bigint2048.toBigInt (Bigint2048.const (-5))))
         mod Z.abs (Bigint2048.toBigInt (Bigint2048.const 3)) /\
     exists q, 0 <= q /\
       Z.abs (Bigint2048.toBigInt (Bigint2048.const 7))
       * Z.abs (Bigint2048.toBigInt (Bigint2048.const (-5)))
       = q * Z.abs (Bigint2048.toBigInt (Bigint2048.const 3))
         + Bigint2048.magnitude (Bigint2048.fields r))
  /\ (2 ^ 2088 <= Z.abs (Bigint2048.toBigInt (Bigint2048.const 7))
                   * Z.abs (Bigint2048.toBigInt (Bigint2048.const (-5)))
                   / Z.abs (Bigint2048.toBigInt (Bigint2048.const 3)) ->
      exists left,
        Bigint2048.modMul (Bigint2048.const 3) (Bigint2048.const 7) (Bigint2048.const (-5))
        = Err (Leftover left))
  /\ (forall q r, Bigint2048.wf q -> Bigint2048.wf r ->
        (Bigint2048.multiply_constraints false (Bigint2048.const 7) (Bigint2048.const (-5))
           (Bigint2048.const 3) q r = Ok tt
         <-> Bigint2048.magnitude (Bigint2048.fields (Bigint2048.const 7))
             * Bigint2048.magnitude (Bigint2048.fields (Bigint2048.const (-5)))
             = Bigint2048.magnitude (Bigint2048.fields q)
               * Bigint2048.magnitude (Bigint2048.fields (Bigint2048.const 3))
               + Bigint2048.magnitude (Bigint2048.fields r)))
  /\ Bigint2048.multiply_constraints false Bigint2048.ONE Bigint2048.ONE
       Bigint2048.ONE Bigint2048.ZERO Bigint2048.ONE = Ok tt.
Proof.
  apply (modMul_identity (Bigint2048.const 7) (Bigint2048.const (-5)) (Bigint2048.const 3));
    try (apply Limbs.wfb_wf; vm_compute; reflexivity).
  vm_compute. discriminate.
Defined.

(** C5, as stated, fails: for [a = b = 2^2087] the sum [a + b] does not fit
    [LIMB_NUM] limbs and [add] fails the final-carry assertion of its
    magnitude-sum loop, so there is no [(a + b) - b]; and [a + (-a)] trips
    the same assertion, which [add] makes although the sum is not the
    result. *)
Lemma add_carry_assertion_fails :
  Bigint2048.wf (Bigint2048.const (2 ^ 2087)) /\
  Z.abs (Bigint2048.toBigInt (Bigint2048.const (2 ^ 2087))) < 2 ^ 2088 /\
  Bigint2048.add (Bigint2048.const (2 ^ 2087)) (Bigint2048.const (2 ^ 2087))
  = Err AssertionFailed /\
  Bigint2048.add (Bigint2048.const (2 ^ 2087))
    (Bigint2048.neg (Bigint2048.const (2 ^ 2087))) = Err AssertionFailed.
Proof.
  split; [apply Limbs.wfb_wf; vm_compute; reflexivity|].
  repeat (apply conj); vm_compute; reflexivity.
Qed.

(** C5 (amended): for values [a] and [b] that satisfy the struct invariant,
    when the magnitudes of [a] and [b], and those of [a + b] and [b], add up
    to less than [2^2088], [(a + b) - b] equals [a]; when twice the magnitude
    of [a] is less than [2^2088], [a + (-a)] equals zero; the last borrow of
    the magnitude-difference loop is always clear, and the last carry of
    the magnitude-sum loop is clear when the magnitudes add up to less than
    [2^2088]; when [a] and [b] have the same sign bit and their magnitudes
    add up to [2^2088] or more, the sum does not fit and [add] fails the
    assertion on that carry. *)
Theorem add_sub_inverse (a b : Bigint2048.t) :
  Bigint2048.wf a -> Bigint2048.wf b ->
  (Z.abs (Bigint2048.toBigInt a) + Z.abs (Bigint2048.toBigInt b) < 2 ^ 2088 ->
   Z.abs (Bigint2048.toBigInt a + Bigint2048.toBigInt b)
   + Z.abs (Bigint2048.toBigInt b) < 2 ^ 2088 ->
   exists s d, Bigint2048.add a b = Ok s /\ Bigint2048.sub s b = Ok d /\
               Bigint2048.equals d a = true)
  /\ (2 * Z.abs (Bigint2048.toBigInt a) < 2 ^ 2088 ->
      exists z, Bigint2048.add a (Bigint2048.neg a) = Ok z /\
                Bigint2048.equals z Bigint2048.ZERO = true)
  /\ (let thisSmall :=
        Z.abs (Bigint2048.toBigInt a) <? Z.abs (Bigint2048.toBigInt b) in
      let (bigger, smaller) := Bigint2048.select thisSmall (b, a) (a, b) in
      snd (Bigint2048.sub_chain (Bigint2048.fields bigger)
             (Bigint2048.fields smaller) false) = false)
  /\ (Z.abs (Bigint2048.toBigInt a) + Z.abs (Bigint2048.toBigInt b) < 2 ^ 2088 ->
      snd (Bigint2048.add_chain (Bigint2048.fields a) (Bigint2048.fields b) false)
      = false)
  /\ (Bigint2048.negative a = Bigint2048.negative b ->
      2 ^ 2088 <= Z.abs (Bigint2048.toBigInt a) + Z.abs (Bigint2048.toBigInt b) ->
      Bigint2048.add a b = Err AssertionFailed).
Proof.
  intros Ha Hb.
  assert (Bigint2048.MAX_value = 2 ^ 2088 - 1) as EM by reflexivity.
  split; [|split; [|split; [|split]]].
  - intros H1 H2.
    destruct (Add.add_Ok a b Ha Hb ltac:(lia)) as (s & Es & Ws & Vs).
    pose proof (Add.wf_neg b Hb) as Wn.
    pose proof (Add.toBigInt_neg b) as Vn.
    destruct (Add.add_Ok s (Bigint2048.neg b) Ws Wn ltac:(lia)) as (d & Ed & Wd & Vd).
    exists s, d. split; [exact Es|]. split; [exact Ed|].
    rewrite Compare.equals_spec by assumption. apply Z.eqb_eq. lia.
  - intros H.
    pose proof (Add.wf_neg a Ha) as Wn.
    pose proof (Add.toBigInt_neg a) as Vn.
    destruct (Add.add_Ok a (Bigint2048.neg a) Ha Wn ltac:(lia)) as (z & Ez & Wz & Vz).
    exists z. split; [exact Ez|].
    rewrite Compare.equals_spec by (assumption || exact Multiply.wf_ZERO).
    rewrite Multiply.toBigInt_ZERO. apply Z.eqb_eq. lia.
  - cbv zeta. unfold Bigint2048.select.
    rewrite <- (Add.magnitude_abs a Ha), <- (Add.magnitude_abs b Hb).
    destruct (Z.ltb_spec (Bigint2048.magnitude (Bigint2048.fields a))
                (Bigint2048.magnitude (Bigint2048.fields b))) as [Hlt|Hge].
    + destruct (Bigint2048.sub_chain (Bigint2048.fields b) (Bigint2048.fields a) false)
        as [l c] eqn:E.
      destruct (Add.sub_chain_carry b a Hb Ha ltac:(lia) l c E) as (-> & _).
      reflexivity.
    + destruct (Bigint2048.sub_chain (Bigint2048.fields a) (Bigint2048.fields b) false)
        as [l c] eqn:E.
      destruct (Add.sub_chain_carry a b Ha Hb ltac:(lia) l c E) as (-> & _).
      reflexivity.
  - intros H. rewrite (Add.add_chain_carry a b Ha Hb).
    rewrite (Add.magnitude_abs a Ha), (Add.magnitude_abs b Hb).
    apply Z.ltb_ge. lia.
  - intros _ H. apply Add.add_Err; auto. lia.
Qed.

Lemma add_sub_inverse_witness :
  exists s d,
    Bigint2048.add (Bigint2048.const (-7)) (Bigint2048.const 12) = Ok s /\
    Bigint2048.sub s (Bigint2048.const 12) = Ok d /\
    Bigint2048.equals d (Bigint2048.const (-7)) = true.
Proof.
  apply (proj1 (add_sub_inverse (Bigint2048.const (-7)) (Bigint2048.const 12)
                  ltac:(apply Limbs.wfb_wf; vm_compute; reflexivity)
                  ltac:(apply Limbs.wfb_wf; vm_compute; reflexivity)));
    vm_compute; reflexivity.
Defined.

(** ** Division *)

Module Division.
Import Bigint2048.

(** The adjusted quotient and remainder of the witness are those of the
    floor division. *)
Lemma floor_adjust (a b : Z) :
  b <> 0 ->
  let q := Z.quot a b in
  let r := Z.rem a b in
  let adjust := negb (r =? 0) && negb (Bool.eqb (r <? 0) (b <? 0)) in
  (if adjust then q - 1 else q) = a / b /\ (if adjust then r + b else r) = a mod b.
Proof.
  intros Hb. cbv zeta.
  pose proof (Z.quot_rem' a b) as Hqr. pose proof (Z.rem_bound_abs a b Hb) as Hr.
  assert (forall q' r', a = b * q' + r' -> 0 <= r' < b \/ b < r' <= 0 ->
                        q' = a / b /\ r' = a mod b) as U.
  { intros q' r' E R.
    split; [exact (Z.div_unique a b q' r' R E) | exact (Z.mod_unique a b q' r' R E)]. }
  destruct (Z.eqb_spec (Z.rem a b) 0) as [E0|N0];
    destruct (Z.ltb_spec (Z.rem a b) 0), (Z.ltb_spec b 0); cbn [negb andb Bool.eqb];
    apply U; lia.
Qed.

Lemma from_Ok_inv (x : Z) (v : t) :
  from x = Ok v -> wf v /\ toBigInt v = x /\ negative v = (x <? 0).
Proof.
  intros H. destruct (Z.le_gt_cases (Z.abs x) MAX_value) as [Hle|Hgt].
  - destruct (Limbs.from_Ok x Hle) as (v' & E & Wv & Vv & Nv & _).
    assert (v' = v) as <- by congruence. auto.
  - rewrite Limbs.from_Err in H by exact Hgt. discriminate.
Qed.

(** What the witness of [floorDiv] holds when its callback returns. *)
Lemma floorDiv_witness_inv (a y q r : t) :
  floorDiv_witness a y = Ok (q, r) ->
  toBigInt y <> 0 /\ wf q /\ wf r /\
  toBigInt q = toBigInt a / toBigInt y /\ toBigInt r = toBigInt a mod toBigInt y /\
  negative r = (toBigInt a mod toBigInt y <? 0).
Proof.
  unfold floorDiv_witness. cbv zeta.
  destruct (Z.eqb_spec (toBigInt y) 0) as [|Hy]; [discriminate|].
  destruct (floor_adjust (toBigInt a) (toBigInt y) Hy) as [Eq Er].
  cbv zeta in Eq, Er. rewrite Eq, Er. intros H.
  apply bind_Ok_inv in H. destruct H as (vq & Hq & H).
  apply bind_Ok_inv in H. destruct H as (vr & Hr & H).
  assert (vq = q /\ vr = r) as [-> ->] by (split; congruence).
  apply from_Ok_inv in Hq. apply from_Ok_inv in Hr.
  destruct Hq as (Wq & Vq & _), Hr as (Wr & Vr & Nr). auto 10.
Qed.

(** Whenever [floorDiv] returns, it returns the floor quotient and
    remainder. *)
Lemma floorDiv_returns (a y q r : t) :
  floorDiv a y = Ok (q, r) ->
  toBigInt y <> 0 /\ wf q /\ wf r /\
  toBigInt q = toBigInt a / toBigInt y /\ toBigInt r = toBigInt a mod toBigInt y.
Proof.
  unfold floorDiv. intros H.
  apply bind_Ok_inv in H. destruct H as ([] & _ & H).
  apply bind_Ok_inv in H. destruct H as ([q' r'] & Hw & H).
  repeat (apply bind_Ok_inv in H; destruct H as (? & _ & H)).
  assert (q' = q /\ r' = r) as [-> ->] by (split; congruence).
  apply floorDiv_witness_inv in Hw. tauto.
Qed.

(** [floorDiv] returns when the product of the divisor and the quotient
    stays below [MAX] and its magnitude and the remainder's add up to at
    most [MAX]. *)
Lemma floorDiv_Ok (a y : t) :
  wf a -> wf y -> toBigInt y <> 0 ->
  Z.abs (toBigInt y * (toBigInt a / toBigInt y)) < MAX_value ->
  Z.abs (toBigInt y * (toBigInt a / toBigInt y))
  + Z.abs (toBigInt a mod toBigInt y) <= MAX_value ->
  exists q r, floorDiv a y = Ok (q, r) /\ wf q /\ wf r /\
              toBigInt q = toBigInt a / toBigInt y /\
              toBigInt r = toBigInt a mod toBigInt y.
Proof.
  intros Ha Hy Hy0 Hprod Hsum. unfold floorDiv.
  unfold assertNotEquals. rewrite Compare.equals_spec by (auto; exact Multiply.wf_ZERO).
  rewrite Multiply.toBigInt_ZERO.
  destruct (Z.eqb_spec (toBigInt y) 0) as [|_]; [contradiction|]. cbn [assertFalse bind].
  unfold floorDiv_witness. cbv zeta.
  destruct (Z.eqb_spec (toBigInt y) 0) as [|_]; [contradiction|].
  destruct (floor_adjust (toBigInt a) (toBigInt y) Hy0) as [Eq Er].
  cbv zeta in Eq, Er. rewrite Eq, Er. clear Eq Er.
  set (A := toBigInt a) in *. set (Y := toBigInt y) in *.
  pose proof (Z.div_mod A Y Hy0) as Hdm.
  assert (Z.abs (A mod Y) < Z.abs Y) as Hrb.
  { destruct (Z.lt_ge_cases 0 Y);
      [pose proof (Z.mod_pos_bound A Y) | pose proof (Z.mod_neg_bound A Y)]; lia. }
  assert (Z.abs (A / Y) <= Z.abs (Y * (A / Y))) as Hqb by (rewrite Z.abs_mul; nia).
  pose proof (Limbs.toBigInt_bound y Hy) as By. fold Y in By.
  destruct (Limbs.from_Ok (A / Y) ltac:(lia)) as (vq & Eq & Wq & Vq & _).
  destruct (Limbs.from_Ok (A mod Y) ltac:(lia)) as (vr & Er & Wr & Vr & Nr & _).
  rewrite Eq, Er. cbn [bind].
  rewrite (RangeCheck.check_Ok vq Wq), (RangeCheck.check_Ok vr Wr). cbn [bind].
  destruct (Multiply.mul_exact y vq Hy Wq ltac:(rewrite Vq; exact Hprod))
    as (yq & Em & Wm & Vm).
  rewrite Em. cbn [bind]. fold Y in Vm. rewrite Vq in Vm.
  destruct (Add.add_Ok yq vr Wm Wr ltac:(rewrite Vm, Vr; exact Hsum))
    as (s & Es & Ws & Vs).
  rewrite Es. cbn [bind].
  unfold assertEquals. rewrite Compare.equals_spec by assumption.
  fold A. rewrite Vs, Vm, Vr.
  destruct (Z.eqb_spec (Y * (A / Y) + A mod Y) A) as [_|]; [|lia]. cbn [assertTrue bind].
  unfold assertLessThan.
  rewrite Compare.cmp_spec by (apply Add.wf_abs; assumption).
  rewrite !Add.toBigInt_abs by assumption. fold Y. rewrite Vr.
  rewrite Compare.Ordering_of_sign_lt by lia. cbn [bind].
  change (Field.assertEquals Less Less) with (Ok tt). cbn [bind].
  rewrite Compare.equals_spec by (auto; exact Multiply.wf_ZERO).
  rewrite Multiply.toBigInt_ZERO, Vr, Nr.
  assert (negative y = (Y <? 0)) as ->.
  { unfold Y in *. rewrite (Multiply.toBigInt_sign y) in *.
    destruct Hy as [_ Ry]. pose proof (Limbs.magnitude_bound _ Ry).
    destruct (negative y);
      match goal with |- _ = (?x <? 0) => destruct (Z.ltb_spec x 0) end; auto; lia. }
  assert ((A mod Y =? 0) || Bool.eqb (A mod Y <? 0) (Y <? 0) = true) as ->.
  { destruct (Z.eqb_spec (A mod Y) 0); [reflexivity|]. cbn [orb].
    destruct (Z.ltb_spec (A mod Y) 0), (Z.ltb_spec Y 0); try reflexivity;
      [pose proof (Z.mod_pos_bound A Y) | pose proof (Z.mod_neg_bound A Y)]; lia. }
  cbn [assertTrue bind]. exists vq, vr. auto.
Qed.

Lemma floor_quotient_bound (A Y : Z) : Y <> 0 -> Z.abs (A / Y) <= Z.abs A.
Proof.
  intros HY. pose proof (Z.div_mod A Y HY) as Hdm.
  destruct (Z.lt_ge_cases 0 Y);
    [pose proof (Z.mod_pos_bound A Y) | pose proof (Z.mod_neg_bound A Y)]; nia.
Qed.

(** [floorDiv] fails an assertion on every other dividend and nonzero
    divisor: the product of the divisor and the quotient is reduced modulo
    [MAX], and [add] asserts the last carry of its magnitude-sum loop
    whatever the signs. *)
Lemma floorDiv_Err (a y : t) :
  wf a -> wf y -> toBigInt y <> 0 ->
  MAX_value <= Z.abs (toBigInt y * (toBigInt a / toBigInt y))
  \/ MAX_value < Z.abs (toBigInt y * (toBigInt a / toBigInt y))
                  + Z.abs (toBigInt a mod toBigInt y) ->
  floorDiv a y = Err AssertionFailed.
Proof.
  intros Ha Hy Hy0 Hfail. unfold floorDiv.
  unfold assertNotEquals. rewrite Compare.equals_spec by (auto; exact Multiply.wf_ZERO).
  rewrite Multiply.toBigInt_ZERO.
  destruct (Z.eqb_spec (toBigInt y) 0) as [|_]; [contradiction|]. cbn [assertFalse bind].
  unfold floorDiv_witness. cbv zeta.
  destruct (Z.eqb_spec (toBigInt y) 0) as [|_]; [contradiction|].
  destruct (floor_adjust (toBigInt a) (toBigInt y) Hy0) as [Eq Er].
  cbv zeta in Eq, Er. rewrite Eq, Er. clear Eq Er.
  pose proof (Multiply.toBigInt_sign y) as Sy.
  pose proof (Add.magnitude_abs y Hy) as My.
  set (A := toBigInt a) in *. set (Y := toBigInt y) in *.
  pose proof (Z.div_mod A Y Hy0) as Hdm.
  assert (Z.abs (A mod Y) < Z.abs Y) as Hrb.
  { destruct (Z.lt_ge_cases 0 Y);
      [pose proof (Z.mod_pos_bound A Y) | pose proof (Z.mod_neg_bound A Y)]; lia. }
  pose proof (floor_quotient_bound A Y Hy0) as Hqb.
  pose proof (Limbs.toBigInt_bound a Ha) as Ba. fold A in Ba.
  pose proof (Limbs.toBigInt_bound y Hy) as By. fold Y in By.
  destruct (Limbs.from_Ok (A / Y) ltac:(lia)) as (vq & Eq & Wq & Vq & _ & Mq).
  destruct (Limbs.from_Ok (A mod Y) ltac:(lia)) as (vr & Er & Wr & Vr & _).
  rewrite Eq, Er. cbn [bind].
  rewrite (RangeCheck.check_Ok vq Wq), (RangeCheck.check_Ok vr Wr). cbn [bind].
  destruct (Multiply.mul_spec y vq Hy Wq) as (yq & Em & Wm & Nm & Mm).
  rewrite Em. cbn [bind]. fold Y in Mm. rewrite Vq in Mm.
  pose proof (Multiply.toBigInt_sign yq) as Syq. rewrite Nm, Mm in Syq.
  pose proof (Multiply.toBigInt_sign vq) as Sq. rewrite Vq, Mq in Sq.
  pose proof Multiply.MAX_value_pos as HM.
  pose proof (Z.mod_pos_bound (Z.abs Y * Z.abs (A / Y)) MAX_value HM) as Bm.
  destruct (Z.le_gt_cases (Z.abs (toBigInt yq) + Z.abs (toBigInt vr)) MAX_value)
    as [Hle|Hgt].
  - destruct (Add.add_Ok yq vr Wm Wr Hle) as (s & Es & Ws & Vs).
    rewrite Es. cbn [bind].
    unfold assertEquals. rewrite Compare.equals_spec by assumption.
    fold A. rewrite Vs, Vr.
    destruct (Z.eqb_spec (toBigInt yq + A mod Y) A) as [Heq|]; [|reflexivity].
    exfalso.
    assert (toBigInt yq = Y * (A / Y)) as Hex by lia.
    rewrite Z.abs_mul in Hfail. rewrite Hex, Vr, Z.abs_mul in Hle.
    destruct Hfail as [Hbig|Hbig]; [|lia].
    rewrite Syq in Hex. rewrite My in Sy.
    destruct (negative y), (negative vq); cbn [xorb] in Hex; nia.
  - rewrite Add.add_Err by assumption. reflexivity.
Qed.

End Division.

(** ** The Euclidean step relation *)

Module Gcd.
Import Bigint2048.

(** *** Euclid's reduction on integers *)

Lemma gcd_step_gcd (p : Z * Z) :
  Z.gcd (fst (gcd_step p)) (snd (gcd_step p)) = Z.gcd (fst p) (snd p).
Proof.
  destruct p as [x y]. unfold gcd_step. cbn [fst snd].
  destruct (Z.eqb_spec y 0) as [|Hy]; [reflexivity|]. cbn [fst snd].
  rewrite (Z.gcd_comm y), Z.gcd_mod by exact Hy. apply Z.gcd_comm.
Qed.

Lemma gcd_step_range (M : Z) (p : Z * Z) :
  0 <= fst p < M -> 0 <= snd p < M ->
  0 <= fst (gcd_step p) < M /\ 0 <= snd (gcd_step p) <= snd p /\
  (0 < snd p -> snd (gcd_step p) < snd p).
Proof.
  destruct p as [x y]. unfold gcd_step. cbn [fst snd]. intros Hx Hy.
  destruct (Z.eqb_spec y 0) as [|Hy0]; cbn [fst snd]; [lia|].
  pose proof (Z.mod_pos_bound x y ltac:(lia)). lia.
Qed.

Lemma iter_gcd (n : nat) (p : Z * Z) :
  Z.gcd (fst (Nat.iter n gcd_step p)) (snd (Nat.iter n gcd_step p))
  = Z.gcd (fst p) (snd p).
Proof.
  induction n as [|n IH]; [reflexivity|]. rewrite Nat.iter_succ.
  rewrite gcd_step_gcd. exact IH.
Qed.

Lemma iter_range (M : Z) (n : nat) (p : Z * Z) :
  0 <= fst p < M -> 0 <= snd p < M ->
  0 <= fst (Nat.iter n gcd_step p) < M /\
  0 <= snd (Nat.iter n gcd_step p) <= snd p.
Proof.
  intros Hx Hy. induction n as [|n IH]; [simpl; lia|]. rewrite Nat.iter_succ.
  destruct IH as [I1 I2].
  pose proof (gcd_step_range M (Nat.iter n gcd_step p) I1 ltac:(lia)). lia.
Qed.

Lemma iter_decreases (M : Z) (n : nat) (p : Z * Z) :
  0 <= fst p < M -> 0 < snd p < M ->
  snd (Nat.iter (S n) gcd_step p) < snd p.
Proof.
  intros Hx Hy. rewrite Nat.iter_succ_r.
  destruct (gcd_step_range M p Hx ltac:(lia)) as (R1 & R2 & R3).
  pose proof (iter_range M n (gcd_step p) R1 ltac:(lia)). lia.
Qed.

(** *** One turn of the loop *)

Lemma equals_ZERO (g : t) : wf g -> equals g ZERO = (toBigInt g =? 0).
Proof.
  intros Hg. rewrite Compare.equals_spec by (auto; exact Multiply.wf_ZERO).
  rewrite Multiply.toBigInt_ZERO. reflexivity.
Qed.

Lemma divisor_spec (curr : GcdPair.t) :
  GcdPair.wf curr ->
  wf (GcdPair.divisor curr) /\
  toBigInt (GcdPair.divisor curr)
  = (if snd (GcdPair.values curr) =? 0 then 1 else snd (GcdPair.values curr)).
Proof.
  intros [W0 W1]. unfold GcdPair.divisor, GcdPair.values, select. cbn [snd].
  rewrite (equals_ZERO _ W1).
  destruct (Z.eqb_spec (toBigInt (GcdPair.g_1 curr)) 0).
  - split; [exact Multiply.wf_ONE | exact Multiply.toBigInt_ONE].
  - split; [exact W1 | reflexivity].
Qed.

(** Whenever a turn returns, it has made Euclid's reduction. *)
Lemma euclidStep_returns (curr next : GcdPair.t) :
  GcdPair.wf curr -> GcdPair.euclidStep curr = Ok next ->
  GcdPair.wf next /\ GcdPair.values next = gcd_step (GcdPair.values curr).
Proof.
  intros W H. pose proof (divisor_spec curr W) as [Wd Vd].
  destruct W as [W0 W1]. unfold GcdPair.euclidStep in H.
  apply bind_Ok_inv in H. destruct H as ([q rem] & Hdiv & H).
  apply Division.floorDiv_returns in Hdiv.
  destruct Hdiv as (_ & _ & Wr & _ & Vr). rewrite Vd in Vr.
  injection H as <-. unfold GcdPair.wf, GcdPair.values, gcd_step, select in *.
  cbn [GcdPair.g_0 GcdPair.g_1 fst snd] in *.
  rewrite (equals_ZERO _ W1).
  destruct (Z.eqb_spec (toBigInt (GcdPair.g_1 curr)) 0); [auto|].
  split; [auto|]. rewrite Vr. reflexivity.
Qed.

(** A turn returns on nonnegative values below [MAX]. *)
Lemma euclidStep_Ok (curr : GcdPair.t) :
  GcdPair.wf curr ->
  0 <= fst (GcdPair.values curr) < MAX_value ->
  0 <= snd (GcdPair.values curr) < MAX_value ->
  exists next, GcdPair.euclidStep curr = Ok next.
Proof.
  intros W H0 H1. pose proof (divisor_spec curr W) as [Wd Vd].
  destruct W as [W0 W1]. unfold GcdPair.values in *. cbn [fst snd] in *.
  set (G0 := toBigInt (GcdPair.g_0 curr)) in *.
  set (Y := toBigInt (GcdPair.divisor curr)) in *.
  assert (0 < Y) as HY by (destruct (Z.eqb_spec (toBigInt (GcdPair.g_1 curr)) 0); lia).
  pose proof (Z.div_mod G0 Y ltac:(lia)) as Hdm.
  pose proof (Z.mod_pos_bound G0 Y HY) as Hm.
  assert (0 <= Y * (G0 / Y)) as Hq.
  { apply Z.mul_nonneg_nonneg; [lia|]. apply Z.div_pos; lia. }
  destruct (Division.floorDiv_Ok (GcdPair.g_0 curr) (GcdPair.divisor curr) W0 Wd)
    as (q & r & E & _); fold G0 Y; try lia.
  unfold GcdPair.euclidStep. rewrite E. cbn [bind]. eauto.
Qed.

(** *** The unrolled loop *)

Lemma loop_returns (n : nat) (p p' : GcdPair.t) :
  GcdPair.wf p ->
  for_loopM n (fun _ curr => GcdPair.euclidStep curr) p = Ok p' ->
  GcdPair.wf p' /\ GcdPair.values p' = Nat.iter n gcd_step (GcdPair.values p).
Proof.
  intros W. revert p'. induction n as [|n IH]; intros p' H.
  - injection H as <-. auto.
  - rewrite for_loopM_S in H. apply bind_Ok_inv in H. destruct H as (m & Hm & H).
    destruct (IH m Hm) as [Wm Vm].
    destruct (euclidStep_returns m p' Wm H) as [W' V'].
    split; [exact W'|]. rewrite Nat.iter_succ, V', Vm. reflexivity.
Qed.

Lemma loop_Ok (n : nat) (p : GcdPair.t) :
  GcdPair.wf p ->
  0 <= fst (GcdPair.values p) < MAX_value ->
  0 <= snd (GcdPair.values p) < MAX_value ->
  exists p', for_loopM n (fun _ curr => GcdPair.euclidStep curr) p = Ok p'.
Proof.
  intros W H0 H1. induction n as [|n IH]; [exists p; reflexivity|].
  destruct IH as (m & Hm). destruct (loop_returns n p m W Hm) as [Wm Vm].
  pose proof (iter_range MAX_value n (GcdPair.values p) H0 H1) as [R0 R1].
  rewrite <- Vm in R0, R1.
  destruct (euclidStep_Ok m Wm R0 ltac:(lia)) as (p' & E).
  exists p'. rewrite for_loopM_S, Hm. exact E.
Qed.

End Gcd.

(** C7 (the invariant of the step relation): for every pair that satisfies
    the struct invariant, a pair returned by [euclidGcd] has the same
    greatest common divisor as the pair it was called on; and [euclidGcd]
    does return a pair on nonnegative values below [2^2088 - 1]. *)
Theorem euclidGcd_preserves_gcd (p : GcdPair.t) :
  GcdPair.wf p ->
  (forall p', GcdPair.euclidGcd p = Ok p' ->
     GcdPair.wf p' /\
     Z.gcd (fst (GcdPair.values p')) (snd (GcdPair.values p'))
     = Z.gcd (fst (GcdPair.values p)) (snd (GcdPair.values p)))
  /\ (0 <= fst (GcdPair.values p) < 2 ^ 2088 - 1 ->
      0 <= snd (GcdPair.values p) < 2 ^ 2088 - 1 ->
      exists p', GcdPair.euclidGcd p = Ok p').
Proof.
  intros W. split.
  - intros p' H. destruct (Gcd.loop_returns _ p p' W H) as [W' V'].
    split; [exact W'|]. rewrite V'. apply Gcd.iter_gcd.
  - intros H0 H1. apply Gcd.loop_Ok; assumption.
Qed.

Lemma euclidGcd_preserves_gcd_witness :
  exists p',
    GcdPair.euclidGcd (GcdPair.mk (Bigint2048.const 48) (Bigint2048.const 18)) = Ok p'.
Proof.
  apply (proj2 (euclidGcd_preserves_gcd
                  (GcdPair.mk (Bigint2048.const 48) (Bigint2048.const 18))
                  ltac:(split; apply Limbs.wfb_wf; vm_compute; reflexivity)));
    vm_compute; (split; [discriminate | reflexivity]).
Defined.

(** ** The chain of proofs *)

Module Chain.
Import Bigint2048.

Lemma isSolved_spec (p : GcdPair.t) :
  GcdPair.wf p ->
  GcdPair.isSolved p
  = (fst (GcdPair.values p) =? snd (GcdPair.values p)) || (snd (GcdPair.values p) =? 0).
Proof.
  intros [W0 W1]. unfold GcdPair.isSolved, GcdPair.values. cbn [fst snd].
  rewrite Compare.equals_spec by assumption. rewrite Gcd.equals_ZERO by assumption.
  reflexivity.
Qed.

Lemma assertEquals_refl (x : t) : wf x -> assertEquals x x = Ok tt.
Proof.
  intros W. unfold assertEquals. rewrite Compare.equals_spec by assumption.
  rewrite Z.eqb_refl. reflexivity.
Qed.

(** A step of the chain on the proof of the same instance runs [euclidGcd]
    on the output of that proof. *)
Lemma step_spec (pair : GcdPair.t) (pr : GcdProgram.proof) :
  GcdPair.wf pair -> GcdProgram.publicInput pr = pair ->
  GcdProgram.step pair pr
  = (out <- GcdPair.euclidGcd (GcdProgram.publicOutput pr);;
     Ok (GcdProgram.mkProof pair out)).
Proof.
  intros [W0 W1] E. unfold GcdProgram.step. rewrite E.
  rewrite !assertEquals_refl by assumption. reflexivity.
Qed.

(** The driver loop stops: the second number of the output decreases at
    every step of the chain that is still needed. *)
Lemma drive_terminates (pair : GcdPair.t) (fuel : nat) (pr : GcdProgram.proof) :
  GcdPair.wf pair -> GcdProgram.publicInput pr = pair ->
  GcdPair.wf (GcdProgram.publicOutput pr) ->
  0 <= fst (GcdPair.values (GcdProgram.publicOutput pr)) < MAX_value ->
  0 <= snd (GcdPair.values (GcdProgram.publicOutput pr)) < MAX_value ->
  snd (GcdPair.values (GcdProgram.publicOutput pr)) <= Z.of_nat fuel ->
  exists pr',
    GcdProgram.drive fuel pair pr = Ok pr' /\
    GcdPair.wf (GcdProgram.publicOutput pr') /\
    GcdPair.isSolved (GcdProgram.publicOutput pr') = true /\
    0 <= fst (GcdPair.values (GcdProgram.publicOutput pr')) /\
    Z.gcd (fst (GcdPair.values (GcdProgram.publicOutput pr')))
      (snd (GcdPair.values (GcdProgram.publicOutput pr')))
    = Z.gcd (fst (GcdPair.values (GcdProgram.publicOutput pr)))
        (snd (GcdPair.values (GcdProgram.publicOutput pr))).
Proof.
  intros Wp. revert pr. induction fuel as [|fuel IH]; intros pr Hin Wo R0 R1 Hf.
  - exists pr. cbn [GcdProgram.drive].
    assert (GcdPair.isSolved (GcdProgram.publicOutput pr) = true) as Hs.
    { rewrite isSolved_spec by exact Wo.
      replace (snd (GcdPair.values (GcdProgram.publicOutput pr))) with 0 by lia.
      apply orb_true_r. }
    rewrite Hs. repeat split; auto; try apply Wo; lia.
  - cbn [GcdProgram.drive].
    destruct (GcdPair.isSolved (GcdProgram.publicOutput pr)) eqn:Hs.
    + exists pr. repeat split; auto; try apply Wo; lia.
    + rewrite isSolved_spec in Hs by exact Wo. apply orb_false_iff in Hs.
      destruct Hs as [_ Hnz]. apply Z.eqb_neq in Hnz.
      rewrite (step_spec pair pr Wp Hin).
      destruct (Gcd.loop_Ok GCD_ITERATIONS_PER_PROOF (GcdProgram.publicOutput pr)
                  Wo R0 R1) as (out & E).
      fold (GcdPair.euclidGcd (GcdProgram.publicOutput pr)) in E.
      rewrite E. cbn [bind].
      destruct (Gcd.loop_returns _ _ _ Wo E) as [Wout Vout].
      pose proof (Gcd.iter_range MAX_value GCD_ITERATIONS_PER_PROOF _ R0 R1) as [I0 I1].
      pose proof (Gcd.iter_decreases MAX_value 8 _ R0 ltac:(lia)) as Hd.
      change (S 8) with GCD_ITERATIONS_PER_PROOF in Hd.
      pose proof (Gcd.iter_gcd GCD_ITERATIONS_PER_PROOF
                    (GcdPair.values (GcdProgram.publicOutput pr))) as Hg.
      rewrite <- Vout in I0, I1, Hd, Hg.
      destruct (IH (GcdProgram.mkProof pair out) eq_refl Wout I0
                  ltac:(cbn [GcdProgram.publicOutput]; lia)
                  ltac:(cbn [GcdProgram.publicOutput]; lia))
        as (pr' & E' & W' & S' & P' & G').
      exists pr'. cbn [GcdProgram.publicOutput] in G'.
      repeat split; auto; try apply W'. congruence.
Qed.

(** On numbers below [MAX] the run of [run.ts] stops and prints their
    greatest common divisor. *)
Lemma run_gcd_below_MAX (a b : Z) :
  0 <= a < MAX_value -> 0 <= b < MAX_value ->
  exists fuel, GcdProgram.run fuel a b = Ok (Z.gcd a b).
Proof.
  intros Ha Hb. exists (Z.to_nat b). unfold GcdProgram.run.
  destruct (Limbs.from_Ok a ltac:(lia)) as (g0 & E0 & W0 & V0 & _).
  destruct (Limbs.from_Ok b ltac:(lia)) as (g1 & E1 & W1 & V1 & _).
  rewrite E0, E1. cbn [bind].
  set (pair := GcdPair.mk g0 g1).
  assert (GcdPair.wf pair) as Wp by (split; assumption).
  assert (GcdPair.values pair = (a, b)) as Vp by (unfold GcdPair.values; cbn; congruence).
  unfold GcdProgram.baseCase.
  destruct (Gcd.loop_Ok GCD_ITERATIONS_PER_PROOF pair Wp ltac:(rewrite Vp; exact Ha)
              ltac:(rewrite Vp; exact Hb)) as (out & E).
  fold (GcdPair.euclidGcd pair) in E. rewrite E. cbn [bind].
  destruct (Gcd.loop_returns _ _ _ Wp E) as [Wout Vout].
  pose proof (Gcd.iter_range MAX_value GCD_ITERATIONS_PER_PROOF (GcdPair.values pair)
                ltac:(rewrite Vp; exact Ha) ltac:(rewrite Vp; exact Hb)) as [I0 I1].
  pose proof (Gcd.iter_gcd GCD_ITERATIONS_PER_PROOF (GcdPair.values pair)) as Hg.
  rewrite <- Vout in I0, I1, Hg. rewrite Vp in I1, Hg. cbn [fst snd] in I1, Hg.
  destruct (drive_terminates pair (Z.to_nat b) (GcdProgram.mkProof pair out) Wp eq_refl
              Wout I0 ltac:(cbn [GcdProgram.publicOutput]; lia)
              ltac:(cbn [GcdProgram.publicOutput]; lia))
    as (pr' & E' & W' & S' & P' & G').
  rewrite E'. cbn [bind]. unfold GcdPair.assertSolved. rewrite S'. cbn [assertTrue bind].
  f_equal. cbn [GcdProgram.publicOutput] in G'. rewrite Hg in G'.
  rewrite isSolved_spec in S' by exact W'.
  unfold GcdPair.values in *. cbn [fst snd] in *.
  set (x := toBigInt (GcdPair.g_0 (GcdProgram.publicOutput pr'))) in *.
  set (y := toBigInt (GcdPair.g_1 (GcdProgram.publicOutput pr'))) in *.
  rewrite <- G'. apply orb_true_iff in S'. destruct S' as [S'|S'].
  - apply Z.eqb_eq in S'. rewrite <- S', Z.gcd_diag. lia.
  - apply Z.eqb_eq in S'. rewrite S', Z.gcd_0_r. lia.
Qed.

End Chain.

(** ** The largest value

    [mul] reduces the product modulo [MAX], so the product [MAX * 1] comes
    back as zero and the check [this = q * y + r] of [floorDiv] fails on the
    dividend [MAX] whenever the remainder is zero. *)

(** C4 (evaluation at the failing input): [MAX] and [ONE] satisfy the
    struct invariant, the divisor is not zero, the floor quotient [MAX] and
    remainder [0] are values that [from] builds, and yet
    [MAX.floorDiv(ONE)] fails an assertion instead of returning them; so
    does [MAX.floorDiv(-2)]. *)
Theorem floorDiv_MAX_ONE_fails :
  Bigint2048.wf Bigint2048.MAX /\ Bigint2048.wf Bigint2048.ONE /\
  Bigint2048.toBigInt Bigint2048.ONE <> 0 /\
  Bigint2048.from (Bigint2048.toBigInt Bigint2048.MAX / Bigint2048.toBigInt Bigint2048.ONE)
  = Ok Bigint2048.MAX /\
  Bigint2048.from (Bigint2048.toBigInt Bigint2048.MAX mod Bigint2048.toBigInt Bigint2048.ONE)
  = Ok Bigint2048.ZERO /\
  Bigint2048.floorDiv Bigint2048.MAX Bigint2048.ONE = Err AssertionFailed /\
  Bigint2048.floorDiv Bigint2048.MAX (Bigint2048.const (-2)) = Err AssertionFailed.
Proof.
  split; [exact Multiply.wf_MAX|]. split; [exact Multiply.wf_ONE|].
  split; [rewrite Multiply.toBigInt_ONE; discriminate|].
  repeat (apply conj); vm_compute; reflexivity.
Qed.

(** C2 (evaluation at the failing input): on the pair [(MAX, 0)], whose
    second number is zero, a turn of the loop of [euclidGcd] hands the
    divisor [ONE] to [floorDiv] and fails its assertion instead of keeping
    the pair. *)
Theorem euclidStep_MAX_ZERO_fails :
  GcdPair.wf (GcdPair.mk Bigint2048.MAX Bigint2048.ZERO) /\
  Bigint2048.equals Bigint2048.ZERO Bigint2048.ZERO = true /\
  GcdPair.divisor (GcdPair.mk Bigint2048.MAX Bigint2048.ZERO) = Bigint2048.ONE /\
  GcdPair.euclidStep (GcdPair.mk Bigint2048.MAX Bigint2048.ZERO) = Err AssertionFailed /\
  GcdPair.euclidGcd (GcdPair.mk Bigint2048.MAX Bigint2048.ZERO) = Err AssertionFailed.
Proof.
  split; [split; [exact Multiply.wf_MAX | exact Multiply.wf_ZERO]|].
  repeat (apply conj); vm_compute; reflexivity.
Qed.

(** C1 (evaluation at the failing input): on [a = 2^2088 - 1] and [b = 0]
    the base case already fails an assertion, so the run prints no
    solution whatever the number of steps allowed; the same happens on
    [(2^2088 - 1, 1)] and on [(0, 2^2088 - 1)]. *)
Theorem run_MAX_ZERO_fails (fuel : nat) :
  GcdProgram.run fuel (2 ^ 2088 - 1) 0 = Err AssertionFailed /\
  GcdProgram.run fuel (2 ^ 2088 - 1) 1 = Err AssertionFailed /\
  GcdProgram.run fuel 0 (2 ^ 2088 - 1) = Err AssertionFailed.
Proof.
  unfold GcdProgram.run.
  assert (Bigint2048.from (2 ^ 2088 - 1) = Ok Bigint2048.MAX) as -> by (vm_compute; reflexivity).
  assert (Bigint2048.from 0 = Ok Bigint2048.ZERO) as -> by (vm_compute; reflexivity).
  assert (Bigint2048.from 1 = Ok Bigint2048.ONE) as -> by (vm_compute; reflexivity).
  cbn [bind].
  assert (GcdProgram.baseCase (GcdPair.mk Bigint2048.MAX Bigint2048.ZERO)
          = Err AssertionFailed) as -> by (vm_compute; reflexivity).
  assert (GcdProgram.baseCase (GcdPair.mk Bigint2048.MAX Bigint2048.ONE)
          = Err AssertionFailed) as -> by (vm_compute; reflexivity).
  assert (GcdProgram.baseCase (GcdPair.mk Bigint2048.ZERO Bigint2048.MAX)
          = Err AssertionFailed) as -> by (vm_compute; reflexivity).
  repeat (apply conj); reflexivity.
Qed.

(** ** What holds below the largest value *)

(** On every dividend and nonzero divisor that satisfy the struct
    invariant: when the product of the divisor and the floor quotient is
    below [2^2088 - 1] in magnitude and that magnitude plus the remainder's
    is below [2^2088], [floorDiv] returns the floor quotient and remainder,
    which satisfy the division contract; otherwise it fails an assertion. *)
Theorem floorDiv_contract (a b : Bigint2048.t) :
  Bigint2048.wf a -> Bigint2048.wf b -> Bigint2048.toBigInt b <> 0 ->
  (Z.abs (Bigint2048.toBigInt b * (Bigint2048.toBigInt a / Bigint2048.toBigInt b))
   < 2 ^ 2088 - 1 ->
   Z.abs (Bigint2048.toBigInt b * (Bigint2048.toBigInt a / Bigint2048.toBigInt b))
   + Z.abs (Bigint2048.toBigInt a mod Bigint2048.toBigInt b) < 2 ^ 2088 ->
   exists q r,
     Bigint2048.floorDiv a b = Ok (q, r) /\
     Bigint2048.toBigInt q = Bigint2048.toBigInt a / Bigint2048.toBigInt b /\
     Bigint2048.toBigInt r = Bigint2048.toBigInt a mod Bigint2048.toBigInt b /\
     Bigint2048.toBigInt b * Bigint2048.toBigInt q + Bigint2048.toBigInt r
     = Bigint2048.toBigInt a /\
     Z.abs (Bigint2048.toBigInt r) < Z.abs (Bigint2048.toBigInt b) /\
     (Bigint2048.toBigInt r = 0
      \/ Z.sgn (Bigint2048.toBigInt r) = Z.sgn (Bigint2048.toBigInt b)))
  /\ (2 ^ 2088 - 1
      <= Z.abs (Bigint2048.toBigInt b * (Bigint2048.toBigInt a / Bigint2048.toBigInt b))
      \/ 2 ^ 2088
         <= Z.abs (Bigint2048.toBigInt b * (Bigint2048.toBigInt a / Bigint2048.toBigInt b))
            + Z.abs (Bigint2048.toBigInt a mod Bigint2048.toBigInt b) ->
      Bigint2048.floorDiv a b = Err AssertionFailed).
Proof.
  intros Ha Hb Hb0.
  assert (Bigint2048.MAX_value = 2 ^ 2088 - 1) as EM by reflexivity.
  split.
  - intros Hprod Hsum.
    destruct (Division.floorDiv_Ok a b Ha Hb Hb0 ltac:(lia) ltac:(lia))
      as (q & r & E & _ & _ & Vq & Vr).
    exists q, r. rewrite Vq, Vr. split; [exact E|].
    set (A := Bigint2048.toBigInt a) in *. set (B := Bigint2048.toBigInt b) in *.
    pose proof (Z.div_mod A B Hb0).
    destruct (Z.lt_ge_cases 0 B);
      [pose proof (Z.mod_pos_bound A B) | pose proof (Z.mod_neg_bound A B)];
      repeat split; lia.
  - intros Hfail. apply Division.floorDiv_Err; auto. lia.
Qed.

Lemma floorDiv_contract_witness :
  exists q r,
    Bigint2048.floorDiv (Bigint2048.const (-7)) (Bigint2048.const 2) = Ok (q, r) /\
    Bigint2048.toBigInt q
    = Bigint2048.toBigInt (Bigint2048.const (-7)) / Bigint2048.toBigInt (Bigint2048.const 2) /\
    Bigint2048.toBigInt r
    = Bigint2048.toBigInt (Bigint2048.const (-7)) mod Bigint2048.toBigInt (Bigint2048.const 2) /\
    Bigint2048.toBigInt (Bigint2048.const 2) * Bigint2048.toBigInt q + Bigint2048.toBigInt r
    = Bigint2048.toBigInt (Bigint2048.const (-7)) /\
    Z.abs (Bigint2048.toBigInt r) < Z.abs (Bigint2048.toBigInt (Bigint2048.const 2)) /\
    (Bigint2048.toBigInt r = 0
     \/ Z.sgn (Bigint2048.toBigInt r) = Z.sgn (Bigint2048.toBigInt (Bigint2048.const 2))).
Proof.
  apply (proj1 (floorDiv_contract (Bigint2048.const (-7)) (Bigint2048.const 2)
                  ltac:(apply Limbs.wfb_wf; vm_compute; reflexivity)
                  ltac:(apply Limbs.wfb_wf; vm_compute; reflexivity)
                  ltac:(vm_compute; discriminate)));
    vm_compute; reflexivity.
Defined.

(** On a pair that satisfies the struct invariant, the divisor handed to
    [floorDiv] is never zero; a turn of the loop of [euclidGcd] that returns
    has kept the pair when its second number is zero, and has otherwise
    moved to the second number and the floor remainder; [euclidGcd], when
    it returns, has made nine such turns; and both return on nonnegative
    numbers below [2^2088 - 1]. *)
Theorem euclidGcd_nine_steps (p : GcdPair.t) :
  GcdPair.wf p ->
  Bigint2048.toBigInt (GcdPair.divisor p) <> 0 /\
  (forall next, GcdPair.euclidStep p = Ok next ->
     GcdPair.values next = gcd_step (GcdPair.values p) /\
     (snd (GcdPair.values p) = 0 -> next = p)) /\
  (forall p', GcdPair.euclidGcd p = Ok p' ->
     GcdPair.values p' = Nat.iter 9 gcd_step (GcdPair.values p)) /\
  (0 <= fst (GcdPair.values p) < 2 ^ 2088 - 1 ->
   0 <= snd (GcdPair.values p) < 2 ^ 2088 - 1 ->
   exists next p', GcdPair.euclidStep p = Ok next /\ GcdPair.euclidGcd p = Ok p').
Proof.
  intros W. split; [|split; [|split]].
  - destruct (Gcd.divisor_spec p W) as [_ ->].
    destruct (Z.eqb_spec (snd (GcdPair.values p)) 0); lia.
  - intros next E. split; [apply (Gcd.euclidStep_returns p next W E)|].
    intros Hz. unfold GcdPair.euclidStep in E.
    apply bind_Ok_inv in E. destruct E as ([q r] & _ & E).
    assert (Bigint2048.equals (GcdPair.g_1 p) Bigint2048.ZERO = true) as Ez.
    { rewrite Gcd.equals_ZERO by apply W. apply Z.eqb_eq. exact Hz. }
    rewrite Ez in E. unfold Bigint2048.select in E. destruct p as [g0 g1].
    cbn [GcdPair.g_0 GcdPair.g_1] in E. congruence.
  - intros p' E. apply (Gcd.loop_returns _ p p' W E).
  - intros H0 H1.
    destruct (Gcd.euclidStep_Ok p W H0 H1) as (next & E).
    destruct (Gcd.loop_Ok GCD_ITERATIONS_PER_PROOF p W H0 H1) as (p' & E').
    exists next, p'. split; [exact E | exact E'].
Qed.

Lemma euclidGcd_nine_steps_witness :
  exists next p',
    GcdPair.euclidStep (GcdPair.mk (Bigint2048.const 48) (Bigint2048.const 18)) = Ok next /\
    GcdPair.euclidGcd (GcdPair.mk (Bigint2048.const 48) (Bigint2048.const 18)) = Ok p'.
Proof.
  apply (proj2 (proj2 (proj2
           (euclidGcd_nine_steps (GcdPair.mk (Bigint2048.const 48) (Bigint2048.const 18))
              ltac:(split; apply Limbs.wfb_wf; vm_compute; reflexivity)))));
    vm_compute; (split; [discriminate | reflexivity]).
Defined.

(** For every pair of integers [a] and [b] with [0 <= a, b < 2^2088 - 1],
    the base case followed by steps of the chain until [isSolved] stops
    after finitely many steps, and the [g_0] it reaches is the greatest
    common divisor of [a] and [b]. *)
Theorem run_computes_gcd (a b : Z) :
  0 <= a < 2 ^ 2088 - 1 -> 0 <= b < 2 ^ 2088 - 1 ->
  exists fuel, GcdProgram.run fuel a b = Ok (Z.gcd a b).
Proof. exact (Chain.run_gcd_below_MAX a b). Qed.

Lemma run_computes_gcd_witness :
  exists fuel, GcdProgram.run fuel 48 18 = Ok (Z.gcd 48 18).
Proof. apply (run_computes_gcd 48 18); lia. Defined.

(** ** The other comparisons and assertions *)

Module Order.
Import Bigint2048.

Lemma cmp_codes (d : Z) :
  Field.equals (Ordering_of_sign d) Less = (d <? 0) /\
  Field.equals (Ordering_of_sign d) Equal = (d =? 0) /\
  Field.equals (Ordering_of_sign d) Greater = (0 <? d).
Proof. destruct d; repeat split; reflexivity. Qed.

End Order.

(** The four comparisons return the order of the integer values. *)
Theorem comparisons_by_value (a b : Bigint2048.t) :
  Bigint2048.wf a -> Bigint2048.wf b ->
  Bigint2048.lessThan a b = Ok (Bigint2048.toBigInt a <? Bigint2048.toBigInt b) /\
  Bigint2048.lessThanOrEqual a b
  = Ok (Bigint2048.toBigInt a <=? Bigint2048.toBigInt b) /\
  Bigint2048.greaterThan a b = Ok (Bigint2048.toBigInt b <? Bigint2048.toBigInt a) /\
  Bigint2048.greaterThanOrEqual a b
  = Ok (Bigint2048.toBigInt b <=? Bigint2048.toBigInt a).
Proof.
  intros Ha Hb.
  unfold Bigint2048.lessThan, Bigint2048.lessThanOrEqual, Bigint2048.greaterThan,
    Bigint2048.greaterThanOrEqual.
  rewrite (Compare.cmp_spec a b Ha Hb). cbn [bind].
  destruct (Order.cmp_codes (Bigint2048.toBigInt a - Bigint2048.toBigInt b))
    as (-> & _ & ->).
  set (A := Bigint2048.toBigInt a). set (B := Bigint2048.toBigInt b).
  repeat (apply conj); f_equal;
    destruct (Z.ltb_spec (A - B) 0), (Z.ltb_spec 0 (A - B));
    try destruct (Z.ltb_spec A B); try destruct (Z.leb_spec A B);
    try destruct (Z.ltb_spec B A); try destruct (Z.leb_spec B A);
    try reflexivity; lia.
Qed.

Lemma comparisons_by_value_witness :
  Bigint2048.lessThanOrEqual (Bigint2048.mk true (repeat 0 18)) (Bigint2048.const 0)
  = Ok (Bigint2048.toBigInt (Bigint2048.mk true (repeat 0 18))
        <=? Bigint2048.toBigInt (Bigint2048.const 0)).
Proof.
  apply (comparisons_by_value (Bigint2048.mk true (repeat 0 18)) (Bigint2048.const 0));
    apply Limbs.wfb_wf; vm_compute; reflexivity.
Defined.

(** Each assertion of an order succeeds exactly when the integer values
    are in that order. *)
Theorem assertions_by_value (a b : Bigint2048.t) :
  Bigint2048.wf a -> Bigint2048.wf b ->
  (Bigint2048.assertEquals a b = Ok tt
   <-> Bigint2048.toBigInt a = Bigint2048.toBigInt b) /\
  (Bigint2048.assertNotEquals a b = Ok tt
   <-> Bigint2048.toBigInt a <> Bigint2048.toBigInt b) /\
  (Bigint2048.assertLessThan a b = Ok tt
   <-> Bigint2048.toBigInt a < Bigint2048.toBigInt b) /\
  (Bigint2048.assertLessThanOrEqual a b = Ok tt
   <-> Bigint2048.toBigInt a <= Bigint2048.toBigInt b) /\
  (Bigint2048.assertGreaterThan a b = Ok tt
   <-> Bigint2048.toBigInt b < Bigint2048.toBigInt a) /\
  (Bigint2048.assertGreaterThanOrEqual a b = Ok tt
   <-> Bigint2048.toBigInt b <= Bigint2048.toBigInt a).
Proof.
  intros Ha Hb.
  unfold Bigint2048.assertEquals, Bigint2048.assertNotEquals,
    Bigint2048.assertLessThan, Bigint2048.assertLessThanOrEqual,
    Bigint2048.assertGreaterThan, Bigint2048.assertGreaterThanOrEqual.
  rewrite (Compare.cmp_spec a b Ha Hb), (Compare.equals_spec a b Ha Hb). cbn [bind].
  unfold Field.assertEquals, Field.assertNotEquals.
  destruct (Order.cmp_codes (Bigint2048.toBigInt a - Bigint2048.toBigInt b))
    as (-> & _ & ->).
  rewrite !assertTrue_Ok, !assertFalse_Ok.
  rewrite Z.eqb_eq, Z.eqb_neq, !Z.ltb_lt, !Z.ltb_ge. lia.
Qed.

Lemma assertions_by_value_witness :
  Bigint2048.assertLessThanOrEqual (Bigint2048.const (-4)) (Bigint2048.const 3) = Ok tt
  <-> Bigint2048.toBigInt (Bigint2048.const (-4)) <= Bigint2048.toBigInt (Bigint2048.const 3).
Proof.
  apply (assertions_by_value (Bigint2048.const (-4)) (Bigint2048.const 3));
    apply Limbs.wfb_wf; vm_compute; reflexivity.
Defined.

(** [add] returns the sum of the integer values exactly when the magnitudes
    add up to less than [2^2088], whatever the signs, and fails the
    assertion on the last carry of its magnitude-sum loop otherwise; [sub]
    does the same for the difference. *)
Theorem add_sub_exact (a b : Bigint2048.t) :
  Bigint2048.wf a -> Bigint2048.wf b ->
  (Z.abs (Bigint2048.toBigInt a) + Z.abs (Bigint2048.toBigInt b) < 2 ^ 2088 ->
   (exists s, Bigint2048.add a b = Ok s /\ Bigint2048.wf s /\
              Bigint2048.toBigInt s = Bigint2048.toBigInt a + Bigint2048.toBigInt b) /\
   (exists d, Bigint2048.sub a b = Ok d /\ Bigint2048.wf d /\
              Bigint2048.toBigInt d = Bigint2048.toBigInt a - Bigint2048.toBigInt b))
  /\ (2 ^ 2088 <= Z.abs (Bigint2048.toBigInt a) + Z.abs (Bigint2048.toBigInt b) ->
      Bigint2048.add a b = Err AssertionFailed /\
      Bigint2048.sub a b = Err AssertionFailed).
Proof.
  intros Ha Hb.
  assert (Bigint2048.MAX_value = 2 ^ 2088 - 1) as EM by reflexivity.
  pose proof (Add.wf_neg b Hb) as Wn. pose proof (Add.toBigInt_neg b) as Vn.
  unfold Bigint2048.sub. split; intros H.
  - split.
    + apply Add.add_Ok; auto. lia.
    + destruct (Add.add_Ok a (Bigint2048.neg b) Ha Wn ltac:(lia)) as (d & E & W & V).
      exists d. repeat split; auto; try apply W. lia.
  - split; apply Add.add_Err; auto; lia.
Qed.

Lemma add_sub_exact_witness :
  Bigint2048.add Bigint2048.MAX (Bigint2048.const (-1)) = Err AssertionFailed /\
  Bigint2048.sub Bigint2048.MAX (Bigint2048.const (-1)) = Err AssertionFailed.
Proof.
  apply (proj2 (add_sub_exact Bigint2048.MAX (Bigint2048.const (-1))
                  ltac:(apply Limbs.wfb_wf; vm_compute; reflexivity)
                  ltac:(apply Limbs.wfb_wf; vm_compute; reflexivity))).
  vm_compute. discriminate.
Defined.

(** ** Range checks, once more *)

(** On a field element, [rangeCheck128Signed] succeeds exactly when the
    element stands for an integer of [[-2^127, 2^127)]. *)
Theorem rangeCheck128Signed_range (c : Z) :
  Field.is_elt c ->
  (rangeCheck128Signed c = Ok tt
   <-> exists s, - 2 ^ 127 <= s < 2 ^ 127 /\ c = s mod Field.ORDER).
Proof.
  intros Hc. split.
  - apply Multiply.rangeCheck128Signed_inv. exact Hc.
  - intros (s & Hs & ->). apply Multiply.rangeCheck128Signed_Ok. exact Hs.
Qed.

Lemma rangeCheck128Signed_range_witness :
  rangeCheck128Signed (Field.ORDER - 1) = Ok tt
  <-> exists s, - 2 ^ 127 <= s < 2 ^ 127 /\ Field.ORDER - 1 = s mod Field.ORDER.
Proof.
  apply (rangeCheck128Signed_range (Field.ORDER - 1)).
  unfold Field.is_elt, Field.ORDER. lia.
Defined.

Module Check.
Import Bigint2048.

Lemma rangeCheck116_inv (x : Z) :
  Field.is_elt x -> rangeCheck116 x = Ok tt -> 0 <= x < MODULUS.
Proof.
  intros Hx H. rewrite MODULUS_eq. unfold rangeCheck116 in H.
  eapply RangeCheck.constraints_sound; [exact Hx | | | exact H];
    apply Z.mod_pos_bound; reflexivity.
Qed.

Lemma check_limbs_inv (l : list Z) :
  Forall Field.is_elt l -> check_limbs l = Ok tt -> in_range l.
Proof.
  induction 1 as [|x l Hx _ IH]; intros H; [constructor|].
  cbn [check_limbs] in H. apply bind_Ok_inv in H. destruct H as ([] & H1 & H2).
  apply Limbs.in_range_cons. split; [apply rangeCheck116_inv; assumption | auto].
Qed.

End Check.

(** On eighteen limbs that are field elements, [check] succeeds exactly
    when every limb is below [2^116]; it does not look at the sign. *)
Theorem check_accepts_limbs_in_range (x : Bigint2048.t) :
  length (Bigint2048.fields x) = LIMB_NUM ->
  Forall Field.is_elt (Bigint2048.fields x) ->
  (Bigint2048.check x = Ok tt
   <-> Forall (fun limb => 0 <= limb < 2 ^ 116) (Bigint2048.fields x)).
Proof.
  intros _ H. change (Forall (fun limb => 0 <= limb < 2 ^ 116) (Bigint2048.fields x))
    with (Bigint2048.in_range (Bigint2048.fields x)).
  split.
  - apply Check.check_limbs_inv. exact H.
  - apply RangeCheck.check_limbs_Ok.
Qed.

Lemma check_accepts_limbs_in_range_witness :
  Bigint2048.check (Bigint2048.mk true (2 ^ 116 :: repeat 0 17)) = Ok tt
  <-> Forall (fun limb => 0 <= limb < 2 ^ 116)
        (Bigint2048.fields (Bigint2048.mk true (2 ^ 116 :: repeat 0 17))).
Proof.
  apply (check_accepts_limbs_in_range (Bigint2048.mk true (2 ^ 116 :: repeat 0 17))).
  - reflexivity.
  - cbn [Bigint2048.fields repeat]. repeat constructor; unfold Field.ORDER; lia.
Defined.

(** Reading a value that satisfies the struct invariant with [toBigInt]
    and building it again with [from] gives back its limbs, and its sign
    bit unless the value is the negative zero, whose sign bit is cleared. *)
Theorem from_toBigInt_normalises (a : Bigint2048.t) :
  Bigint2048.wf a ->
  exists a',
    Bigint2048.from (Bigint2048.toBigInt a) = Ok a' /\
    Bigint2048.fields a' = Bigint2048.fields a /\
    Bigint2048.negative a' = (Bigint2048.negative a && negb (Bigint2048.isZero a)).
Proof.
  intros Ha.
  destruct (Limbs.from_Ok (Bigint2048.toBigInt a) (Limbs.toBigInt_bound a Ha))
    as (a' & E & [L' R'] & _ & N & M).
  exists a'. split; [exact E|].
  rewrite <- (Add.magnitude_abs a Ha) in M.
  rewrite (Compare.isZero_spec a Ha), N.
  destruct Ha as [L R]. pose proof (Limbs.magnitude_bound _ R) as B.
  split.
  - apply Limbs.magnitude_inj; auto. congruence.
  - unfold Bigint2048.toBigInt.
    destruct (Bigint2048.negative a); cbn [andb];
      repeat match goal with
             | |- context [?x <? ?y] => destruct (Z.ltb_spec x y)
             | |- context [?x =? ?y] => destruct (Z.eqb_spec x y)
             end; cbn [negb]; try reflexivity; lia.
Qed.

Lemma from_toBigInt_normalises_witness :
  exists a',
    Bigint2048.from (Bigint2048.toBigInt (Bigint2048.mk true (repeat 0 18))) = Ok a' /\
    Bigint2048.fields a' = Bigint2048.fields (Bigint2048.mk true (repeat 0 18)) /\
    Bigint2048.negative a'
    = (Bigint2048.negative (Bigint2048.mk true (repeat 0 18))
       && negb (Bigint2048.isZero (Bigint2048.mk true (repeat 0 18)))).
Proof.
  apply (from_toBigInt_normalises (Bigint2048.mk true (repeat 0 18))).
  apply Limbs.wfb_wf. vm_compute. reflexivity.
Defined.

(** ** The termination predicate and the continuity check *)





(** ** Truncating and exact division *)

Module Trunc.
Import Bigint2048.

Lemma quot_rem_facts (A Y : Z) :
  Y <> 0 ->
  A = Y * Z.quot A Y + Z.rem A Y /\
  Z.abs (Z.rem A Y) < Z.abs Y /\
  Z.abs (Y * Z.quot A Y) + Z.abs (Z.rem A Y) = Z.abs A /\
  Z.abs (Z.quot A Y) <= Z.abs A /\
  (Z.rem A Y <> 0 -> (Z.rem A Y <? 0) = (A <? 0)).
Proof.
  intros HY. pose proof (Z.quot_rem' A Y) as Hqr.
  pose proof (Z.rem_bound_abs A Y HY) as Hb.
  destruct (Multiply.quot_rem_abs A Y HY) as (Hid & _ & _).
  replace (A - Z.quot A Y * Y) with (Z.rem A Y) in Hid by lia.
  rewrite Z.abs_mul.
  split; [exact Hqr|]. split; [exact Hb|]. split; [lia|]. split; [nia|].
  intros Hnz. pose proof (Z.rem_sign_nz A Y HY Hnz) as Hs.
  destruct (Z.ltb_spec (Z.rem A Y) 0), (Z.ltb_spec A 0); auto; lia.
Qed.

(** The product of the divisor and the truncated quotient, as [mul]
    returns it: zero instead of the dividend when the dividend has the
    magnitude of [MAX] and the division is exact. *)
Lemma mul_quot (a y vq : t) :
  wf a -> wf y -> wf vq -> toBigInt y <> 0 ->
  toBigInt vq = Z.quot (toBigInt a) (toBigInt y) ->
  exists yq, mul y vq = Ok yq /\ wf yq /\
    toBigInt yq
    = (if (Z.abs (toBigInt a) =? MAX_value) && (Z.rem (toBigInt a) (toBigInt y) =? 0)
       then 0 else toBigInt a - Z.rem (toBigInt a) (toBigInt y)).
Proof.
  intros Ha Hy Wq Hy0 Vq.
  destruct (quot_rem_facts (toBigInt a) (toBigInt y) Hy0) as (Hqr & Hb & Hsum & _ & _).
  pose proof (Limbs.toBigInt_bound a Ha) as Ba.
  pose proof Multiply.MAX_value_pos as HM.
  destruct (Z.eqb_spec (Z.abs (toBigInt a)) MAX_value) as [Emax|Nmax];
    destruct (Z.eqb_spec (Z.rem (toBigInt a) (toBigInt y)) 0) as [Er|Nr]; cbn [andb].
  - destruct (Multiply.mul_spec y vq Hy Wq) as (yq & E & W & N & M).
    exists yq. split; [exact E|]. split; [exact W|].
    rewrite (Multiply.toBigInt_sign yq), M, Vq, <- Z.abs_mul.
    replace (Z.abs (toBigInt y * Z.quot (toBigInt a) (toBigInt y))) with MAX_value by lia.
    rewrite Z.mod_same by lia. lia.
  - destruct (Multiply.mul_exact y vq Hy Wq ltac:(rewrite Vq; lia)) as (yq & E & W & V).
    exists yq. rewrite V, Vq. auto with zarith.
  - destruct (Multiply.mul_exact y vq Hy Wq ltac:(rewrite Vq; lia)) as (yq & E & W & V).
    exists yq. rewrite V, Vq. auto with zarith.
  - destruct (Multiply.mul_exact y vq Hy Wq ltac:(rewrite Vq; lia)) as (yq & E & W & V).
    exists yq. rewrite V, Vq. auto with zarith.
Qed.

Lemma negative_of_value (a : t) :
  wf a -> toBigInt a <> 0 -> negative a = (toBigInt a <? 0).
Proof.
  intros [_ R] H. pose proof (Limbs.magnitude_bound _ R).
  unfold toBigInt in *.
  destruct (negative a);
    match goal with |- _ = (?x <? 0) => destruct (Z.ltb_spec x 0) end; auto; lia.
Qed.

Lemma truncDiv_Ok (a y : t) :
  wf a -> wf y -> toBigInt y <> 0 ->
  ~ (Z.abs (toBigInt a) = MAX_value /\ Z.rem (toBigInt a) (toBigInt y) = 0) ->
  exists q r, truncDiv a y = Ok (q, r) /\ wf q /\ wf r /\
              toBigInt q = Z.quot (toBigInt a) (toBigInt y) /\
              toBigInt r = Z.rem (toBigInt a) (toBigInt y).
Proof.
  intros Ha Hy Hy0 Hok. unfold truncDiv.
  unfold assertNotEquals. rewrite Compare.equals_spec by (auto; exact Multiply.wf_ZERO).
  rewrite Multiply.toBigInt_ZERO.
  destruct (Z.eqb_spec (toBigInt y) 0) as [|_]; [contradiction|]. cbn [assertFalse bind].
  unfold truncDiv_witness. cbv zeta.
  destruct (Z.eqb_spec (toBigInt y) 0) as [|_]; [contradiction|].
  destruct (quot_rem_facts (toBigInt a) (toBigInt y) Hy0) as (Hqr & Hb & Hsum & Hq & Hsgn).
  pose proof (Limbs.toBigInt_bound a Ha) as Ba.
  pose proof (Limbs.toBigInt_bound y Hy) as By.
  destruct (Limbs.from_Ok (Z.quot (toBigInt a) (toBigInt y)) ltac:(lia))
    as (vq & Eq & Wq & Vq & _).
  destruct (Limbs.from_Ok (Z.rem (toBigInt a) (toBigInt y)) ltac:(lia))
    as (vr & Er & Wr & Vr & Nr & _).
  rewrite Eq, Er. cbn [bind].
  rewrite (RangeCheck.check_Ok vq Wq), (RangeCheck.check_Ok vr Wr). cbn [bind].
  destruct (mul_quot a y vq Ha Hy Wq Hy0 Vq) as (yq & Em & Wm & Vm).
  assert ((Z.abs (toBigInt a) =? MAX_value) && (Z.rem (toBigInt a) (toBigInt y) =? 0)
          = false) as Hf.
  { destruct (Z.eqb_spec (Z.abs (toBigInt a)) MAX_value),
      (Z.eqb_spec (Z.rem (toBigInt a) (toBigInt y)) 0); auto. tauto. }
  rewrite Hf in Vm. rewrite Em. cbn [bind].
  destruct (Add.add_Ok yq vr Wm Wr ltac:(rewrite Vm, Vr; lia)) as (s & Es & Ws & Vs).
  rewrite Es. cbn [bind].
  unfold assertEquals. rewrite Compare.equals_spec by assumption.
  rewrite Vs, Vm, Vr.
  replace (toBigInt a - Z.rem (toBigInt a) (toBigInt y) + Z.rem (toBigInt a) (toBigInt y))
    with (toBigInt a) by ring.
  rewrite Z.eqb_refl. cbn [assertTrue bind].
  rewrite Compare.equals_spec by (auto; exact Multiply.wf_ZERO).
  rewrite Multiply.toBigInt_ZERO, Vr, Nr.
  assert ((Z.rem (toBigInt a) (toBigInt y) =? 0)
          || Bool.eqb (Z.rem (toBigInt a) (toBigInt y) <? 0) (negative a) = true) as ->.
  { destruct (Z.eqb_spec (Z.rem (toBigInt a) (toBigInt y)) 0) as [|Hnz]; [reflexivity|].
    cbn [orb]. rewrite (Hsgn Hnz).
    rewrite (negative_of_value a Ha) by (intros E0; rewrite E0, Z.rem_0_l in Hnz; auto).
    apply eqb_reflx. }
  cbn [assertTrue bind].
  unfold assertLessThan.
  rewrite Compare.cmp_spec by (apply Add.wf_abs; assumption).
  rewrite !Add.toBigInt_abs by assumption. rewrite Vr.
  rewrite Compare.Ordering_of_sign_lt by lia. cbn [bind].
  change (Field.assertEquals Less Less) with (Ok tt). cbn [bind].
  exists vq, vr. auto.
Qed.

Lemma truncDiv_Err (a y : t) :
  wf a -> wf y ->
  toBigInt y = 0
  \/ (Z.abs (toBigInt a) = MAX_value /\ Z.rem (toBigInt a) (toBigInt y) = 0) ->
  truncDiv a y = Err AssertionFailed.
Proof.
  intros Ha Hy Hbad. unfold truncDiv.
  unfold assertNotEquals. rewrite Compare.equals_spec by (auto; exact Multiply.wf_ZERO).
  rewrite Multiply.toBigInt_ZERO.
  destruct (Z.eqb_spec (toBigInt y) 0) as [|Hy0]; [reflexivity|]. cbn [assertFalse bind].
  destruct Hbad as [|[Hmax Hrem]]; [contradiction|].
  unfold truncDiv_witness. cbv zeta.
  destruct (Z.eqb_spec (toBigInt y) 0) as [|_]; [contradiction|].
  destruct (quot_rem_facts (toBigInt a) (toBigInt y) Hy0) as (Hqr & Hb & Hsum & Hq & Hsgn).
  pose proof (Limbs.toBigInt_bound a Ha) as Ba.
  pose proof Multiply.MAX_value_pos as HM.
  destruct (Limbs.from_Ok (Z.quot (toBigInt a) (toBigInt y)) ltac:(lia))
    as (vq & Eq & Wq & Vq & _).
  destruct (Limbs.from_Ok (Z.rem (toBigInt a) (toBigInt y)) ltac:(lia))
    as (vr & Er & Wr & Vr & Nr & _).
  rewrite Eq, Er. cbn [bind].
  rewrite (RangeCheck.check_Ok vq Wq), (RangeCheck.check_Ok vr Wr). cbn [bind].
  destruct (mul_quot a y vq Ha Hy Wq Hy0 Vq) as (yq & Em & Wm & Vm).
  rewrite Hmax, Hrem, !Z.eqb_refl in Vm. cbn [andb] in Vm.
  rewrite Em. cbn [bind].
  destruct (Add.add_Ok yq vr Wm Wr ltac:(rewrite Vm, Vr, Hrem; simpl; lia))
    as (s & Es & Ws & Vs).
  rewrite Es. cbn [bind].
  unfold assertEquals. rewrite Compare.equals_spec by assumption.
  rewrite Vs, Vm, Vr, Hrem.
  destruct (Z.eqb_spec (0 + 0) (toBigInt a)); [lia | reflexivity].
Qed.

Lemma divExact_Ok (a y : t) :
  wf a -> wf y -> toBigInt y <> 0 ->
  Z.rem (toBigInt a) (toBigInt y) = 0 -> Z.abs (toBigInt a) <> MAX_value ->
  exists q, divExact a y = Ok q /\ wf q /\
            toBigInt q = Z.quot (toBigInt a) (toBigInt y).
Proof.
  intros Ha Hy Hy0 Hrem Hmax. unfold divExact, divExact_witness.
  destruct (Z.eqb_spec (toBigInt y) 0) as [|_]; [contradiction|].
  destruct (quot_rem_facts (toBigInt a) (toBigInt y) Hy0) as (Hqr & Hb & Hsum & Hq & Hsgn).
  pose proof (Limbs.toBigInt_bound a Ha) as Ba.
  destruct (Limbs.from_Ok (Z.quot (toBigInt a) (toBigInt y)) ltac:(lia))
    as (vq & Eq & Wq & Vq & _).
  rewrite Eq. cbn [bind]. rewrite (RangeCheck.check_Ok vq Wq). cbn [bind].
  destruct (mul_quot a y vq Ha Hy Wq Hy0 Vq) as (yq & Em & Wm & Vm).
  rewrite Hrem in Vm.
  destruct (Z.eqb_spec (Z.abs (toBigInt a)) MAX_value) as [|_]; [contradiction|].
  cbn [andb] in Vm. rewrite Em. cbn [bind].
  unfold assertEquals. rewrite Compare.equals_spec by assumption.
  rewrite Vm, Z.sub_0_r, Z.eqb_refl. cbn [assertTrue bind].
  exists vq. auto.
Qed.

Lemma divExact_Err (a y : t) :
  wf a -> wf y -> toBigInt y <> 0 ->
  Z.rem (toBigInt a) (toBigInt y) <> 0 \/ Z.abs (toBigInt a) = MAX_value ->
  divExact a y = Err AssertionFailed.
Proof.
  intros Ha Hy Hy0 Hbad. unfold divExact, divExact_witness.
  destruct (Z.eqb_spec (toBigInt y) 0) as [|_]; [contradiction|].
  destruct (quot_rem_facts (toBigInt a) (toBigInt y) Hy0) as (Hqr & Hb & Hsum & Hq & Hsgn).
  pose proof (Limbs.toBigInt_bound a Ha) as Ba.
  pose proof Multiply.MAX_value_pos as HM.
  destruct (Limbs.from_Ok (Z.quot (toBigInt a) (toBigInt y)) ltac:(lia))
    as (vq & Eq & Wq & Vq & _).
  rewrite Eq. cbn [bind]. rewrite (RangeCheck.check_Ok vq Wq). cbn [bind].
  destruct (mul_quot a y vq Ha Hy Wq Hy0 Vq) as (yq & Em & Wm & Vm).
  rewrite Em. cbn [bind].
  unfold assertEquals. rewrite Compare.equals_spec by assumption. rewrite Vm.
  destruct (Z.eqb_spec (Z.abs (toBigInt a)) MAX_value) as [Emax|Nmax];
    destruct (Z.eqb_spec (Z.rem (toBigInt a) (toBigInt y)) 0) as [Er|Nr]; cbn [andb];
    match goal with
    | |- context [?x =? ?z] => destruct (Z.eqb_spec x z)
    end; try reflexivity; lia.
Qed.

End Trunc.

(** For a dividend and a divisor that satisfy the struct invariant:
    [truncDiv] returns the truncated quotient and the remainder, which has
    the sign of the dividend, unless the divisor is zero or the dividend
    has the magnitude [2^2088 - 1] and the division is exact; in these two
    cases it fails an assertion. *)
Theorem truncDiv_contract (a b : Bigint2048.t) :
  Bigint2048.wf a -> Bigint2048.wf b ->
  (Bigint2048.toBigInt b <> 0 ->
   ~ (Z.abs (Bigint2048.toBigInt a) = 2 ^ 2088 - 1 /\
      Z.rem (Bigint2048.toBigInt a) (Bigint2048.toBigInt b) = 0) ->
   exists q r,
     Bigint2048.truncDiv a b = Ok (q, r) /\
     Bigint2048.toBigInt q = Z.quot (Bigint2048.toBigInt a) (Bigint2048.toBigInt b) /\
     Bigint2048.toBigInt r = Z.rem (Bigint2048.toBigInt a) (Bigint2048.toBigInt b) /\
     Bigint2048.toBigInt b * Bigint2048.toBigInt q + Bigint2048.toBigInt r
     = Bigint2048.toBigInt a /\
     Z.abs (Bigint2048.toBigInt r) < Z.abs (Bigint2048.toBigInt b) /\
     (Bigint2048.toBigInt r = 0
      \/ Z.sgn (Bigint2048.toBigInt r) = Z.sgn (Bigint2048.toBigInt a)))
  /\ (Bigint2048.toBigInt b = 0
      \/ (Z.abs (Bigint2048.toBigInt a) = 2 ^ 2088 - 1 /\
          Z.rem (Bigint2048.toBigInt a) (Bigint2048.toBigInt b) = 0) ->
      Bigint2048.truncDiv a b = Err AssertionFailed).
Proof.
  intros Ha Hb. change (2 ^ 2088 - 1) with Bigint2048.MAX_value. split.
  - intros Hb0 Hok.
    destruct (Trunc.truncDiv_Ok a b Ha Hb Hb0 Hok) as (q & r & E & _ & _ & Vq & Vr).
    exists q, r. rewrite Vq, Vr. split; [exact E|].
    pose proof (Z.quot_rem' (Bigint2048.toBigInt a) (Bigint2048.toBigInt b)).
    pose proof (Z.rem_bound_abs (Bigint2048.toBigInt a) (Bigint2048.toBigInt b) Hb0).
    repeat split; auto; try lia.
    destruct (Z.eq_dec (Z.rem (Bigint2048.toBigInt a) (Bigint2048.toBigInt b)) 0)
      as [|Hnz]; [left; assumption | right].
    apply Z.rem_sign_nz; assumption.
  - apply Trunc.truncDiv_Err; assumption.
Qed.

Lemma truncDiv_contract_witness :
  Bigint2048.truncDiv Bigint2048.MAX (Bigint2048.const 3) = Err AssertionFailed.
Proof.
  apply (proj2 (truncDiv_contract Bigint2048.MAX (Bigint2048.const 3)
                  ltac:(apply Limbs.wfb_wf; vm_compute; reflexivity)
                  ltac:(apply Limbs.wfb_wf; vm_compute; reflexivity))).
  right. split; vm_compute; reflexivity.
Defined.

(** For a dividend and a divisor that satisfy the struct invariant:
    [divExact] throws the division error of its witness on the divisor
    zero, which it does not assert away; it returns the quotient when the
    divisor divides the dividend and the dividend does not have the
    magnitude [2^2088 - 1]; and it fails its assertion otherwise. *)
Theorem divExact_contract (a b : Bigint2048.t) :
  Bigint2048.wf a -> Bigint2048.wf b ->
  (Bigint2048.toBigInt b = 0 -> Bigint2048.divExact a b = Err DivisionByZero)
  /\ (Bigint2048.toBigInt b <> 0 ->
      (Bigint2048.toBigInt b | Bigint2048.toBigInt a) ->
      Z.abs (Bigint2048.toBigInt a) <> 2 ^ 2088 - 1 ->
      exists q, Bigint2048.divExact a b = Ok q /\ Bigint2048.wf q /\
                Bigint2048.toBigInt b * Bigint2048.toBigInt q = Bigint2048.toBigInt a)
  /\ (Bigint2048.toBigInt b <> 0 ->
      ~ (Bigint2048.toBigInt b | Bigint2048.toBigInt a)
      \/ Z.abs (Bigint2048.toBigInt a) = 2 ^ 2088 - 1 ->
      Bigint2048.divExact a b = Err AssertionFailed).
Proof.
  intros Ha Hb. change (2 ^ 2088 - 1) with Bigint2048.MAX_value. split; [|split].
  - intros H0. unfold Bigint2048.divExact, Bigint2048.divExact_witness.
    rewrite H0. reflexivity.
  - intros Hb0 Hdiv Hmax. apply Z.rem_divide in Hdiv; [|exact Hb0].
    destruct (Trunc.divExact_Ok a b Ha Hb Hb0 Hdiv Hmax) as (q & E & W & V).
    exists q. split; [exact E|]. split; [exact W|]. rewrite V.
    pose proof (Z.quot_rem' (Bigint2048.toBigInt a) (Bigint2048.toBigInt b)). lia.
  - intros Hb0 Hbad. apply Trunc.divExact_Err; auto.
    destruct Hbad as [Hnd|Hmax]; [left | right; exact Hmax].
    intros Hrem. apply Hnd. apply Z.rem_divide; assumption.
Qed.

Lemma divExact_contract_witness :
  Bigint2048.divExact (Bigint2048.const 7) (Bigint2048.const 2) = Err AssertionFailed.
Proof.
  apply (proj2 (proj2 (divExact_contract (Bigint2048.const 7) (Bigint2048.const 2)
                  ltac:(apply Limbs.wfb_wf; vm_compute; reflexivity)
                  ltac:(apply Limbs.wfb_wf; vm_compute; reflexivity)))).
  - vm_compute. discriminate.
  - left. intros [k Hk].
    assert (Bigint2048.toBigInt (Bigint2048.const 7) = 7) as E7 by (vm_compute; reflexivity).
    assert (Bigint2048.toBigInt (Bigint2048.const 2) = 2) as E2 by (vm_compute; reflexivity).
    rewrite E7, E2 in Hk. lia.
Defined.

(** ** Squares *)

Module Square.
Import Bigint2048.

(** The inner loop of a square adds twice the product of limb [i] and of
    the limbs below it. *)
Lemma square_row_Z (X : list Z) (i : nat) (delta : list Z) (K : Z) :
  (2 * i < length delta)%nat -> in_range X ->
  Forall (fun v => Z.abs v <= K) delta ->
  let d :=
    for_loop i
      (fun j d => update (i + j) (fun v => v + nth i X 0 * nth j X 0 * 2) d) delta in
  length d = length delta /\
  magnitude d = magnitude delta
                + 2 * nth i X 0 * magnitude (firstn i X) * MODULUS ^ Z.of_nat i /\
  Forall (fun v => Z.abs v <= K + Z.of_nat i * (2 * (MODULUS * MODULUS))) d.
Proof.
  pose proof MODULUS_pos as HB. intros Hlen HX HK.
  pose proof (Multiply.nth_in_range i X HX) as Hi.
  apply (for_loop_inv
           (fun j d =>
              (j <= i)%nat ->
              length d = length delta /\
              magnitude d = magnitude delta
                            + 2 * nth i X 0 * magnitude (firstn j X) * MODULUS ^ Z.of_nat i /\
              Forall (fun v => Z.abs v <= K + Z.of_nat j * (2 * (MODULUS * MODULUS))) d));
    [| |lia].
  - intros _. cbn [firstn]. rewrite Limbs.magnitude_nil.
    repeat split; [lia|]. eapply Forall_impl; [|exact HK]. simpl. intros; lia.
  - intros j d Hj IH _. destruct (IH ltac:(lia)) as (Hl & Hm & Hb).
    pose proof (Multiply.nth_in_range j X HX) as Hn.
    split; [rewrite Multiply.length_update; exact Hl|]. split.
    + rewrite Multiply.magnitude_update by lia. rewrite Hm, Multiply.magnitude_firstn_S.
      rewrite Nat2Z.inj_add, Z.pow_add_r by lia. ring.
    + eapply Multiply.Forall_update; [| |exact Hb]; cbv beta; intros v Hv.
      * rewrite Nat2Z.inj_succ. nia.
      * rewrite Nat2Z.inj_succ.
        assert (0 <= nth i X 0 * nth j X 0 <= MODULUS * MODULUS) by nia. nia.
Qed.

Lemma compute_delta_Z_square (X Y Q R P : list Z) :
  length X = LIMB_NUM -> length Q = LIMB_NUM ->
  length R = LIMB_NUM -> length P = LIMB_NUM ->
  in_range X -> in_range Q -> in_range R -> in_range P ->
  let d := compute_delta Z.add Z.sub Z.mul true X Y Q R P in
  length d = (2 * LIMB_NUM - 1)%nat /\
  magnitude d = magnitude X * magnitude X - magnitude Q * magnitude P - magnitude R /\
  Forall (fun v => Z.abs v <= delta_bound) d.
Proof.
  pose proof MODULUS_pos as HB.
  intros LX LQ LR LP RX RQ RR RP d.
  set (step := 54 * (MODULUS * MODULUS)).
  assert (length d = (2 * LIMB_NUM - 1)%nat /\
          magnitude d = magnitude (firstn LIMB_NUM X) * magnitude (firstn LIMB_NUM X)
                        - magnitude (firstn LIMB_NUM Q) * magnitude P
                        - magnitude (firstn LIMB_NUM R) /\
          Forall (fun v => Z.abs v <= Z.of_nat LIMB_NUM * step) d) as (Hl & Hm & Hb).
  { subst d. unfold compute_delta.
    apply (for_loop_inv
             (fun i d =>
                (i <= LIMB_NUM)%nat ->
                length d = (2 * LIMB_NUM - 1)%nat /\
                magnitude d = magnitude (firstn i X) * magnitude (firstn i X)
                              - magnitude (firstn i Q) * magnitude P
                              - magnitude (firstn i R) /\
                Forall (fun v => Z.abs v <= Z.of_nat i * step) d)); [| |lia].
    - intros _. split; [apply repeat_length|]. split.
      + cbn [firstn]. rewrite Limbs.magnitude_nil.
        assert (forall n, magnitude (repeat 0 n) = 0) as E.
        { induction n as [|n IHn]; cbn [repeat];
            rewrite ?Limbs.magnitude_cons, ?IHn; [reflexivity | lia]. }
        rewrite E. lia.
      + apply Forall_forall. intros v Hv. apply repeat_spec in Hv. subst v. simpl. lia.
    - intros i d0 Hi IH _. destruct (IH ltac:(lia)) as (Hl & Hm & Hb).
      unfold delta_step.
      pose proof (Multiply.nth_in_range i X RX) as HXi.
      pose proof (Multiply.nth_in_range i Q RQ) as HQi.
      pose proof (Multiply.nth_in_range i R RR) as HRi.
      pose proof (square_row_Z X i d0 (Z.of_nat i * step)
                    ltac:(rewrite Hl; unfold LIMB_NUM in *; lia) RX Hb) as H1.
      cbv zeta in H1. destruct H1 as (Hl1 & Hm1 & Hb1).
      set (d1 := for_loop i _ d0) in *.
      set (d1' := update (2 * i) (fun v => v + nth i X 0 * nth i X 0) d1).
      assert (length d1' = length d0) as Hl1' by (unfold d1'; rewrite Multiply.length_update; exact Hl1).
      assert (magnitude d1' = magnitude d1 + nth i X 0 * nth i X 0 * MODULUS ^ Z.of_nat (2 * i))
        as Hm1'.
      { unfold d1'. rewrite Multiply.magnitude_update
          by (rewrite Hl1, Hl; unfold LIMB_NUM in *; lia). ring. }
      assert (Forall (fun v => Z.abs v
                               <= Z.of_nat i * step + Z.of_nat i * (2 * (MODULUS * MODULUS))
                                  + MODULUS * MODULUS) d1') as Hb1'.
      { unfold d1'. eapply Multiply.Forall_update; [| |exact Hb1]; cbv beta; intros v Hv; nia. }
      pose proof (Multiply.delta_row_Z Z.sub (-1) LIMB_NUM (nth i Q 0) P i d1' _
                    ltac:(intros; lia) eq_refl
                    ltac:(rewrite Hl1', Hl; unfold LIMB_NUM in *; lia) HQi RP Hb1') as H2.
      cbv zeta in H2. destruct H2 as (Hl2 & Hm2 & Hb2).
      split; [rewrite Multiply.length_update; congruence|]. split.
      + rewrite Multiply.magnitude_update
          by (rewrite Hl2, Hl1', Hl; unfold LIMB_NUM in *; lia).
        rewrite Hm2, Hm1', Hm1, Hm, !Multiply.magnitude_firstn_S.
        rewrite <- LP at 1. rewrite !firstn_all.
        replace (Z.of_nat (2 * i)) with (Z.of_nat i + Z.of_nat i) by lia.
        rewrite Z.pow_add_r by lia. ring.
      + eapply Multiply.Forall_update; [| |exact Hb2]; cbv beta; intros v Hv;
          rewrite Nat2Z.inj_succ; unfold step, LIMB_NUM in *; nia. }
  rewrite <- LX in Hm at 1 2. rewrite <- LQ in Hm at 1. rewrite <- LR in Hm at 1.
  rewrite !firstn_all in Hm.
  split; [exact Hl|]. split; [exact Hm|].
  eapply Forall_impl; [|exact Hb]. cbv beta. intros v Hv.
  unfold delta_bound, step in *. rewrite MODULUS_eq in Hv. unfold LIMB_NUM in Hv. lia.
Qed.

(** The constraints of a square accept the quotients and remainders of
    the square. *)
Lemma square_constraints_Ok (x p q r : t) :
  wf x -> wf p -> wf q -> wf r ->
  magnitude (fields x) * magnitude (fields x)
  = magnitude (fields q) * magnitude (fields p) + magnitude (fields r) ->
  multiply_constraints true x x p q r = Ok tt.
Proof.
  intros [Lx Rx] [Lp Rp] [Lq Rq] [Lr Rr] Hid.
  unfold multiply_constraints. cbv zeta.
  pose proof (Multiply.compute_delta_rel true (fields x) (fields x) (fields q) (fields r)
                (fields p)) as Hrel.
  pose proof (compute_delta_Z_square (fields x) (fields x) (fields q) (fields r) (fields p)
                Lx Lq Lr Lp Rx Rq Rr Rp) as HZ.
  cbv zeta in HZ. destruct HZ as (Hl & Hm & Hb).
  set (deltaF := compute_delta Field.add Field.sub Field.mul true _ _ _ _ _) in *.
  set (deltaZ := compute_delta Z.add Z.sub Z.mul true _ _ _ _ _) in *.
  assert (magnitude deltaZ = 0) as Hzero by lia.
  destruct (Multiply.carry_loop_Ok deltaF deltaZ (2 * LIMB_NUM - 2) Hrel Hzero Hb
              ltac:(rewrite Hl; unfold LIMB_NUM; lia)) as (c & E & Hc & Hs).
  rewrite E. cbn [bind].
  rewrite (Multiply.skipn_nth_cons (2 * LIMB_NUM - 2) deltaZ) in Hs
    by (rewrite Hl; unfold LIMB_NUM; lia).
  rewrite Limbs.magnitude_cons in Hs.
  assert (skipn (S (2 * LIMB_NUM - 2)) deltaZ = []) as Enil.
  { apply skipn_all2. rewrite Hl. unfold LIMB_NUM. lia. }
  rewrite Enil, Limbs.magnitude_nil in Hs.
  apply RangeCheck.field_assertEquals_Ok.
  pose proof (Multiply.stands_for_nth (2 * LIMB_NUM - 2) _ _ Hrel) as Hnth.
  unfold stands_for in Hnth. rewrite Hnth. unfold Field.add.
  rewrite <- Zplus_mod.
  replace (nth (2 * LIMB_NUM - 2) deltaZ 0 + c) with 0 by lia. reflexivity.
Qed.

(** What the witness of [multiply] holds when its callback returns. *)
Lemma multiply_witness_inv (x y p q r : t) :
  wf x -> wf y -> wf p ->
  multiply_witness x y p = Ok (q, r) ->
  wf q /\ wf r /\
  magnitude (fields x) * magnitude (fields y)
  = magnitude (fields q) * magnitude (fields p) + magnitude (fields r).
Proof.
  intros Hx Hy Hp H. unfold multiply_witness in H. cbv zeta in H.
  destruct (Z.eqb_spec (toBigInt p) 0) as [|Hp0]; [discriminate|].
  apply bind_Ok_inv in H. destruct H as (vq & Eq & H).
  apply bind_Ok_inv in H. destruct H as (vr & Er & H).
  assert (vq = q /\ vr = r) as [-> ->] by (split; congruence).
  apply Division.from_Ok_inv in Eq. apply Division.from_Ok_inv in Er.
  destruct Eq as (Wq & Vq & _), Er as (Wr & Vr & _).
  split; [exact Wq|]. split; [exact Wr|].
  rewrite (Add.magnitude_abs x Hx), (Add.magnitude_abs y Hy), (Add.magnitude_abs p Hp),
    (Add.magnitude_abs q Wq), (Add.magnitude_abs r Wr), Vq, Vr.
  destruct (Multiply.quot_rem_abs (toBigInt x * toBigInt y) (toBigInt p) Hp0) as (Hid & _).
  rewrite Z.abs_mul in Hid. exact Hid.
Qed.

(** [modSquare] and [modMul] on a repeated operand run the same witness
    and accept it together. *)
Lemma modSquare_modMul (p x : t) :
  wf p -> wf x -> modSquare p x = modMul p x x.
Proof.
  intros Hp Hx. unfold modSquare, modMul, multiply.
  destruct (multiply_witness x x p) as [[q r]|e] eqn:W; [|reflexivity].
  cbn [bind].
  destruct (multiply_witness_inv x x p q r Hx Hx Hp W) as (Wq & Wr & Hid).
  rewrite (RangeCheck.check_Ok q Wq), (RangeCheck.check_Ok r Wr). cbn [bind].
  rewrite (square_constraints_Ok x p q r Hx Hp Wq Wr Hid).
  rewrite (Multiply.multiply_constraints_Ok x x p q r Hx Hx Hp Wq Wr Hid).
  reflexivity.
Qed.

End Square.

(** The squaring shortcut changes nothing: for an operand and a modulus
    that satisfy the struct invariant, [modSquare] returns what [modMul]
    returns on the operand taken twice, value or error. *)
Theorem modSquare_is_modMul (p x : Bigint2048.t) :
  Bigint2048.wf p -> Bigint2048.wf x ->
  Bigint2048.modSquare p x = Bigint2048.modMul p x x.
Proof. exact (Square.modSquare_modMul p x). Qed.

Lemma modSquare_is_modMul_witness :
  Bigint2048.modSquare (Bigint2048.const 1000) (Bigint2048.const (-37))
  = Bigint2048.modMul (Bigint2048.const 1000) (Bigint2048.const (-37))
      (Bigint2048.const (-37)).
Proof.
  apply (modSquare_is_modMul (Bigint2048.const 1000) (Bigint2048.const (-37)));
    apply Limbs.wfb_wf; vm_compute; reflexivity.
Defined.

(** On every value that satisfies the struct invariant, [square] returns
    a nonnegative value whose magnitude is the square of the integer value
    modulo [2^2088 - 1]. *)
Theorem square_wraps_at_MAX (a : Bigint2048.t) :
  Bigint2048.wf a ->
  exists r,
    Bigint2048.square a = Ok r /\ Bigint2048.wf r /\
    Bigint2048.negative r = false /\
    Bigint2048.toBigInt r
    = (Bigint2048.toBigInt a * Bigint2048.toBigInt a) mod (2 ^ 2088 - 1).
Proof.
  intros Ha. change (2 ^ 2088 - 1) with Bigint2048.MAX_value.
  unfold Bigint2048.square.
  rewrite (Square.modSquare_modMul Bigint2048.MAX (Bigint2048.abs a) Multiply.wf_MAX
             (Add.wf_abs a Ha)).
  pose proof Multiply.MAX_value_pos as HM.
  pose proof (Limbs.toBigInt_bound a Ha) as Ba.
  destruct (Multiply.multiply_Ok (Bigint2048.abs a) (Bigint2048.abs a) Bigint2048.MAX
              (Add.wf_abs a Ha) (Add.wf_abs a Ha) Multiply.wf_MAX)
    as (r & E & Wr & Nr & Mr).
  - rewrite Multiply.toBigInt_MAX. lia.
  - rewrite !Add.toBigInt_abs, Multiply.toBigInt_MAX, !Z.abs_idemp by assumption.
    rewrite (Z.abs_eq Bigint2048.MAX_value) by lia.
    apply Z.div_le_upper_bound; [lia|].
    apply Z.mul_le_mono_nonneg; lia.
  - exists r. split; [exact E|]. split; [exact Wr|].
    rewrite !Add.toBigInt_abs, Multiply.toBigInt_MAX, !Z.abs_idemp in * by assumption.
    rewrite (Z.abs_eq Bigint2048.MAX_value) in Mr by lia.
    assert (Bigint2048.negative r = false) as Hn.
    { rewrite Nr. apply Z.ltb_ge.
      set (xy := Z.abs (Bigint2048.toBigInt a) * Z.abs (Bigint2048.toBigInt a)).
      assert (0 <= xy) by (unfold xy; nia).
      pose proof (Z.quot_rem' xy Bigint2048.MAX_value).
      pose proof (Z.rem_nonneg xy Bigint2048.MAX_value ltac:(lia) ltac:(lia)). lia. }
    split; [exact Hn|].
    rewrite (Multiply.toBigInt_sign r), Hn, Mr, Z.abs_square. lia.
Qed.

Lemma square_wraps_at_MAX_witness :
  exists r,
    Bigint2048.square (Bigint2048.const (-5)) = Ok r /\ Bigint2048.wf r /\
    Bigint2048.negative r = false /\
    Bigint2048.toBigInt r
    = (Bigint2048.toBigInt (Bigint2048.const (-5))
       * Bigint2048.toBigInt (Bigint2048.const (-5))) mod (2 ^ 2088 - 1).
Proof.
  apply (square_wraps_at_MAX (Bigint2048.const (-5))).
  apply Limbs.wfb_wf. vm_compute. reflexivity.
Defined.

(** ** Bits and powers *)

Module Bits.
Import Bigint2048.

Lemma of_bits_nonneg (bits : list bool) : 0 <= Field.of_bits bits.
Proof.
  induction bits as [|b bits IH]; cbn [Field.of_bits]; [lia|].
  destruct b; cbn [Field.of_bool]; lia.
Qed.

Lemma testbits_shift (x : Z) (n : nat) :
  map (fun i => Z.testbit x (Z.of_nat i)) (seq 1 n)
  = map (fun i => Z.testbit (x / 2) (Z.of_nat i)) (seq 0 n).
Proof.
  rewrite <- seq_shift, map_map. apply map_ext. intros i.
  rewrite Nat2Z.inj_succ. symmetry. apply Z.div2_bits. lia.
Qed.

(** The bits that [Field.toBits] returns make up the number. *)
Lemma of_bits_testbits (n : nat) (x : Z) :
  0 <= x ->
  Field.of_bits (map (fun i => Z.testbit x (Z.of_nat i)) (seq 0 n))
  = x mod 2 ^ Z.of_nat n.
Proof.
  revert x. induction n as [|n IH]; intros x Hx.
  - simpl. rewrite Z.mod_1_r. reflexivity.
  - cbn [seq map Field.of_bits]. rewrite testbits_shift, IH
      by (apply Z.div_pos; lia).
    change (Z.of_nat 0) with 0. rewrite Z.bit0_odd.
    rewrite Nat2Z.inj_succ, Z.pow_succ_r by lia.
    rewrite (Z.rem_mul_r x 2 (2 ^ Z.of_nat n)) by lia.
    rewrite Zmod_odd. destruct (Z.odd x); cbn [Field.of_bool]; lia.
Qed.

Lemma toBits_Ok (n : nat) (x : Z) :
  0 <= x < 2 ^ Z.of_nat n ->
  exists bits, Field.toBits n x = Ok bits /\ length bits = n /\
               Field.of_bits bits = x /\
               hd false bits = (Nat.ltb 0 n && Z.odd x).
Proof.
  intros Hx. unfold Field.toBits.
  destruct (Z.ltb_spec x (2 ^ Z.of_nat n)); [|lia].
  eexists. split; [reflexivity|]. split; [rewrite length_map, length_seq; reflexivity|].
  split.
  - rewrite of_bits_testbits by lia. apply Z.mod_small. lia.
  - destruct n; [reflexivity|]. cbn [seq map hd Nat.ltb Nat.leb andb].
    apply Z.bit0_odd.
Qed.

(** *** [powField] *)

Lemma powField_turn_spec (bit : bool) (res sq : t) :
  wf res -> wf sq ->
  exists res' sq',
    powField_turn bit (res, sq) = Ok (res', sq') /\ wf res' /\ wf sq' /\
    negative sq' = false /\
    negative res' = xorb (negative res) (bit && negative sq) /\
    magnitude (fields res')
    = (if bit then (magnitude (fields res) * magnitude (fields sq)) mod MAX_value
       else magnitude (fields res)) /\
    magnitude (fields sq')
    = (magnitude (fields sq) * magnitude (fields sq)) mod MAX_value.
Proof.
  intros Wr Ws. unfold powField_turn.
  destruct (Multiply.mul_spec res sq Wr Ws) as (pr & E1 & W1 & N1 & M1).
  destruct (Multiply.mul_spec sq sq Ws Ws) as (s2 & E2 & W2 & N2 & M2).
  rewrite E1. cbn [bind]. rewrite E2. cbn [bind].
  rewrite <- (Add.magnitude_abs res Wr), <- (Add.magnitude_abs sq Ws) in *.
  assert (negative s2 = false) as N2' by (rewrite N2; apply xorb_nilpotent).
  eexists _, _. split; [reflexivity|]. unfold select.
  destruct bit; cbn [andb].
  - split; [exact W1|]. split; [exact W2|]. split; [exact N2'|].
    split; [exact N1|]. split; [exact M1 | exact M2].
  - split; [exact Wr|]. split; [exact W2|]. split; [exact N2'|].
    split; [symmetry; apply xorb_false_r|]. split; [reflexivity | exact M2].
Qed.

Lemma powField_loop_spec (bits : list bool) (res sq : t) :
  wf res -> wf sq -> magnitude (fields res) < MAX_value ->
  exists res' sq',
    powField_loop bits (res, sq) = Ok (res', sq') /\ wf res' /\
    negative res' = xorb (negative res) (hd false bits && negative sq) /\
    magnitude (fields res')
    = (magnitude (fields res) * magnitude (fields sq) ^ Field.of_bits bits)
        mod MAX_value.
Proof.
  pose proof Multiply.MAX_value_pos as HM.
  revert res sq. induction bits as [|bit bits IH]; intros res sq Wr Ws Hlt.
  - exists res, sq. split; [reflexivity|]. split; [exact Wr|].
    cbn [hd andb Field.of_bits]. rewrite xorb_false_r, Z.pow_0_r, Z.mul_1_r.
    split; [reflexivity|]. symmetry. apply Z.mod_small.
    destruct Wr as [_ Rr]. pose proof (Limbs.magnitude_bound _ Rr). lia.
  - cbn [powField_loop].
    destruct (powField_turn_spec bit res sq Wr Ws)
      as (r1 & s1 & E1 & Wr1 & Ws1 & Ns1 & Nr1 & Mr1 & Ms1).
    rewrite E1. cbn [bind].
    assert (magnitude (fields r1) < MAX_value) as Hlt1.
    { rewrite Mr1. destruct bit; [|exact Hlt].
      apply Z.mod_pos_bound. exact HM. }
    destruct (IH r1 s1 Wr1 Ws1 Hlt1) as (res' & sq' & E & W' & N' & M').
    exists res', sq'. split; [exact E|]. split; [exact W'|].
    rewrite Ns1, andb_false_r, xorb_false_r in N'.
    split; [rewrite N', Nr1; reflexivity|].
    rewrite M', Mr1, Ms1. cbn [Field.of_bits hd].
    pose proof (of_bits_nonneg bits) as Hb.
    set (mr := magnitude (fields res)). set (ms := magnitude (fields sq)).
    set (e := Field.of_bits bits) in *.
    rewrite <- Zmult_mod_idemp_r, Z.mod_pow_l, Zmult_mod_idemp_r.
    assert ((ms * ms) ^ e = ms ^ (2 * e)) as ->.
    { rewrite Z.pow_mul_r, Z.pow_2_r by lia. reflexivity. }
    destruct bit; cbn [Field.of_bool].
    + rewrite Zmult_mod_idemp_l.
      rewrite Z.pow_add_r, Z.pow_1_r by lia. f_equal. ring.
    + rewrite Z.add_0_l. reflexivity.
Qed.

(** *** [toBits] *)

Lemma of_bits_app (l1 l2 : list bool) :
  Field.of_bits (l1 ++ l2)
  = Field.of_bits l1 + 2 ^ Z.of_nat (length l1) * Field.of_bits l2.
Proof.
  induction l1 as [|b l1 IH]; cbn [app Field.of_bits length].
  - change (Z.of_nat 0) with 0. rewrite Z.pow_0_r. lia.
  - rewrite IH, Nat2Z.inj_succ, Z.pow_succ_r by lia. ring.
Qed.

Lemma toBits_limbs_Ok (l : list Z) :
  in_range l ->
  exists bits, toBits_limbs l = Ok bits /\
               length bits = (116 * length l)%nat /\
               Field.of_bits bits = magnitude l.
Proof.
  induction 1 as [|x l Hx _ IH].
  - exists []. repeat split.
  - cbn [toBits_limbs]. rewrite MODULUS_eq in Hx.
    destruct (toBits_Ok (Z.to_nat LIMB_BITS) x Hx) as (b1 & E1 & L1 & V1 & _).
    destruct IH as (b2 & E2 & L2 & V2).
    rewrite E1. cbn [bind]. rewrite E2. cbn [bind].
    eexists. split; [reflexivity|]. split.
    + rewrite length_app, L1, L2. cbn [length]. change (Z.to_nat LIMB_BITS) with 116%nat. lia.
    + rewrite of_bits_app, L1, V1, V2, Limbs.magnitude_cons, MODULUS_eq. reflexivity.
Qed.

Lemma toBits_limbs_Err (l : list Z) :
  Forall (fun limb => 0 <= limb) l -> ~ in_range l ->
  toBits_limbs l = Err AssertionFailed.
Proof.
  induction 1 as [|x l Hx Hl IH]; intros Hn.
  - exfalso. apply Hn. constructor.
  - cbn [toBits_limbs]. unfold Field.toBits.
    change (2 ^ Z.of_nat (Z.to_nat LIMB_BITS)) with MODULUS.
    destruct (Z.ltb_spec x MODULUS) as [Hlt|]; [|reflexivity]. cbn [bind].
    rewrite IH; [reflexivity|].
    intros Hr. apply Hn. apply Limbs.in_range_cons. split; [lia | exact Hr].
Qed.

End Bits.

(** On eighteen limbs, [toBits] returns [2088] bits, [116] for every limb
    and the least significant first, which make up the magnitude of the
    value, when every limb is below [2^116]; it fails an assertion when
    some limb is not. *)
Theorem toBits_of_magnitude (x : Bigint2048.t) :
  length (Bigint2048.fields x) = LIMB_NUM ->
  Forall (fun limb => 0 <= limb) (Bigint2048.fields x) ->
  (Bigint2048.in_range (Bigint2048.fields x) ->
   exists bits,
     Bigint2048.toBits x = Ok bits /\
     length bits = 2088%nat /\
     Field.of_bits bits = Bigint2048.magnitude (Bigint2048.fields x))
  /\ (~ Bigint2048.in_range (Bigint2048.fields x) ->
      Bigint2048.toBits x = Err AssertionFailed).
Proof.
  intros Hlen Hpos. split.
  - intros Hr.
    destruct (Bits.toBits_limbs_Ok _ Hr) as (bits & E & L & V).
    exists bits. split; [exact E|]. split; [|exact V].
    rewrite L, Hlen. reflexivity.
  - apply Bits.toBits_limbs_Err. exact Hpos.
Qed.

Lemma toBits_of_magnitude_witness :
  exists bits,
    Bigint2048.toBits (Bigint2048.const (-5)) = Ok bits /\
    length bits = 2088%nat /\
    Field.of_bits bits = Bigint2048.magnitude (Bigint2048.fields (Bigint2048.const (-5))).
Proof.
  apply (proj1 (toBits_of_magnitude (Bigint2048.const (-5))
                  ltac:(reflexivity)
                  ltac:(vm_compute; repeat constructor; discriminate))).
  apply Limbs.wfb_wf. vm_compute. reflexivity.
Defined.

(** On a value that satisfies the struct invariant and an exponent that
    fits the bits of [Field.toBits], [powField] returns a value whose
    magnitude is the power of the magnitude modulo [2^2088 - 1] and whose
    sign bit is set exactly when the value is negative and the exponent
    odd; on an exponent that does not fit, it fails the assertion of
    [Field.toBits]. *)
Theorem powField_wraps_at_MAX (bitLength : nat) (a : Bigint2048.t) (exponent : Z) :
  Bigint2048.wf a -> 0 <= exponent ->
  (exponent < 2 ^ Z.of_nat bitLength ->
   exists r,
     Bigint2048.powField bitLength a exponent = Ok r /\ Bigint2048.wf r /\
     Bigint2048.negative r = (Bigint2048.negative a && Z.odd exponent) /\
     Bigint2048.magnitude (Bigint2048.fields r)
     = (Z.abs (Bigint2048.toBigInt a) ^ exponent) mod (2 ^ 2088 - 1))
  /\ (2 ^ Z.of_nat bitLength <= exponent ->
      Bigint2048.powField bitLength a exponent = Err AssertionFailed).
Proof.
  intros Ha He. change (2 ^ 2088 - 1) with Bigint2048.MAX_value.
  unfold Bigint2048.powField. split; intros H.
  - destruct (Bits.toBits_Ok bitLength exponent ltac:(lia)) as (bits & E & L & V & Hd).
    rewrite E. cbn [bind].
    assert (Bigint2048.from 1 = Ok Bigint2048.ONE) as -> by (vm_compute; reflexivity).
    cbn [bind].
    destruct (Bits.powField_loop_spec bits Bigint2048.ONE a Multiply.wf_ONE Ha)
      as (r & sq & El & W & N & M).
    { vm_compute. reflexivity. }
    rewrite El. cbn [bind fst]. exists r. split; [reflexivity|]. split; [exact W|].
    split.
    + rewrite N, Hd. change (Bigint2048.negative Bigint2048.ONE) with false.
      cbn [xorb]. destruct bitLength as [|n].
      * assert (exponent = 0) as -> by (simpl in H; lia).
        cbn. rewrite andb_false_r. reflexivity.
      * cbn [Nat.ltb Nat.leb andb]. apply andb_comm.
    + rewrite M, V, (Add.magnitude_abs a Ha).
      assert (Bigint2048.magnitude (Bigint2048.fields Bigint2048.ONE) = 1) as ->
          by (vm_compute; reflexivity).
      rewrite Z.mul_1_l. reflexivity.
  - unfold Field.toBits.
    destruct (Z.ltb_spec exponent (2 ^ Z.of_nat bitLength)); [lia | reflexivity].
Qed.

Lemma powField_wraps_at_MAX_witness :
  exists r,
    Bigint2048.powField 254 (Bigint2048.const (-3)) 5 = Ok r /\ Bigint2048.wf r /\
    Bigint2048.negative r = (Bigint2048.negative (Bigint2048.const (-3)) && Z.odd 5) /\
    Bigint2048.magnitude (Bigint2048.fields r)
    = (Z.abs (Bigint2048.toBigInt (Bigint2048.const (-3))) ^ 5) mod (2 ^ 2088 - 1).
Proof.
  apply (proj1 (powField_wraps_at_MAX 254 (Bigint2048.const (-3)) 5
                  ltac:(apply Limbs.wfb_wf; vm_compute; reflexivity) ltac:(lia))).
  vm_compute. reflexivity.
Defined.

(** ** Text *)

Module Text.
Import Bigint2048.

Lemma to_int_proper (x : Z) :
  Z.to_int x <> Decimal.Pos Decimal.Nil /\ Z.to_int x <> Decimal.Neg Decimal.Nil.
Proof.
  destruct x as [|p|p]; cbn [Z.to_int]; split; try discriminate;
    intros H; injection H as H; exact (DecimalPos.Unsigned.to_uint_nonnil p H).
Qed.

Lemma parse_render (x : Z) :
  DecimalString.NilZero.int_of_string
    (DecimalString.NilZero.string_of_int (Z.to_int x)) = Some (Z.to_int x).
Proof.
  destruct (to_int_proper x) as [H1 H2]. apply DecimalString.NilZero.isi; assumption.
Qed.

Lemma render_inj (x y : Z) :
  DecimalString.NilZero.string_of_int (Z.to_int x)
  = DecimalString.NilZero.string_of_int (Z.to_int y) -> x = y.
Proof.
  intros H. apply (f_equal DecimalString.NilZero.int_of_string) in H.
  rewrite !parse_render in H. injection H as H.
  apply (f_equal Z.of_int) in H. rewrite !DecimalZ.of_to in H. exact H.
Qed.

Lemma render_not_minus_zero (y : Z) :
  String.String (Ascii.ascii_of_nat 45)
    (DecimalString.NilZero.string_of_int (Z.to_int 0))
  <> DecimalString.NilZero.string_of_int (Z.to_int y).
Proof.
  intros H. apply (f_equal DecimalString.NilZero.int_of_string) in H.
  rewrite parse_render in H.
  change (Some (Decimal.Neg (Decimal.D0 Decimal.Nil)) = Some (Z.to_int y)) in H.
  injection H as H. destruct y as [|p|p]; cbn [Z.to_int] in H; try discriminate.
  injection H as H. symmetry in H.
  exact (DecimalPos.Unsigned.to_uint_nonzero p H).
Qed.

Lemma struct_eq (a b : t) :
  wf a -> wf b -> negative a = negative b -> toBigInt a = toBigInt b -> a = b.
Proof.
  intros Ha Hb Hn Hv.
  assert (fields a = fields b) as Hf.
  { destruct Ha as [La Ra], Hb as [Lb Rb].
    apply Limbs.magnitude_inj; auto; [congruence|].
    unfold toBigInt in Hv. rewrite Hn in Hv. destruct (negative b); lia. }
  destruct a, b. cbn [negative fields] in *. congruence.
Qed.

End Text.

(** On values that satisfy the struct invariant, [toString] tells every
    value from every other, the two zeros included: the negative zero is
    written ["-0"] (characters 45 and 48) and no other value is. *)
Theorem toString_injective (a b : Bigint2048.t) :
  Bigint2048.wf a -> Bigint2048.wf b ->
  (Bigint2048.toString a = Bigint2048.toString b <-> a = b)
  /\ (Bigint2048.toString a
      = String.String (Ascii.ascii_of_nat 45)
          (String.String (Ascii.ascii_of_nat 48) String.EmptyString)
      <-> Bigint2048.toBigInt a = 0 /\ Bigint2048.negative a = true).
Proof.
  intros Ha Hb.
  assert (forall c, Bigint2048.wf c ->
            Bigint2048.toBigInt c <> 0 ->
            Bigint2048.negative c = (Bigint2048.toBigInt c <? 0)) as Hsign.
  { intros c [_ R] H. pose proof (Limbs.magnitude_bound _ R).
    unfold Bigint2048.toBigInt in *.
    destruct (Bigint2048.negative c);
      match goal with |- _ = (?x <? 0) => destruct (Z.ltb_spec x 0) end; auto; lia. }
  split.
  - split; [|intros ->; reflexivity].
    unfold Bigint2048.toString. intros H.
    destruct (Z.eqb_spec (Bigint2048.toBigInt a) 0) as [Ea|Na];
      destruct (Z.eqb_spec (Bigint2048.toBigInt b) 0) as [Eb|Nb];
      destruct (Bigint2048.negative a) eqn:Sa; destruct (Bigint2048.negative b) eqn:Sb;
      cbn [andb String.append] in H;
      try (rewrite ?Ea, ?Eb in H;
           first [ exfalso; exact (Text.render_not_minus_zero _ H)
                 | exfalso; exact (Text.render_not_minus_zero _ (eq_sym H)) ]);
      try (apply Text.render_inj in H);
      try (apply Text.struct_eq; auto; congruence);
      try (exfalso; congruence);
      apply Text.struct_eq; auto;
      rewrite (Hsign a Ha), (Hsign b Hb) in * by assumption; congruence.
  - unfold Bigint2048.toString. split.
    + intros H.
      destruct (Z.eqb_spec (Bigint2048.toBigInt a) 0) as [Ea|Na];
        destruct (Bigint2048.negative a) eqn:Sa; cbn [andb String.append] in H;
        try (split; [assumption | reflexivity]);
        exfalso; exact (Text.render_not_minus_zero _ (eq_sym H)).
    + intros [-> ->]. reflexivity.
Qed.

Lemma toString_injective_witness :
  Bigint2048.toString (Bigint2048.mk true (repeat 0 18))
  = Bigint2048.toString (Bigint2048.const 0)
  <-> Bigint2048.mk true (repeat 0 18) = Bigint2048.const 0.
Proof.
  apply (toString_injective (Bigint2048.mk true (repeat 0 18)) (Bigint2048.const 0));
    apply Limbs.wfb_wf; vm_compute; reflexivity.
Defined.
